(** * Event bus: dispatcher, coordinator and scoped registration

    A shallow embedding of the delivery engine of the event system
    (IDispatcher.hpp, Dispatcher.hpp, EventSystem.hpp) and the proofs of
    its ordering, one-shot, re-entrancy and unsubscription properties.

    Handlers are closures that may call back into the bus.  They are
    embedded as programs over the public interface of the bus ([prog]);
    the engine is an interpreter of such programs over an explicit world
    state.  The repository holds two revisions of the dispatcher: the
    current one (namespace NEventSystem, CamelCase members) and the
    earlier one (namespace event_system, snake_case members).  Both are
    embedded, under the names they have in the source. *)

From Stdlib Require Import NArith ZArith Lia.
From stdpp Require Import base option list sorting gmap.

Set Default Proof Using "Type".

(** ** Identifiers and priorities (IDispatcher.hpp) *)

(** [using THandlerId = std::size_t]: an unsigned integer of 64 bits on
    the targets the project is built for; arithmetic wraps. *)
Definition THandlerId := N.
Definition SIZE_WIDTH : N := 64.
Definition SIZE_MOD : N := 2 ^ SIZE_WIDTH.

(** [enum class EPriority { Low, Normal, High }]. *)
Inductive EPriority := Low | Normal | High.

(** [static_cast<int>(Priority)]: the enumerators count from 0. *)
Definition priority_int (p : EPriority) : Z :=
  match p with Low => 0 | Normal => 1 | High => 2 end%Z.

#[global] Instance EPriority_eq_dec : EqDecision EPriority.
Proof. solve_decision. Defined.

(** [std::type_index] of the event type, and the address of a bus. *)
Definition EventType := nat.
Definition BusRef := nat.

(** The path by which a callback was reached. *)
Inductive Via := ViaDispatch | ViaInvokeSingle.

(** The observation log: callback invocations and interface calls. *)
Inductive TraceEvent (Payload : Type) :=
| Invoked (flag : nat) (id : THandlerId) (prio : EPriority)
          (oneshot : bool) (ev : Payload) (via : Via) (depth : nat)
| Issued (sys : BusRef) (id : THandlerId)
| Unsubscribed (sys : BusRef) (id : THandlerId).
Arguments Invoked {Payload}.
Arguments Issued {Payload}.
Arguments Unsubscribed {Payload}.

Inductive Status := Returned | Raised | OutOfFuel.

Section EventSystem.

Context {U Payload : Type}.

(** ** Handler bodies

    A callback is a program over the interface of the bus.  [k] is the
    rest of the callback; it receives the result of the call. *)
Inductive prog :=
| Ret
| Throw
| GetState (k : U → prog)
| SetState (u : U) (k : prog)
| TryCatch (body : prog) (k : bool → prog)
| CallSubscribe (sys : BusRef) (ty : EventType) (priority : EPriority)
                (OneShot : bool) (handler : Payload → prog)
                (k : THandlerId → prog)
| CallUnsubscribe (sys : BusRef) (id : THandlerId) (k : prog)
| CallDispatch (sys : BusRef) (ty : EventType) (ev : Payload) (k : prog)
| CallGetHandlerCount (sys : BusRef) (ty : EventType) (k : nat → prog).

(** A [Callback] is the call operator of the [std::function].  What the
    closure owns is not represented: the objects it captures are taken
    to have destructors that make no call on a bus, so that the
    destruction of a slot, when its last [shared_ptr] goes, changes
    nothing in the world.  A closure that owns, say, a
    [shared_ptr<TScopedConnection>] is outside this embedding. *)
Definition Callback := Payload → prog.

(** ** Dispatcher state (Dispatcher.hpp)

    [struct TSlot].  [Id], [Priority], [CallbackV] and [IsOneShot] are
    never written after construction, so every [shared_ptr<TSlot>] copy
    is represented by the values of these members together with the
    location [Active] of the slot's [std::atomic<bool>] in the store of
    flags.  Two copies of one pointer share the location. *)
Record TSlot := mkSlot {
  Id : THandlerId;
  Priority : EPriority;
  CallbackV : Callback;
  IsOneShot : bool;
  Active : nat
}.

(** [std::vector<std::shared_ptr<TSlot>> Slots]. *)
Record TDispatcher := mkDispatcher { Slots : list TSlot }.

(** The store of [Active] flags.  A location that was never allocated
    reads false; a store to it does nothing. *)
Definition load (flags : list bool) (a : nat) : bool :=
  default false (flags !! a).

Definition store_false (flags : list bool) (a : nat) : list bool :=
  <[a := false]> flags.

(** The comparator of [std::stable_sort] in [Subscribe]. *)
Definition prio_gt (a b : TSlot) : bool :=
  bool_decide (priority_int (Priority a) > priority_int (Priority b))%Z.

(** [std::stable_sort] with comparator [prio_gt]: the sorted permutation
    that keeps equivalent elements in their input order.  Insertion from
    the right computes it. *)
Fixpoint stable_insert (x : TSlot) (l : list TSlot) : list TSlot :=
  match l with
  | [] => [x]
  | y :: ys => if prio_gt y x then y :: stable_insert x ys else x :: y :: ys
  end.

Fixpoint stable_sort (l : list TSlot) : list TSlot :=
  match l with
  | [] => []
  | x :: xs => stable_insert x (stable_sort xs)
  end.

(** [TDispatcher::Subscribe], given the slot that [make_shared] built. *)
Definition Subscribe (slot : TSlot) (d : TDispatcher) : TDispatcher :=
  mkDispatcher (stable_sort (Slots d ++ [slot])).

(** [std::find_if] by identifier. *)
Definition find_if (id : THandlerId) (l : list TSlot) : option TSlot :=
  List.find (fun s => bool_decide (Id s = id)) l.

(** [TDispatcher::CleanupUnlocked]: erase-remove of the inactive slots.
    The erased pointers are dropped; see [Callback] for what the
    destruction of a slot is taken to do. *)
Definition CleanupUnlocked (flags : list bool) (d : TDispatcher) : TDispatcher :=
  mkDispatcher (List.filter (fun s => load flags (Active s)) (Slots d)).

(** [TDispatcher::Remove]: result, dispatcher and flags afterwards. *)
Definition Remove (id : THandlerId) (flags : list bool) (d : TDispatcher)
  : bool * TDispatcher * list bool :=
  match find_if id (Slots d) with
  | None => (false, d, flags)
  | Some slot =>
      let flags' := store_false flags (Active slot) in
      (true, CleanupUnlocked flags' d, flags')
  end.

(** [TDispatcher::Count]. *)
Definition Count (flags : list bool) (d : TDispatcher) : nat :=
  length (List.filter (fun s => load flags (Active s)) (Slots d)).

(** ** Bus state (EventSystem.hpp) *)

(** The data members of [TEventSystem]; the mutex is not represented. *)
Record TEventSystem := mkSystem {
  Dispatchers : gmap EventType TDispatcher;
  HandlerTypes : gmap THandlerId EventType;
  NextId : THandlerId
}.

(** A default-constructed bus: [NextId{1}], empty maps. *)
Definition TEventSystem_new : TEventSystem := mkSystem ∅ ∅ 1%N.

(** [TDispatchFrame]: the bus, the event type and the event delivered.
    The frame's [Dispatcher] pointer is the dispatcher that [System]
    keeps for [EventTypeIndex]. *)
Record TDispatchFrame := mkFrame {
  System : BusRef;
  EventTypeIndex : EventType;
  Event : Payload
}.

(** The state of the process as seen by one thread: the flags of all
    slots, the buses by address (a bus that was never touched is in its
    default-constructed state), the thread-local [DispatchStack] (the
    head of the list is the back of the vector), the state captured by
    the handlers' closures, and the observation log. *)
Record World := mkWorld {
  Flags : list bool;
  Systems : gmap BusRef TEventSystem;
  DispatchStack : list TDispatchFrame;
  UserState : U;
  Trace : list (TraceEvent Payload)
}.

(** The world at the start of the process, for a given state of the
    closures. *)
Definition initial (u : U) : World := mkWorld [] ∅ [] u [].

Definition bus (w : World) (b : BusRef) : TEventSystem :=
  default TEventSystem_new (Systems w !! b).

Definition set_bus (b : BusRef) (sys : TEventSystem) (w : World) : World :=
  mkWorld (Flags w) (<[b := sys]> (Systems w)) (DispatchStack w)
          (UserState w) (Trace w).

Definition set_flags (flags : list bool) (w : World) : World :=
  mkWorld flags (Systems w) (DispatchStack w) (UserState w) (Trace w).

Definition set_user (u : U) (w : World) : World :=
  mkWorld (Flags w) (Systems w) (DispatchStack w) u (Trace w).

Definition log (e : TraceEvent Payload) (w : World) : World :=
  mkWorld (Flags w) (Systems w) (DispatchStack w) (UserState w)
          (Trace w ++ [e]).

(** [PushFrame] and [PopFrame]. *)
Definition PushFrame (fr : TDispatchFrame) (w : World) : World :=
  mkWorld (Flags w) (Systems w) (fr :: DispatchStack w) (UserState w)
          (Trace w).

Definition PopFrame (w : World) : World :=
  mkWorld (Flags w) (Systems w) (tail (DispatchStack w)) (UserState w)
          (Trace w).

(** [NextId.fetch_add(1)] on a [std::atomic<std::size_t>]. *)
Definition fetch_add (sys : TEventSystem) : THandlerId * TEventSystem :=
  (NextId sys,
   mkSystem (Dispatchers sys) (HandlerTypes sys)
            ((NextId sys + 1) mod SIZE_MOD)%N).

(** [GetDispatcher<TEvent>]: find the dispatcher or emplace a new one. *)
Definition GetDispatcher (ty : EventType) (sys : TEventSystem)
  : TDispatcher * TEventSystem :=
  match Dispatchers sys !! ty with
  | Some d => (d, sys)
  | None =>
      (mkDispatcher [],
       mkSystem (<[ty := mkDispatcher []]> (Dispatchers sys))
                (HandlerTypes sys) (NextId sys))
  end.

(** A member call on the dispatcher object that the bus holds for [ty]. *)
Definition with_dispatcher (ty : EventType) (f : TDispatcher → TDispatcher)
    (sys : TEventSystem) : TEventSystem :=
  mkSystem (alter f ty (Dispatchers sys)) (HandlerTypes sys) (NextId sys).

(** [HandlerTypes.emplace(id, type)]: no effect when the key is present. *)
Definition emplace_handler_type (id : THandlerId) (ty : EventType)
    (sys : TEventSystem) : TEventSystem :=
  match HandlerTypes sys !! id with
  | Some _ => sys
  | None =>
      mkSystem (Dispatchers sys) (<[id := ty]> (HandlerTypes sys)) (NextId sys)
  end.

(** [SubscribeImpl] up to the call of [NotifyCurrentDispatch]: take the
    identifier, get the dispatcher, build the slot with a fresh [Active]
    flag set to true, insert it, record the event type of the handler. *)
Definition SubscribeImpl_register (b : BusRef) (ty : EventType)
    (priority : EPriority) (handler : Callback) (OneShot : bool) (w : World)
  : THandlerId * World :=
  let '(id, sys1) := fetch_add (bus w b) in
  let '(_, sys2) := GetDispatcher ty sys1 in
  let slot := mkSlot id priority handler OneShot (length (Flags w)) in
  let sys3 := with_dispatcher ty (Subscribe slot) sys2 in
  let sys4 := emplace_handler_type id ty sys3 in
  (id, log (Issued b id) (set_bus b sys4 (set_flags (Flags w ++ [true]) w))).

(** [UnsubscribeImpl]. *)
Definition UnsubscribeImpl (b : BusRef) (id : THandlerId) (w : World) : World :=
  let sys := bus w b in
  match HandlerTypes sys !! id with
  | None => w
  | Some ty =>
      let sys1 := mkSystem (Dispatchers sys) (delete id (HandlerTypes sys))
                           (NextId sys) in
      let w1 := set_bus b sys1 w in
      match Dispatchers sys1 !! ty with
      | None => w1
      | Some d =>
          let '(_, d', flags') := Remove id (Flags w1) d in
          set_flags flags'
            (set_bus b (mkSystem (<[ty := d']> (Dispatchers sys1))
                                 (HandlerTypes sys1) (NextId sys1)) w1)
      end
  end.

(** [GetHandlerCount<TEvent>]. *)
Definition GetHandlerCount (b : BusRef) (ty : EventType) (w : World) : nat :=
  match Dispatchers (bus w b) !! ty with
  | None => 0
  | Some d => Count (Flags w) d
  end.

(** The dispatcher object of bus [b] for [ty], as a frame points to it. *)
Definition dispatcher_of (w : World) (b : BusRef) (ty : EventType) : TDispatcher :=
  default (mkDispatcher []) (Dispatchers (bus w b) !! ty).

(** [TDispatcher::Cleanup] on that object. *)
Definition Cleanup (b : BusRef) (ty : EventType) (w : World) : World :=
  set_bus b (with_dispatcher ty (CleanupUnlocked (Flags w)) (bus w b)) w.

(** The successful compare-exchange of [Active] from true to false. *)
Definition claim (slot : TSlot) (w : World) : World :=
  set_flags (store_false (Flags w) (Active slot)) w.

Definition invoked (slot : TSlot) (ev : Payload) (via : Via) (w : World)
  : TraceEvent Payload :=
  Invoked (Active slot) (Id slot) (Priority slot) (IsOneShot slot) ev via
          (length (DispatchStack w)).

(** ** Delivery, current revision (namespace NEventSystem)

    [exec] runs a callback.  The loop of [TDispatcher::Dispatch] over the
    snapshot; the result carries [NeedCleanup]. *)
Fixpoint Dispatch_loop (exec : prog → World → Status * World) (ev : Payload)
    (snapshot : list TSlot) (NeedCleanup : bool) (w : World)
  : Status * bool * World :=
  match snapshot with
  | [] => (Returned, NeedCleanup, w)
  | slot :: rest =>
      if IsOneShot slot then
        if load (Flags w) (Active slot) then
          let w1 := claim slot w in
          match exec (CallbackV slot ev) (log (invoked slot ev ViaDispatch w1) w1) with
          | (Returned, w2) => Dispatch_loop exec ev rest true w2
          | (st, w2) => (st, true, w2)
          end
        else Dispatch_loop exec ev rest NeedCleanup w
      else if negb (load (Flags w) (Active slot)) then
        Dispatch_loop exec ev rest NeedCleanup w
      else
        match exec (CallbackV slot ev) (log (invoked slot ev ViaDispatch w) w) with
        | (Returned, w2) => Dispatch_loop exec ev rest NeedCleanup w2
        | (st, w2) => (st, NeedCleanup, w2)
        end
  end.

(** [TDispatcher::Dispatch]: snapshot, loop, cleanup on both exits. *)
Definition Dispatch (exec : prog → World → Status * World) (b : BusRef)
    (ty : EventType) (ev : Payload) (w : World) : Status * World :=
  let snapshot := Slots (dispatcher_of w b ty) in
  match Dispatch_loop exec ev snapshot false w with
  | (OutOfFuel, _, w') => (OutOfFuel, w')
  | (st, NeedCleanup, w') => (st, if NeedCleanup then Cleanup b ty w' else w')
  end.

(** [TDispatcher::InvokeSingle]. *)
Definition InvokeSingle (exec : prog → World → Status * World) (b : BusRef)
    (ty : EventType) (id : THandlerId) (ev : Payload) (w : World)
  : Status * World :=
  match find_if id (Slots (dispatcher_of w b ty)) with
  | None => (Returned, w)
  | Some slot =>
      let run_callback (NeedCleanup : bool) (w1 : World) :=
        match exec (CallbackV slot ev) (log (invoked slot ev ViaInvokeSingle w1) w1) with
        | (OutOfFuel, w2) => (OutOfFuel, w2)
        | (st, w2) => (st, if NeedCleanup then Cleanup b ty w2 else w2)
        end in
      if IsOneShot slot then
        if load (Flags w) (Active slot) then run_callback true (claim slot w)
        else (Returned, w)
      else if negb (load (Flags w) (Active slot)) then (Returned, w)
      else run_callback false w
  end.

(** The frame that [NotifyCurrentDispatch] selects: the first one from
    the back of the stack with this bus and this event type. *)
Definition frame_matches (b : BusRef) (ty : EventType) (fr : TDispatchFrame) : bool :=
  bool_decide (System fr = b) && bool_decide (EventTypeIndex fr = ty).

Definition current_frame (b : BusRef) (ty : EventType)
    (stack : list TDispatchFrame) : option TDispatchFrame :=
  List.find (frame_matches b ty) stack.

(** [NotifyCurrentDispatch<EventType>], given [InvokeNewHandler]. *)
Definition NotifyCurrentDispatch
    (invoke : BusRef → EventType → THandlerId → Payload → World → Status * World)
    (b : BusRef) (ty : EventType) (id : THandlerId) (w : World)
  : Status * World :=
  match current_frame b ty (DispatchStack w) with
  | None => (Returned, w)
  | Some fr => invoke (System fr) (EventTypeIndex fr) id (Event fr) w
  end.

(** [TEventSystem::Dispatch]: the frame guard pops on both exits. *)
Definition TEventSystem_Dispatch
    (deliver : BusRef → EventType → Payload → World → Status * World)
    (b : BusRef) (ty : EventType) (ev : Payload) (w : World) : Status * World :=
  let w1 := set_bus b (snd (GetDispatcher ty (bus w b))) w in
  match deliver b ty ev (PushFrame (mkFrame b ty ev) w1) with
  | (OutOfFuel, w2) => (OutOfFuel, w2)
  | (st, w2) => (st, PopFrame w2)
  end.

(** The interpreter of handler bodies over the bus, for given
    implementations of [Dispatch] and [InvokeSingle]. *)
Definition step
    (deliver : BusRef → EventType → Payload → World → Status * World)
    (invoke : BusRef → EventType → THandlerId → Payload → World → Status * World)
    (exec : prog → World → Status * World) (p : prog) (w : World)
  : Status * World :=
  match p with
  | Ret => (Returned, w)
  | Throw => (Raised, w)
  | GetState k => exec (k (UserState w)) w
  | SetState u k => exec k (set_user u w)
  | TryCatch body k =>
      match exec body w with
      | (Returned, w1) => exec (k false) w1
      | (Raised, w1) => exec (k true) w1
      | (OutOfFuel, w1) => (OutOfFuel, w1)
      end
  | CallSubscribe b ty priority OneShot handler k =>
      let '(id, w1) := SubscribeImpl_register b ty priority handler OneShot w in
      match NotifyCurrentDispatch invoke b ty id w1 with
      | (Returned, w2) => exec (k id) w2
      | (st, w2) => (st, w2)
      end
  | CallUnsubscribe b id k =>
      exec k (log (Unsubscribed b id) (UnsubscribeImpl b id w))
  | CallDispatch b ty ev k =>
      match TEventSystem_Dispatch deliver b ty ev w with
      | (Returned, w1) => exec k w1
      | (st, w1) => (st, w1)
      end
  | CallGetHandlerCount b ty k => exec (k (GetHandlerCount b ty w)) w
  end.

Fixpoint run (fuel : nat) (p : prog) (w : World) {struct fuel} : Status * World :=
  match fuel with
  | 0 => (OutOfFuel, w)
  | S fuel' =>
      step (Dispatch (run fuel')) (InvokeSingle (run fuel')) (run fuel') p w
  end.

(** ** Delivery, earlier revision (namespace event_system)

    [Dispatcher::dispatch]: the flag is read, the callback runs, and
    only then is a one-shot slot marked inactive; there is no handler
    for exceptions. *)
Fixpoint dispatch_loop (exec : prog → World → Status * World) (ev : Payload)
    (snapshot : list TSlot) (need_cleanup : bool) (w : World)
  : Status * bool * World :=
  match snapshot with
  | [] => (Returned, need_cleanup, w)
  | slot :: rest =>
      if negb (load (Flags w) (Active slot)) then
        dispatch_loop exec ev rest need_cleanup w
      else
        match exec (CallbackV slot ev) (log (invoked slot ev ViaDispatch w) w) with
        | (Returned, w2) =>
            if IsOneShot slot then dispatch_loop exec ev rest true (claim slot w2)
            else dispatch_loop exec ev rest need_cleanup w2
        | (st, w2) => (st, need_cleanup, w2)
        end
  end.

Definition dispatch (exec : prog → World → Status * World) (b : BusRef)
    (ty : EventType) (ev : Payload) (w : World) : Status * World :=
  let snapshot := Slots (dispatcher_of w b ty) in
  match dispatch_loop exec ev snapshot false w with
  | (Returned, need_cleanup, w') =>
      (Returned, if need_cleanup then Cleanup b ty w' else w')
  | (st, _, w') => (st, w')
  end.

(** [Dispatcher::invokeSingle]. *)
Definition invokeSingle (exec : prog → World → Status * World) (b : BusRef)
    (ty : EventType) (id : THandlerId) (ev : Payload) (w : World)
  : Status * World :=
  match find_if id (Slots (dispatcher_of w b ty)) with
  | None => (Returned, w)
  | Some slot =>
      if negb (load (Flags w) (Active slot)) then (Returned, w)
      else
        match exec (CallbackV slot ev) (log (invoked slot ev ViaInvokeSingle w) w) with
        | (Returned, w2) =>
            (Returned, if IsOneShot slot then Cleanup b ty (claim slot w2) else w2)
        | (st, w2) => (st, w2)
        end
  end.

Fixpoint run_legacy (fuel : nat) (p : prog) (w : World) {struct fuel}
  : Status * World :=
  match fuel with
  | 0 => (OutOfFuel, w)
  | S fuel' =>
      step (dispatch (run_legacy fuel')) (invokeSingle (run_legacy fuel'))
           (run_legacy fuel') p w
  end.

(** ** Scoped registration ([TScopedConnection])

    [SystemPtr] is the [System] member: [None] is the null pointer. *)
Record TScopedConnection := mkConnection {
  SystemPtr : option BusRef;
  ConnId : THandlerId
}.

(** [Disconnect]: the connection and the world afterwards. *)
Definition Disconnect (c : TScopedConnection) (w : World)
  : TScopedConnection * World :=
  match SystemPtr c with
  | Some b =>
      if bool_decide (ConnId c ≠ 0%N)
      then (mkConnection None 0%N, UnsubscribeImpl b (ConnId c) w)
      else (c, w)
  | None => (c, w)
  end.

(** The destructor: the world after [Disconnect]. *)
Definition destroy (c : TScopedConnection) (w : World) : World :=
  snd (Disconnect c w).

(** Move assignment between two connection objects held in [conns]:
    [this] and [other] are their positions, so [this = other] is
    [this == &other].  Positions refer to live objects. *)
Definition move_assign (this other : nat)
    (conns : list TScopedConnection) (w : World)
  : list TScopedConnection * World :=
  if bool_decide (this ≠ other) then
    match conns !! this, conns !! other with
    | Some c, Some o =>
        let '(_, w') := Disconnect c w in
        (<[other := mkConnection None 0%N]> (<[this := o]> conns), w')
    | _, _ => (conns, w)
    end
  else (conns, w).

(** The constructors: [TScopedConnection()], [TScopedConnection(system,
    id)], and the move constructor, which gives the new object and the
    state in which it leaves [other]. *)
Definition TScopedConnection_default : TScopedConnection :=
  mkConnection None 0%N.

Definition TScopedConnection_new (system : BusRef) (id : THandlerId)
  : TScopedConnection :=
  mkConnection (Some system) id.

Definition move_construct (other : TScopedConnection)
  : TScopedConnection * TScopedConnection :=
  (mkConnection (SystemPtr other) (ConnId other), mkConnection None 0%N).

(** ** Observations on the log *)

(** Invocations of the slot whose flag is at [a]. *)
Definition is_hit (a : nat) (e : TraceEvent Payload) : bool :=
  match e with
  | Invoked flag _ _ _ _ _ _ => bool_decide (flag = a)
  | _ => false
  end.

Definition hits (a : nat) (t : list (TraceEvent Payload)) : nat :=
  length (List.filter (is_hit a) t).

(** Invocations of a one-shot slot whose flag is at [a]. *)
Definition is_oneshot_hit (a : nat) (e : TraceEvent Payload) : bool :=
  match e with
  | Invoked flag _ _ oneshot _ _ _ => oneshot && bool_decide (flag = a)
  | _ => false
  end.

Definition oneshot_hits (a : nat) (t : list (TraceEvent Payload)) : nat :=
  length (List.filter (is_oneshot_hit a) t).

(** Invocations of the slot at [a] through [InvokeSingle]. *)
Definition is_single_hit (a : nat) (e : TraceEvent Payload) : bool :=
  match e with
  | Invoked flag _ _ _ _ ViaInvokeSingle _ => bool_decide (flag = a)
  | _ => false
  end.

Definition single_hits (a : nat) (t : list (TraceEvent Payload)) : nat :=
  length (List.filter (is_single_hit a) t).

(** The identifiers that bus [b] issued, in order. *)
Definition issued_id (b : BusRef) (e : TraceEvent Payload) : option THandlerId :=
  match e with
  | Issued sys id => if bool_decide (sys = b) then Some id else None
  | _ => None
  end.

Definition issued_by (b : BusRef) (t : list (TraceEvent Payload)) : list THandlerId :=
  omap (issued_id b) t.

(** Calls of [Unsubscribe] with [id] on bus [b]. *)
Definition is_unsubscribe (b : BusRef) (id : THandlerId)
    (e : TraceEvent Payload) : bool :=
  match e with
  | Unsubscribed sys id' => bool_decide (sys = b) && bool_decide (id' = id)
  | _ => false
  end.

Definition unsubscribes (b : BusRef) (id : THandlerId)
    (t : list (TraceEvent Payload)) : nat :=
  length (List.filter (is_unsubscribe b id) t).

(** The callbacks that a delivery at stack depth [d] reached from its
    own loop, in order: priority and flag location of each. *)
Definition own_invocation (d : nat) (e : TraceEvent Payload)
  : option (EPriority * nat) :=
  match e with
  | Invoked flag _ prio _ _ ViaDispatch depth =>
      if bool_decide (depth = d) then Some (prio, flag) else None
  | _ => None
  end.

Definition own_invocations (d : nat) (t : list (TraceEvent Payload))
  : list (EPriority * nat) :=
  omap (own_invocation d) t.

(** Delivery order: higher priority first; within a priority, the slot
    that was subscribed first.  Flags are allocated in subscription
    order, so the earlier subscription has the smaller location. *)
Definition delivered_before (x y : EPriority * nat) : Prop :=
  (priority_int x.1 > priority_int y.1)%Z ∨ (x.1 = y.1 ∧ x.2 < y.2).

Definition slot_key (s : TSlot) : EPriority * nat := (Priority s, Active s).

Definition slot_before (s s' : TSlot) : Prop :=
  delivered_before (slot_key s) (slot_key s').

(** The slots of one priority class. *)
Definition in_class (p : EPriority) (s : TSlot) : bool :=
  bool_decide (Priority s = p).

(** ** Invariants and other notions used in the statements *)

Implicit Types (w : World) (flags : list bool) (d : TDispatcher)
  (slot s : TSlot) (sys : TEventSystem) (b : BusRef) (ty : EventType)
  (id : THandlerId) (a : nat) (ev : Payload)
  (exec : prog → World → Status * World).

(** The elementary transitions of the engine.  [P] is kept by: a write
    to the state of the closures; the registration of a handler; a call
    of [Unsubscribe]; the entry into a delivery (dispatcher found or
    created, frame pushed); the exit from it (frame popped); the
    invocation of a slot of the snapshot whose flag reads true (claimed
    first when it is one-shot); the invocation by [InvokeSingle] of the
    slot found under the identifier just issued; [Cleanup]. *)
Record stable_fine (P : World → Prop) : Prop := mkStableFine {
  sf_user : ∀ u w, P w → P (set_user u w);
  sf_register : ∀ b ty pr h os w,
    P w → P (SubscribeImpl_register b ty pr h os w).2;
  sf_unsubscribe : ∀ b id w,
    P w → P (log (Unsubscribed b id) (UnsubscribeImpl b id w));
  sf_enter : ∀ b ty ev w,
    P w → P (PushFrame (mkFrame b ty ev)
               (set_bus b (GetDispatcher ty (bus w b)).2 w));
  sf_leave : ∀ w, P w → P (PopFrame w);
  sf_invoke_dispatch : ∀ slot ev w,
    P w → load (Flags w) (Active slot) = true →
    let w1 := if IsOneShot slot then claim slot w else w in
    P (log (invoked slot ev ViaDispatch w1) w1);
  sf_invoke_single : ∀ b ty pr h os w fr slot,
    P w →
    let w1 := (SubscribeImpl_register b ty pr h os w).2 in
    current_frame b ty (DispatchStack w) = Some fr →
    find_if (NextId (bus w b)) (Slots (dispatcher_of w1 b ty)) = Some slot →
    load (Flags w1) (Active slot) = true →
    let w2 := if IsOneShot slot then claim slot w1 else w1 in
    P (log (invoked slot (Event fr) ViaInvokeSingle w2) w2);
  sf_cleanup : ∀ b ty w, P w → P (Cleanup b ty w)
}.

(** The same, for predicates that do not depend on how a callback was
    reached. *)
Record stable (P : World → Prop) : Prop := mkStable {
  st_user : ∀ u w, P w → P (set_user u w);
  st_register : ∀ b ty pr h os w,
    P w → P (SubscribeImpl_register b ty pr h os w).2;
  st_unsubscribe : ∀ b id w,
    P w → P (log (Unsubscribed b id) (UnsubscribeImpl b id w));
  st_enter : ∀ b ty ev w,
    P w → P (PushFrame (mkFrame b ty ev)
               (set_bus b (GetDispatcher ty (bus w b)).2 w));
  st_leave : ∀ w, P w → P (PopFrame w);
  st_invoke : ∀ slot ev via w,
    P w → load (Flags w) (Active slot) = true →
    let w1 := if IsOneShot slot then claim slot w else w in
    P (log (invoked slot ev via w1) w1);
  st_cleanup : ∀ b ty w, P w → P (Cleanup b ty w)
}.

Definition keeps (P : World → Prop) exec : Prop :=
  ∀ p w, P w → P (exec p w).2.

(** A one-shot slot that was invoked is inactive, for good. *)
Definition oneshot_inv w : Prop :=
  ∀ a, oneshot_hits a (Trace w) ≤ 1 ∧
       (oneshot_hits a (Trace w) = 1 →
        load (Flags w) a = false ∧ a < length (Flags w)).

Definition prio_ge s s' : Prop :=
  (priority_int (Priority s') ≤ priority_int (Priority s))%Z.

Definition new_slot b ty (pr : EPriority) (h : Callback) (os : bool) w
  : TSlot :=
  mkSlot (NextId (bus w b)) pr h os (length (Flags w)).

(** Every list of every dispatcher is in delivery order and its flags
    are allocated. *)
Definition slots_inv w : Prop :=
  ∀ b ty,
    Forall (fun s => Active s < length (Flags w)) (Slots (dispatcher_of w b ty)) ∧
    StronglySorted slot_before (Slots (dispatcher_of w b ty)).

(** An entry made at a stack depth beyond [n], or at depth [n] through
    [InvokeSingle]. *)
Definition deeper (n : nat) (e : TraceEvent Payload) : Prop :=
  match e with
  | Invoked _ _ _ _ _ via depth => n < depth ∨ (depth = n ∧ via = ViaInvokeSingle)
  | _ => True
  end.

Definition at_least (n : nat) (e : TraceEvent Payload) : Prop :=
  match e with
  | Invoked _ _ _ _ _ _ depth => n ≤ depth
  | _ => True
  end.

(** What an execution from [w] with outcome [r] may do: it extends the
    log by entries that are [deeper] than the stack of [w], and unless
    it ran out of fuel it leaves the stack as it found it. *)
Definition scoped_run w (r : Status * World) : Prop :=
  (∃ suf, Trace r.2 = Trace w ++ suf ∧
          Forall (deeper (length (DispatchStack w))) suf) ∧
  (r.1 ≠ OutOfFuel → DispatchStack r.2 = DispatchStack w).

Definition scoped exec : Prop := ∀ p w, scoped_run w (exec p w).

(** The flag at [a] is allocated and false, and the slot there has been
    invoked [n] times. *)
Definition dead (a n : nat) w : Prop :=
  a < length (Flags w) ∧ load (Flags w) a = false ∧ hits a (Trace w) = n.

(** The identifiers a bus has issued are 1, 2, 3, ... and [NextId] is
    the next one, all modulo the width of [std::size_t]. *)
Definition ids_inv w : Prop :=
  ∀ b, let n := length (issued_by b (Trace w)) in
    NextId (bus w b) = ((1 + N.of_nat n) mod SIZE_MOD)%N ∧
    ((N.of_nat n < SIZE_MOD)%N →
     issued_by b (Trace w) = map N.of_nat (seq 1 n)).

(** Until [Unsubscribe] is called with [id] on bus [b], the entry for
    [id] stays in [HandlerTypes]: deliveries and cleanup do not touch
    it. *)
Definition mapped b id ty (c : nat) w : Prop :=
  c ≤ unsubscribes b id (Trace w) ∧
  (unsubscribes b id (Trace w) = c → HandlerTypes (bus w b) !! id = Some ty).

(** Every logged invocation is of an allocated flag. *)
Definition log_inv w : Prop :=
  Forall (fun e => match e with
                   | Invoked a _ _ _ _ _ _ => a < length (Flags w)
                   | _ => True
                   end) (Trace w).

(** While a bus has not used up the identifiers, [NextId] is beyond
    every identifier it has in use. *)
Definition fresh_inv w : Prop :=
  ∀ b, let n := N.of_nat (length (issued_by b (Trace w))) in
    (n + 1 < SIZE_MOD)%N →
    NextId (bus w b) = (1 + n)%N ∧
    (∀ ty s, s ∈ Slots (dispatcher_of w b ty) → (Id s < NextId (bus w b))%N) ∧
    (∀ id ty, HandlerTypes (bus w b) !! id = Some ty → (id < NextId (bus w b))%N).

(** The worlds the engine reaches from the start of the process. *)
Definition wf w : Prop := slots_inv w ∧ log_inv w ∧ fresh_inv w.

(** The slot whose flag is [a] belongs to bus [b] under identifier
    [id], and while [b] has not used up the identifiers it has been
    reached through [InvokeSingle] exactly once. *)
Definition single_inv (a : nat) b id w : Prop :=
  a < length (Flags w) ∧
  (∀ b' ty' s, s ∈ Slots (dispatcher_of w b' ty') → Active s = a →
               b' = b ∧ Id s = id) ∧
  let n := N.of_nat (length (issued_by b (Trace w))) in
  ((n + 1 < SIZE_MOD)%N →
   NextId (bus w b) = (1 + n)%N ∧ (id < NextId (bus w b))%N ∧
   single_hits a (Trace w) = 1).

(** One-shot callbacks that a delivery at depth [d] reached from its own
    loop. *)
Definition is_own_oneshot (d : nat) (e : TraceEvent Payload) : bool :=
  match e with
  | Invoked _ _ _ oneshot _ ViaDispatch depth => oneshot && bool_decide (depth = d)
  | _ => false
  end.

Definition alloc (n : nat) w : Prop := n ≤ length (Flags w).

(** The transitions of the earlier revision: those of [stable], and the
    two that only [Dispatcher::dispatch] and [invokeSingle] make, the
    invocation of a slot whose flag stays set while its callback runs
    and the store of false to the flag of a slot afterwards. *)
Record stable_legacy (P : World → Prop) : Prop := mkStableLegacy {
  sl_stable : stable P;
  sl_invoke : ∀ slot ev via w,
    P w → load (Flags w) (Active slot) = true →
    P (log (invoked slot ev via w) w);
  sl_claim : ∀ slot w, P w → P (claim slot w)
}.

(** Every identifier in use on a bus, as a key of [HandlerTypes] or in
    a slot, was issued by that bus. *)
Definition keys_inv w : Prop :=
  ∀ b,
    (∀ id ty, HandlerTypes (bus w b) !! id = Some ty →
              id ∈ issued_by b (Trace w)) ∧
    (∀ ty s, s ∈ Slots (dispatcher_of w b ty) → Id s ∈ issued_by b (Trace w)).

(** Every flag of a slot list is allocated, no two slots of a list share
    a flag, and no flag occurs in the lists of two dispatchers. *)
Definition owned w : Prop :=
  ∀ b ty,
    Forall (fun s => Active s < length (Flags w)) (Slots (dispatcher_of w b ty)) ∧
    NoDup (map Active (Slots (dispatcher_of w b ty))) ∧
    (∀ b' ty' s s',
       s ∈ Slots (dispatcher_of w b ty) → s' ∈ Slots (dispatcher_of w b' ty') →
       Active s = Active s' → b' = b ∧ ty' = ty).

(** The slot lists have grown from the lists [L] only by slots whose
    flags are at [n] or beyond. *)
Definition grown (L : BusRef → EventType → list TSlot) (n : nat) w : Prop :=
  ∀ b ty s, s ∈ Slots (dispatcher_of w b ty) → s ∈ L b ty ∨ n ≤ Active s.

(** No slot list holds an inactive slot. *)
Definition clean w : Prop :=
  ∀ b ty s, s ∈ Slots (dispatcher_of w b ty) → load (Flags w) (Active s) = true.

(** What an execution from [w] with outcome [r] leaves behind: unless it
    ran out of fuel, every inactive slot still in a list was in that
    list and inactive before. *)
Definition settles w (r : Status * World) : Prop :=
  r.1 ≠ OutOfFuel →
  ∀ b ty s, s ∈ Slots (dispatcher_of r.2 b ty) →
            load (Flags r.2) (Active s) = false →
            s ∈ Slots (dispatcher_of w b ty) ∧ load (Flags w) (Active s) = false.

(** A callback that only reads and writes the state captured by its
    closure: it does not throw and makes no call on a bus. *)
Inductive quiet : prog → Prop :=
| quiet_Ret : quiet Ret
| quiet_GetState k : (∀ u, quiet (k u)) → quiet (GetState k)
| quiet_SetState u k : quiet k → quiet (SetState u k).

(** The captured state after such a callback, started in state [u], and
    the number of steps it takes. *)
Fixpoint effect (q : prog) (u : U) : U :=
  match q with
  | GetState k => effect (k u) u
  | SetState u' k => effect k u'
  | _ => u
  end.

Fixpoint steps (q : prog) (u : U) : nat :=
  match q with
  | GetState k => S (steps (k u) u)
  | SetState u' k => S (steps k u')
  | _ => 1
  end.

(** A program all of whose handlers are quiet. *)
Inductive calm : prog → Prop :=
| calm_Ret : calm Ret
| calm_Throw : calm Throw
| calm_GetState k : (∀ u, calm (k u)) → calm (GetState k)
| calm_SetState u k : calm k → calm (SetState u k)
| calm_TryCatch body k : calm body → (∀ c, calm (k c)) → calm (TryCatch body k)
| calm_CallSubscribe b ty pr os h k :
    (∀ ev, quiet (h ev)) → (∀ id, calm (k id)) →
    calm (CallSubscribe b ty pr os h k)
| calm_CallUnsubscribe b id k : calm k → calm (CallUnsubscribe b id k)
| calm_CallDispatch b ty ev k : calm k → calm (CallDispatch b ty ev k)
| calm_CallGetHandlerCount b ty k :
    (∀ n, calm (k n)) → calm (CallGetHandlerCount b ty k).

(** Every registered callback is quiet. *)
Definition quiet_world w : Prop :=
  ∀ b ty s ev, s ∈ Slots (dispatcher_of w b ty) → quiet (CallbackV s ev).

(** The log entry of an invocation from the loop of a delivery that
    runs at stack depth [depth]. *)
Definition delivery_entry (ev : Payload) (depth : nat) s : TraceEvent Payload :=
  Invoked (Active s) (Id s) (Priority s) (IsOneShot s) ev ViaDispatch depth.

(** The world after the loop of a delivery has claimed (if one-shot) and
    invoked the active slot [s] with a quiet callback, and after it has
    done so for the slots of [l] in order. *)
Definition after_callback (ev : Payload) w s : World :=
  let w1 := if IsOneShot s then claim s w else w in
  set_user (effect (CallbackV s ev) (UserState w))
           (log (invoked s ev ViaDispatch w1) w1).

Definition delivered (ev : Payload) (l : list TSlot) w : World :=
  fold_left (after_callback ev) l w.

End EventSystem.

Arguments prog : clear implicits.
Arguments Callback : clear implicits.
Arguments TSlot : clear implicits.
Arguments TDispatcher : clear implicits.
Arguments TEventSystem : clear implicits.
Arguments TDispatchFrame : clear implicits.
Arguments World : clear implicits.

(** * Scenarios

    Closed programs over [nat] payloads and a [nat] captured by the
    closures, run from the start of the process. *)

Definition start : World nat nat := initial 0.

(** A one-shot handler that publishes its own event type once more from
    inside its callback (when the payload is 0). *)
Definition reentrant_oneshot : prog nat nat :=
  CallSubscribe 0 7 Normal true
    (fun e => if Nat.eqb e 0 then CallDispatch 0 7 1 Ret else Ret)
    (fun _ => CallDispatch 0 7 0 Ret).

(** A one-shot handler; run with fuel 3, the execution stops inside its
    callback. *)
Definition oneshot_observer : prog nat nat :=
  CallSubscribe 0 7 Normal true (fun _ => GetState (fun _ => Ret))
    (fun _ => CallDispatch 0 7 0 Ret).

(** A one-shot handler of priority Normal that throws and a permanent
    handler of priority Low; two deliveries.  The captured state ends
    as 10 * (first delivery threw) + (second delivery threw). *)
Definition throwing_oneshot : prog nat nat :=
  CallSubscribe 0 7 Normal true (fun _ => Throw) (fun _ =>
  CallSubscribe 0 7 Low false (fun _ => Ret) (fun _ =>
  TryCatch (CallDispatch 0 7 0 Ret) (fun threw1 =>
  TryCatch (CallDispatch 0 7 0 Ret) (fun threw2 =>
  SetState ((if threw1 then 10 else 0) + (if threw2 then 1 else 0)) Ret)))).

(** Six handlers subscribed in the order L1, H1, N1, H2, L2, N2. *)
Definition six_handlers (k : prog nat nat) : prog nat nat :=
  CallSubscribe 0 7 Low false (fun _ => Ret) (fun _ =>
  CallSubscribe 0 7 High false (fun _ => Ret) (fun _ =>
  CallSubscribe 0 7 Normal false (fun _ => Ret) (fun _ =>
  CallSubscribe 0 7 High false (fun _ => Ret) (fun _ =>
  CallSubscribe 0 7 Low false (fun _ => Ret) (fun _ =>
  CallSubscribe 0 7 Normal false (fun _ => Ret) (fun _ => k)))))).

Definition six_subscribed : World nat nat := (run 7 (six_handlers Ret) start).2.

(** A Low handler (identifier 1), then a High handler (identifier 2)
    that unsubscribes the first; run with fuel 4, the execution stops
    inside the callback of the High handler, before the call. *)
Definition unsubscribe_other : prog nat nat :=
  CallSubscribe 0 7 Low false (fun _ => Ret) (fun id2 =>
  CallSubscribe 0 7 High false
    (fun _ => GetState (fun _ => CallUnsubscribe 0 id2 Ret))
    (fun _ => CallDispatch 0 7 0 Ret)).

Definition in_high_handler : World nat nat := (run 4 unsubscribe_other start).2.

(** The same subscription on two buses. *)
Definition two_buses : prog nat nat :=
  CallSubscribe 0 7 Normal false (fun _ => Ret) (fun _ =>
  CallSubscribe 1 7 Normal false (fun _ => Ret) (fun _ => Ret)).

(** One one-shot subscription, at rest. *)
Definition oneshot_subscribed : World nat nat :=
  (run 2 (CallSubscribe 0 7 Normal true (fun _ => Ret) (fun _ => Ret)) start).2.

(** A Low handler whose callback subscribes a High handler to the same
    event type; then one publish. *)
Definition low_subscribes_high : prog nat nat :=
  CallSubscribe 0 7 Low false
    (fun _ => CallSubscribe 0 7 High false (fun _ => Ret) (fun _ => Ret))
    (fun _ => CallDispatch 0 7 0 Ret).

(** A handler whose callback subscribes another handler to the same
    event type, and the round trip with it: subscribe, then unsubscribe
    by the identifier returned. *)
Definition subscribes_another : Callback nat nat :=
  fun _ => CallSubscribe 0 7 Low false (fun _ => Ret) (fun _ => Ret).

Definition roundtrip : prog nat nat :=
  CallSubscribe 0 7 Normal false subscribes_another
    (fun id => CallUnsubscribe 0 id Ret).

(** * Properties *)

Section Properties.

Context {U Payload : Type}.

Abbreviation prog := (prog U Payload).
Abbreviation TSlot := (TSlot U Payload).
Abbreviation TDispatcher := (TDispatcher U Payload).
Abbreviation TEventSystem := (TEventSystem U Payload).
Abbreviation World := (World U Payload).
Abbreviation Exec := (prog → World → Status * World).
Abbreviation stable := (@stable U Payload).
Abbreviation stable_fine := (@stable_fine U Payload).
Abbreviation stable_legacy := (@stable_legacy U Payload).
Abbreviation owned := (@owned U Payload).
Abbreviation keys_inv := (@keys_inv U Payload).
Abbreviation clean := (@clean U Payload).
Abbreviation quiet_world := (@quiet_world U Payload).
Abbreviation keeps := (@keeps U Payload).
Abbreviation oneshot_inv := (@oneshot_inv U Payload).
Abbreviation slots_inv := (@slots_inv U Payload).
Abbreviation log_inv := (@log_inv U Payload).
Abbreviation fresh_inv := (@fresh_inv U Payload).
Abbreviation wf := (@wf U Payload).
Abbreviation ids_inv := (@ids_inv U Payload).
Abbreviation mapped := (@mapped U Payload).
Abbreviation dead := (@dead U Payload).
Abbreviation alloc := (@alloc U Payload).
Abbreviation single_inv := (@single_inv U Payload).
Abbreviation scoped := (@scoped U Payload).
Abbreviation scoped_run := (@scoped_run U Payload).
Abbreviation new_slot := (@new_slot U Payload).

Implicit Types (w : World) (flags : list bool) (d : TDispatcher)
  (slot s : TSlot) (sys : TEventSystem) (b : BusRef) (ty : EventType)
  (id : THandlerId) (a : nat) (p : prog) (ev : Payload) (exec : Exec)
  (P : World → Prop) (e : TraceEvent Payload)
  (suf t : list (TraceEvent Payload)).

(** ** The store of flags *)

Lemma load_true_lt flags a : load flags a = true → a < length flags.
Proof.
  unfold load. destruct (flags !! a) eqn:E; [|done].
  intros _. by eapply lookup_lt_Some.
Qed.

Lemma load_store_same flags a : load (store_false flags a) a = false.
Proof.
  unfold load, store_false.
  destruct (decide (a < length flags)) as [Hlt|Hge].
  - by rewrite list_lookup_insert_eq.
  - rewrite list_insert_ge by lia. rewrite lookup_ge_None_2 by lia. done.
Qed.

Lemma load_store_other flags a a' :
  a ≠ a' → load (store_false flags a) a' = load flags a'.
Proof. intros. unfold load, store_false. by rewrite list_lookup_insert_ne. Qed.

Lemma load_store_false flags a a' :
  load flags a' = false → load (store_false flags a) a' = false.
Proof.
  intros. destruct (decide (a = a')) as [->|].
  - apply load_store_same.
  - by rewrite load_store_other.
Qed.

Lemma length_store flags a : length (store_false flags a) = length flags.
Proof. apply length_insert. Qed.

Lemma load_alloc flags a : a < length flags → load (flags ++ [true]) a = load flags a.
Proof. intros. unfold load. by rewrite lookup_app_l. Qed.

Lemma load_alloc_false flags a :
  a < length flags → load flags a = false → load (flags ++ [true]) a = false.
Proof. intros. by rewrite load_alloc. Qed.

(** ** What each operation does to the flags and to the log *)

Lemma Remove_flags id flags d :
  (Remove id flags d).2 = flags ∨
  ∃ s, find_if id (Slots d) = Some s ∧ (Remove id flags d).2 = store_false flags (Active s).
Proof. unfold Remove. destruct (find_if id (Slots d)); eauto. Qed.

Lemma UnsubscribeImpl_Trace b id w : Trace (UnsubscribeImpl b id w) = Trace w.
Proof.
  unfold UnsubscribeImpl. destruct (_ !! id); [|done]. simpl.
  destruct (_ !! _); [|done]. by destruct (Remove _ _ _) as [[??]?].
Qed.

Lemma UnsubscribeImpl_DispatchStack b id w :
  DispatchStack (UnsubscribeImpl b id w) = DispatchStack w.
Proof.
  unfold UnsubscribeImpl. destruct (_ !! id); [|done]. simpl.
  destruct (_ !! _); [|done]. by destruct (Remove _ _ _) as [[??]?].
Qed.

Lemma UnsubscribeImpl_Flags b id w :
  Flags (UnsubscribeImpl b id w) = Flags w ∨
  ∃ a, Flags (UnsubscribeImpl b id w) = store_false (Flags w) a.
Proof.
  unfold UnsubscribeImpl. destruct (_ !! id); [|by left]. simpl.
  destruct (_ !! _) as [d|]; [|by left].
  pose proof (Remove_flags id (Flags w) d) as H.
  destruct (Remove _ _ _) as [[??] fl]. simpl in *.
  destruct H as [->|(s & _ & ->)]; eauto.
Qed.

Lemma UnsubscribeImpl_load_false b id w a :
  load (Flags w) a = false → load (Flags (UnsubscribeImpl b id w)) a = false.
Proof.
  intros H. destruct (UnsubscribeImpl_Flags b id w) as [->|[a' ->]]; [done|].
  by apply load_store_false.
Qed.

Lemma UnsubscribeImpl_length b id w :
  length (Flags (UnsubscribeImpl b id w)) = length (Flags w).
Proof.
  destruct (UnsubscribeImpl_Flags b id w) as [->|[a' ->]]; [done|].
  apply length_store.
Qed.

Lemma register_Flags b ty pr h os w :
  Flags (SubscribeImpl_register b ty pr h os w).2 = Flags w ++ [true].
Proof.
  unfold SubscribeImpl_register, fetch_add. by destruct (GetDispatcher _ _).
Qed.

Lemma register_Trace b ty pr h os w :
  Trace (SubscribeImpl_register b ty pr h os w).2
  = Trace w ++ [Issued b (NextId (bus w b))].
Proof.
  unfold SubscribeImpl_register, fetch_add. by destruct (GetDispatcher _ _).
Qed.

Lemma register_DispatchStack b ty pr h os w :
  DispatchStack (SubscribeImpl_register b ty pr h os w).2 = DispatchStack w.
Proof.
  unfold SubscribeImpl_register, fetch_add. by destruct (GetDispatcher _ _).
Qed.

Lemma register_id b ty pr h os w :
  (SubscribeImpl_register b ty pr h os w).1 = NextId (bus w b).
Proof.
  unfold SubscribeImpl_register, fetch_add. by destruct (GetDispatcher _ _).
Qed.

(** ** Invariants of the interpreter

    Every change of the world made by the engine is one of a few
    elementary transitions.  A predicate kept by each of them is kept
    by every execution.  A callback is invoked either from the loop of
    [Dispatch], on a slot of the snapshot whose flag reads true, or by
    [InvokeSingle], on the slot found under the identifier that
    [SubscribeImpl] has just issued. *)
Lemma stable_is_fine P : stable P → stable_fine P.
Proof.
  intros [H1 H2 H3 H4 H5 H6 H7]. split; try done.
  - intros slot ev w Hw Hl. by apply H6.
  - intros b ty pr h os w fr slot Hw w1 _ _ Hl. apply H6; [|done]. by apply H2.
Qed.

Lemma current_frame_Some b ty (stack : list (TDispatchFrame Payload)) fr :
  current_frame b ty stack = Some fr → System fr = b ∧ EventTypeIndex fr = ty.
Proof.
  intros H. apply List.find_some in H as [_ H]. unfold frame_matches in H.
  apply andb_true_iff in H as [H1 H2].
  by apply bool_decide_eq_true in H1, H2.
Qed.

Lemma Dispatch_loop_keeps_fine P exec ev snapshot nc w :
  stable_fine P → keeps P exec → P w →
  P (Dispatch_loop exec ev snapshot nc w).2.
Proof.
  intros HP Hexec. revert nc w.
  induction snapshot as [|slot rest IH]; intros nc w Hw; simpl; [done|].
  pose proof (sf_invoke_dispatch P HP slot ev w Hw) as Hinv.
  destruct (IsOneShot slot).
  - destruct (load (Flags w) (Active slot)) eqn:Hl; [|by apply IH].
    specialize (Hinv eq_refl). simpl in Hinv.
    apply (Hexec (CallbackV slot ev)) in Hinv.
    destruct (exec _ _) as [[] w2]; simpl in *; [by apply IH|done|done].
  - destruct (load (Flags w) (Active slot)) eqn:Hl; simpl; [|by apply IH].
    specialize (Hinv eq_refl). simpl in Hinv.
    apply (Hexec (CallbackV slot ev)) in Hinv.
    destruct (exec _ _) as [[] w2]; simpl in *; [by apply IH|done|done].
Qed.

Lemma Dispatch_keeps_fine P exec b ty ev w :
  stable_fine P → keeps P exec → P w → P (Dispatch exec b ty ev w).2.
Proof.
  intros HP Hexec Hw. unfold Dispatch.
  pose proof (Dispatch_loop_keeps_fine P exec ev
                (Slots (dispatcher_of w b ty)) false w HP Hexec Hw) as H.
  destruct (Dispatch_loop _ _ _ _ _) as [[[] nc] w']; simpl in *;
    try done; destruct nc; try done; by apply sf_cleanup.
Qed.

Lemma TEventSystem_Dispatch_keeps_fine P exec b ty ev w :
  stable_fine P → keeps P exec → P w →
  P (TEventSystem_Dispatch (Dispatch exec) b ty ev w).2.
Proof.
  intros HP Hexec Hw. unfold TEventSystem_Dispatch.
  pose proof (sf_enter P HP b ty ev w Hw) as H1.
  apply (Dispatch_keeps_fine P exec b ty ev) in H1; [|done..].
  destruct (Dispatch _ _ _ _ _) as [[] w2]; simpl in *; try done;
    by apply sf_leave.
Qed.

Lemma step_keeps_fine P exec p w :
  stable_fine P → keeps P exec → P w →
  P (step (Dispatch exec) (InvokeSingle exec) exec p w).2.
Proof.
  intros HP Hexec Hw.
  destruct p as [| |k|u k|body k|b ty pr os h k|b id k|b ty ev k|b ty k];
    simpl; try done.
  - by apply Hexec.
  - by apply Hexec, sf_user.
  - pose proof (Hexec body w Hw) as H1.
    destruct (exec body w) as [[] w1]; simpl in *; try done; by apply Hexec.
  - pose proof (sf_register P HP b ty pr h os w Hw) as H1.
    pose proof (sf_invoke_single P HP b ty pr h os w) as H2.
    pose proof (register_id b ty pr h os w) as Hid.
    pose proof (register_DispatchStack b ty pr h os w) as Hst.
    destruct (SubscribeImpl_register _ _ _ _ _ _) as [id w1].
    cbn [fst snd] in *. subst id.
    unfold NotifyCurrentDispatch. rewrite Hst.
    destruct (current_frame _ _ _) as [fr|] eqn:Hfr; [|by apply Hexec].
    destruct (current_frame_Some _ _ _ _ Hfr) as [-> ->].
    specialize (H2 fr). unfold InvokeSingle.
    destruct (find_if _ _) as [slot|]; [|by apply Hexec].
    specialize (H2 slot Hw eq_refl eq_refl). cbv zeta in H2.
    destruct (IsOneShot slot).
    + destruct (load (Flags w1) (Active slot)); [|by apply Hexec].
      specialize (H2 eq_refl).
      apply (Hexec (CallbackV slot (Event fr))) in H2.
      destruct (exec _ _) as [[] w2]; cbn [fst snd] in *; try done.
      * by apply Hexec, sf_cleanup.
      * by apply sf_cleanup.
    + destruct (load (Flags w1) (Active slot)); simpl; [|by apply Hexec].
      specialize (H2 eq_refl).
      apply (Hexec (CallbackV slot (Event fr))) in H2.
      destruct (exec _ _) as [[] w2]; cbn [fst snd] in *; try done.
      by apply Hexec.
  - by apply Hexec, sf_unsubscribe.
  - pose proof (TEventSystem_Dispatch_keeps_fine P exec b ty ev w HP Hexec Hw)
      as H1.
    destruct (TEventSystem_Dispatch _ _ _ _ _) as [[] w1]; simpl in *; try done.
    by apply Hexec.
  - by apply Hexec.
Qed.

Lemma run_keeps_fine P fuel : stable_fine P → keeps P (run fuel).
Proof.
  intros HP. induction fuel as [|fuel IH]; intros p w Hw; simpl; [done|].
  by apply step_keeps_fine.
Qed.

Lemma Dispatch_loop_keeps P exec ev snapshot nc w :
  stable P → keeps P exec → P w →
  P (Dispatch_loop exec ev snapshot nc w).2.
Proof. intros HP. by apply Dispatch_loop_keeps_fine, stable_is_fine. Qed.

Lemma run_keeps P fuel : stable P → keeps P (run fuel).
Proof. intros HP. by apply run_keeps_fine, stable_is_fine. Qed.

(** ** One-shot slots fire at most once (current revision) *)

Lemma filter_length_app {A} (f : A → bool) (l : list A) x :
  length (List.filter f (l ++ [x]))
  = length (List.filter f l) + (if f x then 1 else 0).
Proof.
  rewrite List.filter_app, length_app. simpl. by destruct (f x).
Qed.

Lemma oneshot_inv_stable : stable oneshot_inv.
Proof.
  split.
  - done.
  - intros b ty pr h os w Hw a. destruct (Hw a) as [H1 H2].
    rewrite register_Flags, register_Trace. unfold oneshot_hits in *.
    rewrite filter_length_app. simpl. rewrite Nat.add_0_r. split; [done|].
    intros H. destruct (H2 H) as [Hf Hlt]. rewrite length_app. simpl.
    split; [by apply load_alloc_false | lia].
  - intros b id w Hw a. destruct (Hw a) as [H1 H2]. simpl.
    rewrite UnsubscribeImpl_Trace. unfold oneshot_hits in *.
    rewrite filter_length_app. simpl. rewrite Nat.add_0_r. split; [done|].
    intros H. destruct (H2 H) as [Hf Hlt].
    rewrite UnsubscribeImpl_length. split; [|done].
    by apply UnsubscribeImpl_load_false.
  - done.
  - done.
  - intros slot ev via w Hw Hload. cbv zeta. intros a.
    destruct (Hw a) as [H1 H2].
    pose proof (load_true_lt _ _ Hload) as Hlt.
    unfold oneshot_hits in *. simpl.
    destruct (IsOneShot slot) eqn:Hos; simpl; rewrite filter_length_app; simpl;
      rewrite Hos; simpl.
    + destruct (decide (Active slot = a)) as [<-|Hne].
      * rewrite bool_decide_eq_true_2 by done.
        assert (length (List.filter (is_oneshot_hit (Active slot)) (Trace w)) = 0)
          as H0.
        { destruct (length _) as [|[|n]] eqn:E; [done| |lia].
          destruct (H2 eq_refl) as [Hf _]. congruence. }
        rewrite H0. split; [lia|]. intros _.
        rewrite load_store_same, length_store. done.
      * rewrite bool_decide_eq_false_2 by done. rewrite Nat.add_0_r.
        split; [done|]. intros H. destruct (H2 H) as [Hf Hl].
        rewrite length_store. split; [|done]. by apply load_store_false.
    + rewrite Nat.add_0_r. done.
  - done.
Qed.

(** X1.  The current revision ([TDispatcher::Dispatch],
    [InvokeSingle]) invokes the callback of a one-shot slot at most
    once: from a start with an empty log, whatever the handlers do
    (re-entrant deliveries from inside the callback included) and
    however the execution ends. *)
Lemma Dispatch_oneshot_at_most_once fuel p w a :
  Trace w = [] → oneshot_hits a (Trace (run fuel p w).2) ≤ 1.
Proof.
  intros Hnil.
  assert (oneshot_inv w) as Hw.
  { intros a'. rewrite Hnil. unfold oneshot_hits. simpl. split; [lia|lia]. }
  by destruct (run_keeps oneshot_inv fuel oneshot_inv_stable p w Hw a).
Qed.

(** ** [Remove] *)

Lemma find_if_Some id (l : list TSlot) s :
  find_if id l = Some s → s ∈ l ∧ Id s = id.
Proof.
  intros H. apply List.find_some in H as [Hin Hid].
  split; [by apply list_elem_of_In|]. by apply bool_decide_eq_true in Hid.
Qed.

Lemma find_if_None id (l : list TSlot) :
  find_if id l = None ↔ ∀ s, s ∈ l → Id s ≠ id.
Proof.
  split.
  - intros H s Hin Hid. apply list_elem_of_In in Hin.
    pose proof (List.find_none _ _ H s Hin) as Hf. simpl in Hf.
    by apply bool_decide_eq_false in Hf.
  - intros H. destruct (find_if id l) as [s|] eqn:E; [|done].
    apply find_if_Some in E as [Hin Hid]. by destruct (H s Hin).
Qed.

(** C6, as amended.  [Remove] returns false exactly when no slot of the
    list carries the identifier, and then changes nothing.  Otherwise it
    returns true, whether the slot found was active or not: the flag of
    that slot is false afterwards and the list keeps exactly its active
    slots. *)
Theorem Remove_found_iff id flags d :
  ((Remove id flags d).1.1 = false ↔ ∀ s, s ∈ Slots d → Id s ≠ id) ∧
  ((Remove id flags d).1.1 = false → Remove id flags d = (false, d, flags)) ∧
  ((Remove id flags d).1.1 = true →
     ∃ slot, slot ∈ Slots d ∧ Id slot = id ∧
       (Remove id flags d).2 = store_false flags (Active slot) ∧
       load (Remove id flags d).2 (Active slot) = false ∧
       Slots (Remove id flags d).1.2
       = List.filter (fun s => load (Remove id flags d).2 (Active s)) (Slots d)).
Proof.
  unfold Remove. destruct (find_if id (Slots d)) as [slot|] eqn:E; simpl.
  - apply find_if_Some in E as [Hin Hid]. split; [|split].
    + split; [done|]. intros H. by destruct (H slot Hin).
    + done.
    + intros _. exists slot. by rewrite load_store_same.
  - split; [|split]; [|done|done].
    split; [|done]. intros _. by apply find_if_None.
Qed.

(** ** Bus state: reading after writing *)

Lemma bus_set_bus_eq b sys w : bus (set_bus b sys w) b = sys.
Proof. unfold bus, set_bus. simpl. by rewrite lookup_insert_eq. Qed.

Lemma bus_set_bus_ne b b' sys w : b ≠ b' → bus (set_bus b sys w) b' = bus w b'.
Proof. intros. unfold bus, set_bus. simpl. by rewrite lookup_insert_ne. Qed.

Lemma bus_set_flags flags w b : bus (set_flags flags w) b = bus w b.
Proof. done. Qed.

Lemma bus_log e w b : bus (log e w) b = bus w b.
Proof. done. Qed.

Lemma set_bus_set_bus b sys sys' w :
  set_bus b sys (set_bus b sys' w) = set_bus b sys w.
Proof. unfold set_bus. simpl. by rewrite insert_insert_eq. Qed.

Lemma set_flags_same w : set_flags (Flags w) w = w.
Proof. by destruct w. Qed.

(** ** [UnsubscribeImpl] *)

Lemma UnsubscribeImpl_unknown b id w :
  HandlerTypes (bus w b) !! id = None → UnsubscribeImpl b id w = w.
Proof. intros H. unfold UnsubscribeImpl. by rewrite H. Qed.

Lemma UnsubscribeImpl_erases b id w :
  HandlerTypes (bus (UnsubscribeImpl b id w) b) !! id = None.
Proof.
  unfold UnsubscribeImpl.
  destruct (HandlerTypes (bus w b) !! id) eqn:E; [|done]. simpl.
  destruct (Dispatchers (bus w b) !! e) as [d|].
  - destruct (Remove _ _ _) as [[? d'] fl].
    rewrite bus_set_flags, bus_set_bus_eq. simpl. apply lookup_delete_eq.
  - rewrite bus_set_bus_eq. simpl. apply lookup_delete_eq.
Qed.

(** A second [Unsubscribe] with the same identifier changes nothing. *)
Lemma UnsubscribeImpl_idempotent b id w :
  UnsubscribeImpl b id (UnsubscribeImpl b id w) = UnsubscribeImpl b id w.
Proof. apply UnsubscribeImpl_unknown, UnsubscribeImpl_erases. Qed.

(** When the slot is gone from the list, only the entry of
    [HandlerTypes] is erased. *)
Lemma UnsubscribeImpl_stale b id ty w :
  HandlerTypes (bus w b) !! id = Some ty →
  find_if id (Slots (dispatcher_of w b ty)) = None →
  UnsubscribeImpl b id w
  = set_bus b (mkSystem (Dispatchers (bus w b))
                        (delete id (HandlerTypes (bus w b)))
                        (NextId (bus w b))) w.
Proof.
  intros Hty Hfind. unfold UnsubscribeImpl. rewrite Hty. simpl.
  unfold dispatcher_of in Hfind.
  destruct (Dispatchers (bus w b) !! ty) as [d|] eqn:Hd; [|done].
  simpl in Hfind. unfold Remove. rewrite Hfind.
  rewrite set_bus_set_bus, insert_id by done.
  by destruct w.
Qed.

Lemma GetHandlerCount_set_bus b sys w b' ty :
  Dispatchers sys = Dispatchers (bus w b) →
  GetHandlerCount b' ty (set_bus b sys w) = GetHandlerCount b' ty w.
Proof.
  intros H. unfold GetHandlerCount.
  destruct (decide (b = b')) as [<-|Hne].
  - by rewrite bus_set_bus_eq, H.
  - by rewrite bus_set_bus_ne.
Qed.

(** ** The stable sort of [Subscribe] *)

Lemma prio_gt_spec s s' :
  prio_gt s s' = true ↔ (priority_int (Priority s) > priority_int (Priority s'))%Z.
Proof. unfold prio_gt. apply bool_decide_eq_true. Qed.

Lemma priority_int_inj (p q : EPriority) : priority_int p = priority_int q → p = q.
Proof. by destruct p, q. Qed.

Lemma stable_insert_elem x (l : list TSlot) s :
  s ∈ stable_insert x l ↔ s = x ∨ s ∈ l.
Proof.
  induction l as [|y ys IH]; simpl.
  - rewrite list_elem_of_singleton. split; [by left|].
    intros [?|H]; [done|]. by apply not_elem_of_nil in H.
  - destruct (prio_gt y x); rewrite !elem_of_cons; [rewrite IH|]; tauto.
Qed.

Lemma stable_sort_elem (l : list TSlot) s : s ∈ stable_sort l ↔ s ∈ l.
Proof.
  induction l as [|y ys IH]; simpl; [done|].
  rewrite stable_insert_elem, elem_of_cons, IH. done.
Qed.

Lemma stable_insert_prio_sorted x (l : list TSlot) :
  StronglySorted prio_ge l → StronglySorted prio_ge (stable_insert x l).
Proof.
  induction l as [|y ys IH]; simpl; intros Hs.
  - repeat constructor.
  - apply StronglySorted_inv in Hs as [Hys Hy].
    destruct (prio_gt y x) eqn:E.
    + apply prio_gt_spec in E. constructor; [by apply IH|].
      apply Forall_forall. intros s Hin. apply stable_insert_elem in Hin as [->|Hin].
      * unfold prio_ge. lia.
      * by eapply Forall_forall in Hy.
    + assert (¬ (priority_int (Priority y) > priority_int (Priority x))%Z) as Hn.
      { intros H. apply prio_gt_spec in H. congruence. }
      constructor; [by constructor|].
      constructor; [unfold prio_ge; lia|].
      eapply Forall_impl; [exact Hy|]. unfold prio_ge. intros; simpl in *; lia.
Qed.

Lemma stable_sort_prio_sorted (l : list TSlot) :
  StronglySorted prio_ge (stable_sort l).
Proof.
  induction l; simpl; [constructor|]. by apply stable_insert_prio_sorted.
Qed.

(** Stability: a priority class keeps its order. *)
Lemma stable_insert_class (p : EPriority) x (l : list TSlot) :
  List.filter (in_class p) (stable_insert x l)
  = List.filter (in_class p) (x :: l).
Proof.
  induction l as [|y ys IH]; simpl; [done|].
  destruct (prio_gt y x) eqn:E; [|done].
  apply prio_gt_spec in E. simpl. rewrite IH. simpl.
  unfold in_class.
  destruct (bool_decide (Priority x = p)) eqn:Hx;
    destruct (bool_decide (Priority y = p)) eqn:Hy; try done.
  apply bool_decide_eq_true in Hx, Hy. subst. rewrite <- Hy in E. lia.
Qed.

Lemma stable_sort_class (p : EPriority) (l : list TSlot) :
  List.filter (in_class p) (stable_sort l) = List.filter (in_class p) l.
Proof.
  induction l as [|y ys IH]; simpl; [done|].
  rewrite stable_insert_class. simpl. by rewrite IH.
Qed.

Lemma stable_sort_count (f : TSlot → bool) (l : list TSlot) :
  length (List.filter f (stable_sort l)) = length (List.filter f l).
Proof.
  assert (∀ x l', length (List.filter f (stable_insert x l'))
                  = length (List.filter f (x :: l'))) as Hins.
  { intros x l'. induction l' as [|y ys IH]; simpl; [done|].
    destruct (prio_gt y x); simpl; [|done].
    simpl in IH. destruct (f y), (f x); simpl in *; lia. }
  induction l as [|y ys IH]; simpl; [done|].
  rewrite Hins. simpl. destruct (f y); simpl; lia.
Qed.

Lemma elem_of_filter_bool (f : TSlot → bool) (l : list TSlot) s :
  s ∈ List.filter f l ↔ s ∈ l ∧ f s = true.
Proof. rewrite !list_elem_of_In. apply List.filter_In. Qed.

Lemma StronglySorted_filter_bool (R : TSlot → TSlot → Prop) f (l : list TSlot) :
  StronglySorted R l → StronglySorted R (List.filter f l).
Proof.
  induction 1 as [|x l Hl IH Hx]; simpl; [constructor|].
  destruct (f x); [|done]. constructor; [done|].
  apply Forall_forall. intros s Hin. apply elem_of_filter_bool in Hin as [Hin _].
  by eapply Forall_forall in Hx.
Qed.

(** Within one class, delivery order is the order of the flags. *)
Lemma class_sorted (p : EPriority) (l : list TSlot) :
  StronglySorted slot_before l →
  StronglySorted (fun s s' => Active s < Active s') (List.filter (in_class p) l).
Proof.
  induction 1 as [|x l Hl IH Hx]; simpl; [constructor|].
  destruct (in_class p x) eqn:Ex; [|done]. constructor; [done|].
  apply Forall_forall. intros s Hin. apply elem_of_filter_bool in Hin as [Hin Hs].
  eapply Forall_forall in Hx; [|done].
  apply bool_decide_eq_true in Ex, Hs.
  destruct Hx as [Hgt|[_ Hlt]]; simpl in *; [|done].
  rewrite Ex, Hs in Hgt. lia.
Qed.

(** Sorted by priority, and every class in flag order: delivery order. *)
Lemma sorted_from_classes (l : list TSlot) :
  StronglySorted prio_ge l →
  (∀ p : EPriority, StronglySorted (fun s s' => Active s < Active s')
          (List.filter (in_class p) l)) →
  StronglySorted slot_before l.
Proof.
  induction 1 as [|x l Hl IH Hx]; intros Hc; [constructor|].
  constructor.
  - apply IH. intros p. specialize (Hc p). simpl in Hc.
    destruct (in_class p x); [|done]. by apply StronglySorted_inv in Hc as [? _].
  - apply Forall_forall. intros s Hin.
    eapply Forall_forall in Hx; [|done]. unfold prio_ge in Hx.
    destruct (decide (Priority x = Priority s)) as [Heq|Hne].
    + right. split; [done|]. simpl.
      specialize (Hc (Priority x)). simpl in Hc. unfold in_class at 1 in Hc.
      rewrite bool_decide_eq_true_2 in Hc by done.
      apply StronglySorted_inv in Hc as [_ Hc].
      eapply Forall_forall in Hc; [done|].
      apply elem_of_filter_bool. split; [done|].
      by apply bool_decide_eq_true.
    + left. simpl.
      assert (priority_int (Priority x) ≠ priority_int (Priority s)) as Hn.
      { intros H. by apply priority_int_inj in H. }
      lia.
Qed.

(** [Subscribe] keeps the list in delivery order when the new slot has
    a flag beyond those of the slots already there. *)
Lemma Subscribe_sorted n x (l : list TSlot) :
  StronglySorted slot_before l →
  Forall (fun s => Active s < n) l → Active x = n →
  StronglySorted slot_before (stable_sort (l ++ [x])).
Proof.
  intros Hs Hlt Hx. apply sorted_from_classes.
  - apply stable_sort_prio_sorted.
  - intros p. rewrite stable_sort_class, List.filter_app.
    apply StronglySorted_app. split; [|split].
    + intros s s' Hin Hin'. apply elem_of_filter_bool in Hin as [Hin _].
      eapply Forall_forall in Hlt; [|done].
      simpl in Hin'. destruct (in_class p x); [|by apply not_elem_of_nil in Hin'].
      apply list_elem_of_singleton in Hin'. subst. lia.
    + by apply class_sorted.
    + simpl. destruct (in_class p x); repeat constructor.
Qed.

(** ** The dispatcher objects after each operation *)

Lemma dispatcher_of_set_bus b sys w b' ty :
  dispatcher_of (set_bus b sys w) b' ty
  = if decide (b = b') then default (mkDispatcher []) (Dispatchers sys !! ty)
    else dispatcher_of w b' ty.
Proof.
  unfold dispatcher_of. destruct (decide (b = b')) as [<-|Hne].
  - by rewrite bus_set_bus_eq.
  - by rewrite bus_set_bus_ne.
Qed.

Lemma GetDispatcher_default ty sys ty' :
  default (mkDispatcher []) (Dispatchers (GetDispatcher ty sys).2 !! ty')
  = default (mkDispatcher []) (Dispatchers sys !! ty').
Proof.
  unfold GetDispatcher. destruct (Dispatchers sys !! ty) eqn:E; [done|]. simpl.
  destruct (decide (ty = ty')) as [<-|Hne].
  - by rewrite lookup_insert_eq, E.
  - by rewrite lookup_insert_ne.
Qed.

Lemma GetDispatcher_is_Some ty sys :
  is_Some (Dispatchers (GetDispatcher ty sys).2 !! ty).
Proof.
  unfold GetDispatcher. destruct (Dispatchers sys !! ty) eqn:E; simpl.
  - by rewrite E.
  - by rewrite lookup_insert_eq.
Qed.

Lemma GetDispatcher_HandlerTypes ty sys :
  HandlerTypes (GetDispatcher ty sys).2 = HandlerTypes sys.
Proof. unfold GetDispatcher. by destruct (_ !! _). Qed.

Lemma GetDispatcher_NextId ty sys :
  NextId (GetDispatcher ty sys).2 = NextId sys.
Proof. unfold GetDispatcher. by destruct (_ !! _). Qed.

Lemma register_bus b ty pr h os w :
  bus (SubscribeImpl_register b ty pr h os w).2 b
  = emplace_handler_type (NextId (bus w b)) ty
      (with_dispatcher ty (Subscribe (new_slot b ty pr h os w))
         (GetDispatcher ty (fetch_add (bus w b)).2).2).
Proof.
  unfold SubscribeImpl_register, fetch_add, new_slot. simpl.
  destruct (GetDispatcher _ _) as [d0 sys2]. unfold bus at 1. simpl.
  by rewrite lookup_insert_eq.
Qed.

Lemma register_bus_ne b ty pr h os w b' :
  b ≠ b' → bus (SubscribeImpl_register b ty pr h os w).2 b' = bus w b'.
Proof.
  intros Hne. unfold SubscribeImpl_register, fetch_add. simpl.
  destruct (GetDispatcher _ _) as [d0 sys2]. unfold bus. simpl.
  by rewrite lookup_insert_ne.
Qed.

Lemma emplace_Dispatchers id ty sys :
  Dispatchers (emplace_handler_type id ty sys) = Dispatchers sys.
Proof. unfold emplace_handler_type. by destruct (_ !! _). Qed.

Lemma emplace_NextId id ty sys :
  NextId (emplace_handler_type id ty sys) = NextId sys.
Proof. unfold emplace_handler_type. by destruct (_ !! _). Qed.

Lemma register_dispatcher_of_eq b ty pr h os w :
  dispatcher_of (SubscribeImpl_register b ty pr h os w).2 b ty
  = Subscribe (new_slot b ty pr h os w) (dispatcher_of w b ty).
Proof.
  unfold dispatcher_of at 1. rewrite register_bus, emplace_Dispatchers.
  set (sys1 := (fetch_add (bus w b)).2).
  pose proof (GetDispatcher_default ty sys1 ty) as Hd.
  destruct (GetDispatcher_is_Some ty sys1) as [d Hs].
  unfold with_dispatcher. simpl. rewrite lookup_alter_eq, Hs.
  rewrite Hs in Hd. simpl in *. by rewrite Hd.
Qed.

Lemma register_dispatcher_of_ne b ty pr h os w b' ty' :
  ¬ (b' = b ∧ ty' = ty) →
  dispatcher_of (SubscribeImpl_register b ty pr h os w).2 b' ty'
  = dispatcher_of w b' ty'.
Proof.
  intros Hne. unfold dispatcher_of at 1.
  destruct (decide (b = b')) as [<-|Hb].
  - rewrite register_bus, emplace_Dispatchers.
    set (sys1 := (fetch_add (bus w b)).2).
    unfold with_dispatcher. simpl.
    rewrite lookup_alter_ne by (intros ->; by apply Hne).
    apply (GetDispatcher_default ty sys1 ty').
  - by rewrite register_bus_ne.
Qed.

Lemma Cleanup_dispatcher_of b ty w b' ty' :
  dispatcher_of (Cleanup b ty w) b' ty'
  = if decide (b' = b ∧ ty' = ty)
    then CleanupUnlocked (Flags w) (dispatcher_of w b ty)
    else dispatcher_of w b' ty'.
Proof.
  unfold Cleanup. rewrite dispatcher_of_set_bus. simpl.
  destruct (decide (b = b')) as [<-|Hb].
  - destruct (decide (ty = ty')) as [<-|Ht].
    + rewrite decide_True by done. rewrite lookup_alter_eq.
      unfold dispatcher_of. by destruct (_ !! _).
    + rewrite decide_False by (intros [_ ->]; done). by rewrite lookup_alter_ne.
  - by rewrite decide_False by (intros [-> _]; done).
Qed.

Lemma enter_dispatcher_of b ty w b' ty' :
  dispatcher_of (set_bus b (GetDispatcher ty (bus w b)).2 w) b' ty'
  = dispatcher_of w b' ty'.
Proof.
  rewrite dispatcher_of_set_bus. destruct (decide (b = b')) as [<-|]; [|done].
  apply GetDispatcher_default.
Qed.

(** After [UnsubscribeImpl] every list keeps its slots or keeps exactly
    those that are active. *)
Lemma UnsubscribeImpl_dispatcher_of b id w b' ty' :
  dispatcher_of (UnsubscribeImpl b id w) b' ty' = dispatcher_of w b' ty' ∨
  dispatcher_of (UnsubscribeImpl b id w) b' ty'
  = CleanupUnlocked (Flags (UnsubscribeImpl b id w)) (dispatcher_of w b' ty').
Proof.
  unfold UnsubscribeImpl.
  destruct (HandlerTypes (bus w b) !! id) as [ty|] eqn:E; [|by left]. simpl.
  destruct (Dispatchers (bus w b) !! ty) as [d|] eqn:Ed.
  - unfold Remove. destruct (find_if id (Slots d)) as [slot|] eqn:Ef; simpl.
    + rewrite set_bus_set_bus. unfold dispatcher_of at 1 3.
      rewrite bus_set_flags.
      destruct (decide (b = b')) as [<-|Hb].
      * rewrite bus_set_bus_eq. simpl.
        destruct (decide (ty = ty')) as [<-|Ht].
        -- rewrite lookup_insert_eq. right. unfold dispatcher_of.
           by rewrite Ed.
        -- rewrite lookup_insert_ne by done. by left.
      * rewrite bus_set_bus_ne by done. by left.
    + left. rewrite set_bus_set_bus, insert_id by done.
      unfold dispatcher_of. rewrite bus_set_flags.
      destruct (decide (b = b')) as [<-|Hb].
      * by rewrite bus_set_bus_eq.
      * by rewrite bus_set_bus_ne.
  - left. unfold dispatcher_of.
    destruct (decide (b = b')) as [<-|Hb].
    + by rewrite bus_set_bus_eq.
    + by rewrite bus_set_bus_ne.
Qed.

(** ** The slot lists stay in delivery order *)

Lemma Forall_filter_bool (P : TSlot → Prop) f (l : list TSlot) :
  Forall P l → Forall P (List.filter f l).
Proof.
  intros H. apply Forall_forall. intros s Hin.
  apply elem_of_filter_bool in Hin as [Hin _]. by eapply Forall_forall in H.
Qed.

Lemma slots_inv_filter w w' :
  length (Flags w') = length (Flags w) →
  (∀ b ty, dispatcher_of w' b ty = dispatcher_of w b ty ∨
           ∃ f, Slots (dispatcher_of w' b ty)
                = List.filter f (Slots (dispatcher_of w b ty))) →
  slots_inv w → slots_inv w'.
Proof.
  intros Hlen Hd Hw b ty. destruct (Hw b ty) as [H1 H2]. rewrite Hlen.
  destruct (Hd b ty) as [->|[f ->]]; [done|].
  split; [by apply Forall_filter_bool | by apply StronglySorted_filter_bool].
Qed.

Lemma slots_inv_stable : stable slots_inv.
Proof.
  split.
  - done.
  - intros b ty pr h os w Hw b' ty'. rewrite register_Flags, length_app. simpl.
    destruct (decide (b' = b ∧ ty' = ty)) as [[-> ->]|Hne].
    + rewrite register_dispatcher_of_eq. simpl.
      destruct (Hw b ty) as [H1 H2]. split.
      * apply Forall_forall. intros s Hin.
        apply stable_sort_elem, elem_of_app in Hin as [Hin|Hin].
        -- eapply Forall_forall in H1; [|done]. lia.
        -- apply list_elem_of_singleton in Hin. subst. simpl. lia.
      * by apply (Subscribe_sorted (length (Flags w))).
    + rewrite register_dispatcher_of_ne by done.
      destruct (Hw b' ty') as [H1 H2]. split; [|done].
      eapply Forall_impl; [done|]. intros; simpl in *; lia.
  - intros b id w Hw.
    apply (slots_inv_filter (UnsubscribeImpl b id w)).
    + done.
    + intros b' ty'. by left.
    + apply (slots_inv_filter w); [by rewrite UnsubscribeImpl_length| |done].
      intros b' ty'.
      destruct (UnsubscribeImpl_dispatcher_of b id w b' ty') as [->| ->];
        [by left|]. right. by eexists.
  - intros b ty ev w Hw. apply (slots_inv_filter w); [done| |done].
    intros b' ty'. left.
    apply (enter_dispatcher_of b ty w b' ty').
  - done.
  - intros slot ev via w Hw Hload. cbv zeta.
    apply (slots_inv_filter w); [|by left; destruct (IsOneShot slot)|done].
    destruct (IsOneShot slot); [|done]. simpl. apply length_store.
  - intros b ty w Hw. apply (slots_inv_filter w); [done| |done].
    intros b' ty'. rewrite Cleanup_dispatcher_of.
    destruct (decide _) as [[-> ->]|]; [|by left].
    right. by eexists.
Qed.

(** ** Deliveries are scoped: depth of the log entries, frame stack *)

Lemma deeper_own_None n e : deeper n e → own_invocation n e = None.
Proof.
  destruct e as [? ? ? ? ? [] depth| |]; simpl; try done.
  intros [H|[_ H]]; [|done]. rewrite bool_decide_eq_false_2; [done|lia].
Qed.

Lemma deeper_own_nil n suf : Forall (deeper n) suf → own_invocations n suf = [].
Proof.
  induction 1 as [|e suf He _ IH]; [done|].
  unfold own_invocations in *. simpl. by rewrite (deeper_own_None n e He).
Qed.

Lemma own_invocations_app n (t1 t2 : list (TraceEvent Payload)) :
  own_invocations n (t1 ++ t2) = own_invocations n t1 ++ own_invocations n t2.
Proof. apply omap_app. Qed.

Lemma at_least_S_deeper n e : at_least (S n) e → deeper n e.
Proof. destruct e; simpl; [|done..]. intros. left. lia. Qed.

Lemma deeper_at_least n e : deeper n e → at_least n e.
Proof. destruct e; simpl; [|done..]. intros [?|[??]]; lia. Qed.

Lemma scoped_run_refl st w : scoped_run w (st, w).
Proof. split; [|done]. exists []. by rewrite app_nil_r. Qed.

(** Sequencing: a step that keeps the stack and logs [pre], then a
    scoped execution. *)
Lemma scoped_run_seq w w1 pre r :
  Trace w1 = Trace w ++ pre → Forall (deeper (length (DispatchStack w))) pre →
  DispatchStack w1 = DispatchStack w →
  scoped_run w1 r → scoped_run w r.
Proof.
  intros Ht Hpre Hs [(suf & Hsuf & Hd) Hst]. split.
  - exists (pre ++ suf). rewrite Hsuf, Ht, Hs in *.
    split; [by rewrite app_assoc|]. by apply Forall_app.
  - intros H. by rewrite Hst.
Qed.

Lemma scoped_run_status w st st' w' :
  st ≠ OutOfFuel → scoped_run w (st, w') → scoped_run w (st', w').
Proof. intros Hst [H1 H2]. split; [done|]. intros _. by apply H2. Qed.

(** The loop of [Dispatch] at depth [d]: the callbacks it reaches itself
    are a sublist of the snapshot, in order. *)
Lemma Dispatch_loop_scoped exec ev snapshot nc w :
  scoped exec →
  let r := Dispatch_loop exec ev snapshot nc w in
  let d := length (DispatchStack w) in
  (∃ suf, Trace r.2 = Trace w ++ suf ∧ Forall (at_least d) suf ∧
          own_invocations d suf `sublist_of` map slot_key snapshot) ∧
  (r.1.1 ≠ OutOfFuel → DispatchStack r.2 = DispatchStack w).
Proof.
  intros Hexec. revert nc w.
  induction snapshot as [|slot rest IH]; intros nc w; simpl.
  { split; [|done]. exists []. rewrite app_nil_r. repeat split; [constructor|].
    apply sublist_nil_l. }
  assert (∀ nc' w', (∃ suf, Trace (Dispatch_loop exec ev rest nc' w').2
                            = Trace w' ++ suf ∧
             Forall (at_least (length (DispatchStack w'))) suf ∧
             own_invocations (length (DispatchStack w')) suf
               `sublist_of` slot_key slot :: map slot_key rest) ∧
          ((Dispatch_loop exec ev rest nc' w').1.1 ≠ OutOfFuel →
           DispatchStack (Dispatch_loop exec ev rest nc' w').2 = DispatchStack w'))
    as Hskip.
  { intros nc' w'. destruct (IH nc' w') as [(suf & H1 & H2 & H3) H4].
    split; [|done]. exists suf. repeat split; [done..|]. by apply sublist_cons. }
  assert (∀ nc' w1, DispatchStack w1 = DispatchStack w → Trace w1 = Trace w →
    let r := match exec (CallbackV slot ev) (log (invoked slot ev ViaDispatch w1) w1) with
             | (Returned, w2) => Dispatch_loop exec ev rest nc' w2
             | (st, w2) => (st, nc', w2)
             end in
    (∃ suf, Trace r.2 = Trace w ++ suf ∧
            Forall (at_least (length (DispatchStack w))) suf ∧
            own_invocations (length (DispatchStack w)) suf
              `sublist_of` slot_key slot :: map slot_key rest) ∧
    (r.1.1 ≠ OutOfFuel → DispatchStack r.2 = DispatchStack w)) as Hcall.
  { intros nc' w1 Hs1 Ht1.
    destruct (Hexec (CallbackV slot ev) (log (invoked slot ev ViaDispatch w1) w1))
      as [(suf & Hsuf & Hd) Hst].
    simpl in Hsuf, Hd, Hst. rewrite Hs1 in Hd, Hst. rewrite Ht1 in Hsuf.
    set (d := length (DispatchStack w)) in *.
    assert (own_invocations d (invoked slot ev ViaDispatch w1 :: suf)
            = [slot_key slot]) as Hown.
    { unfold own_invocations. simpl. rewrite Hs1. fold d.
      rewrite bool_decide_eq_true_2 by done.
      unfold slot_key. f_equal. apply (deeper_own_nil d suf Hd). }
    assert (Forall (at_least d) (invoked slot ev ViaDispatch w1 :: suf)) as Hal.
    { constructor; [simpl; rewrite Hs1; done|].
      eapply Forall_impl; [done|]. apply deeper_at_least. }
    destruct (exec _ _) as [[] w2] eqn:E; cbn [fst snd] in *.
    - specialize (Hst ltac:(done)).
      destruct (IH nc' w2) as [(suf2 & H1 & H2 & H3) H4].
      rewrite Hst in *. fold d in H2, H3. split; [|done].
      exists ((invoked slot ev ViaDispatch w1 :: suf) ++ suf2).
      rewrite H1, Hsuf. split; [by rewrite <- !app_assoc|].
      split; [by apply Forall_app|].
      rewrite own_invocations_app, Hown.
      by apply sublist_skip.
    - specialize (Hst ltac:(done)). split; [|done].
      exists (invoked slot ev ViaDispatch w1 :: suf).
      rewrite Hsuf. split; [by rewrite <- !app_assoc|]. split; [done|].
      rewrite Hown. apply sublist_skip, sublist_nil_l.
    - split; [|done].
      exists (invoked slot ev ViaDispatch w1 :: suf).
      rewrite Hsuf. split; [by rewrite <- !app_assoc|]. split; [done|].
      rewrite Hown. apply sublist_skip, sublist_nil_l. }
  destruct (IsOneShot slot).
  - destruct (load (Flags w) (Active slot)); [|apply Hskip].
    by apply (Hcall true (claim slot w)).
  - destruct (load (Flags w) (Active slot)); simpl; [|apply Hskip].
    by apply (Hcall nc w).
Qed.

Lemma Dispatch_scoped exec b ty ev w :
  scoped exec →
  let r := Dispatch exec b ty ev w in
  let d := length (DispatchStack w) in
  (∃ suf, Trace r.2 = Trace w ++ suf ∧ Forall (at_least d) suf ∧
          own_invocations d suf
            `sublist_of` map slot_key (Slots (dispatcher_of w b ty))) ∧
  (r.1 ≠ OutOfFuel → DispatchStack r.2 = DispatchStack w).
Proof.
  intros Hexec. unfold Dispatch.
  pose proof (Dispatch_loop_scoped exec ev (Slots (dispatcher_of w b ty))
                false w Hexec) as H.
  cbv zeta in H.
  destruct (Dispatch_loop _ _ _ _ _) as [[[] nc] w']; cbn [fst snd] in *;
    try done; by destruct nc.
Qed.

Lemma TEventSystem_Dispatch_scoped exec b ty ev w :
  scoped exec →
  let r := TEventSystem_Dispatch (Dispatch exec) b ty ev w in
  let d := S (length (DispatchStack w)) in
  (∃ suf, Trace r.2 = Trace w ++ suf ∧ Forall (at_least d) suf ∧
          own_invocations d suf
            `sublist_of` map slot_key (Slots (dispatcher_of w b ty))) ∧
  (r.1 ≠ OutOfFuel → DispatchStack r.2 = DispatchStack w).
Proof.
  intros Hexec. unfold TEventSystem_Dispatch.
  set (w1 := PushFrame _ _).
  pose proof (Dispatch_scoped exec b ty ev w1 Hexec) as H. cbv zeta in H.
  assert (dispatcher_of w1 b ty = dispatcher_of w b ty) as Hd
    by apply (enter_dispatcher_of b ty w b ty).
  rewrite Hd in H. clear Hd.
  change (Trace w1) with (Trace w) in H.
  change (DispatchStack w1) with (mkFrame b ty ev :: DispatchStack w) in H.
  cbn [length] in H.
  destruct (Dispatch _ _ _ _ _) as [[] w2]; cbn [fst snd] in *.
  - destruct H as [H1 H2]. split; [done|]. intros _.
    simpl. by rewrite H2.
  - destruct H as [H1 H2]. split; [done|]. intros _.
    simpl. by rewrite H2.
  - destruct H as [H1 _]. by split.
Qed.

Lemma InvokeSingle_scoped exec b ty id ev w :
  scoped exec → scoped_run w (InvokeSingle exec b ty id ev w).
Proof.
  intros Hexec. unfold InvokeSingle.
  destruct (find_if _ _) as [slot|]; [|apply scoped_run_refl].
  assert (∀ (nc : bool) w1,
    DispatchStack w1 = DispatchStack w → Trace w1 = Trace w →
    scoped_run w
      match exec (CallbackV slot ev) (log (invoked slot ev ViaInvokeSingle w1) w1) with
      | (OutOfFuel, w2) => (OutOfFuel, w2)
      | (st, w2) => (st, if nc then Cleanup b ty w2 else w2)
      end) as Hcall.
  { intros nc w1 Hs1 Ht1.
    assert (scoped_run w (exec (CallbackV slot ev)
                            (log (invoked slot ev ViaInvokeSingle w1) w1))) as H.
    { apply (scoped_run_seq w (log (invoked slot ev ViaInvokeSingle w1) w1)
               [invoked slot ev ViaInvokeSingle w1]).
      - simpl. by rewrite Ht1.
      - constructor; [|constructor]. simpl. right. by rewrite Hs1.
      - done.
      - apply Hexec. }
    destruct (exec _ _) as [[] w2]; try done;
      destruct H as [H1 H2]; (split; [by destruct nc|]);
      intros _; cbn [fst snd] in *; specialize (H2 ltac:(done));
      by destruct nc. }
  destruct (IsOneShot slot).
  - destruct (load (Flags w) (Active slot)); [|apply scoped_run_refl].
    by apply (Hcall true (claim slot w)).
  - destruct (load (Flags w) (Active slot)); simpl; [|apply scoped_run_refl].
    by apply (Hcall false w).
Qed.

Lemma step_scoped exec p w :
  scoped exec → scoped_run w (step (Dispatch exec) (InvokeSingle exec) exec p w).
Proof.
  intros Hexec.
  destruct p as [| |k|u k|body k|b ty pr os h k|b id k|b ty ev k|b ty k];
    simpl; try apply scoped_run_refl.
  - apply Hexec.
  - apply (scoped_run_seq w (set_user u w) []);
      [by rewrite app_nil_r|constructor|done|]. apply Hexec.
  - pose proof (Hexec body w) as H1.
    destruct (exec body w) as [[] w1]; [| |done].
    + destruct H1 as [(suf & Hs & Hd) Hst]. cbn [fst snd] in *.
      specialize (Hst ltac:(done)).
      apply (scoped_run_seq w w1 suf); [done..|apply Hexec].
    + destruct H1 as [(suf & Hs & Hd) Hst]. cbn [fst snd] in *.
      specialize (Hst ltac:(done)).
      apply (scoped_run_seq w w1 suf); [done..|apply Hexec].
  - pose proof (register_Trace b ty pr h os w) as Ht.
    pose proof (register_DispatchStack b ty pr h os w) as Hs.
    destruct (SubscribeImpl_register _ _ _ _ _ _) as [id w1].
    cbn [fst snd] in *.
    apply (scoped_run_seq w w1 [Issued b (NextId (bus w b))]);
      [done|by repeat constructor|done|].
    unfold NotifyCurrentDispatch.
    destruct (current_frame _ _ _) as [fr|]; [|apply Hexec].
    pose proof (InvokeSingle_scoped exec (System fr) (EventTypeIndex fr) id
                  (Event fr) w1 Hexec) as H1.
    destruct (InvokeSingle _ _ _ _ _ _) as [[] w2]; [|done..].
    destruct H1 as [(suf & Hsuf & Hd) Hst]. cbn [fst snd] in *.
    specialize (Hst ltac:(done)).
    apply (scoped_run_seq w1 w2 suf); [done..|apply Hexec].
  - apply (scoped_run_seq w (log (Unsubscribed b id) (UnsubscribeImpl b id w))
             [Unsubscribed b id]).
    + simpl. by rewrite UnsubscribeImpl_Trace.
    + by repeat constructor.
    + simpl. by rewrite UnsubscribeImpl_DispatchStack.
    + apply Hexec.
  - pose proof (TEventSystem_Dispatch_scoped exec b ty ev w Hexec) as H1.
    cbv zeta in H1.
    assert (scoped_run w (TEventSystem_Dispatch (Dispatch exec) b ty ev w))
      as H2.
    { destruct H1 as [(suf & Hsuf & Hal & _) Hst]. split; [|done].
      exists suf. split; [done|].
      eapply Forall_impl; [done|]. apply at_least_S_deeper. }
    clear H1.
    destruct (TEventSystem_Dispatch _ _ _ _ _) as [[] w1]; [|done..].
    destruct H2 as [(suf & Hsuf & Hd) Hst]. cbn [fst snd] in *.
    specialize (Hst ltac:(done)).
    apply (scoped_run_seq w w1 suf); [done..|apply Hexec].
  - apply Hexec.
Qed.

Lemma run_scoped fuel : scoped (run fuel).
Proof.
  induction fuel as [|fuel IH]; intros p w; simpl.
  - apply scoped_run_refl.
  - by apply step_scoped.
Qed.

Lemma StronglySorted_sublist {A} (R : A → A → Prop) (l1 l2 : list A) :
  l1 `sublist_of` l2 → StronglySorted R l2 → StronglySorted R l1.
Proof.
  induction 1 as [|x l1 l2 Hsub IH|x l1 l2 Hsub IH]; intros Hs.
  - constructor.
  - apply StronglySorted_inv in Hs as [Hs Hx]. constructor; [by apply IH|].
    apply Forall_forall. intros y Hy.
    eapply Forall_forall in Hx; [done|]. by eapply elem_of_sublist.
  - apply StronglySorted_inv in Hs as [Hs _]. by apply IH.
Qed.

Lemma slot_before_keys (l : list TSlot) :
  StronglySorted slot_before l →
  StronglySorted delivered_before (map slot_key l).
Proof.
  induction 1 as [|x l Hl IH Hx]; simpl; constructor; [done|].
  apply Forall_forall. intros k Hk.
  apply list_elem_of_fmap in Hk as (s & -> & Hin).
  by eapply Forall_forall in Hx.
Qed.

(** ** Unsubscription during a delivery *)

Lemma hits_app a (t : list (TraceEvent Payload)) e :
  hits a (t ++ [e]) = hits a t + (if is_hit a e then 1 else 0).
Proof. apply filter_length_app. Qed.

(** An inactive slot is never invoked again. *)
Lemma dead_stable a n : stable (dead a n).
Proof.
  split.
  - done.
  - intros b ty pr h os w (Hlt & Hf & Hn). unfold dead.
    rewrite register_Flags, register_Trace, hits_app, length_app. simpl.
    split; [lia|]. split; [by apply load_alloc_false | lia].
  - intros b id w (Hlt & Hf & Hn). unfold dead. simpl.
    rewrite UnsubscribeImpl_length, UnsubscribeImpl_Trace, hits_app. simpl.
    split; [done|]. split; [by apply UnsubscribeImpl_load_false | lia].
  - done.
  - done.
  - intros slot ev via w (Hlt & Hf & Hn) Hload. cbv zeta.
    assert (Active slot ≠ a) as Hne by (intros E; rewrite E in Hload; congruence).
    unfold dead. simpl. rewrite hits_app. simpl.
    rewrite bool_decide_eq_false_2 by done.
    destruct (IsOneShot slot); simpl.
    + rewrite length_store. split; [done|].
      split; [by apply load_store_false | lia].
    + split; [done|]. split; [done | lia].
  - done.
Qed.

Lemma UnsubscribeImpl_deactivates b id ty target w :
  HandlerTypes (bus w b) !! id = Some ty →
  find_if id (Slots (dispatcher_of w b ty)) = Some target →
  load (Flags (UnsubscribeImpl b id w)) (Active target) = false.
Proof.
  intros Hty Hfind. unfold UnsubscribeImpl. rewrite Hty. simpl.
  unfold dispatcher_of in Hfind.
  destruct (Dispatchers (bus w b) !! ty) as [d|] eqn:Hd; [|done].
  simpl in Hfind. unfold Remove. rewrite Hfind. simpl.
  apply load_store_same.
Qed.

(** C5.  A handler calls [Unsubscribe] with the identifier of a
    subscribed handler [target] (another one or itself) during a
    delivery.  The call returns to the callback, which goes on; the
    log of past invocations is kept; the flag of [target] is false; and
    [target] is not invoked again: not by the rest of the callback, not
    by the rest of the delivery over any remaining snapshot, not by any
    later execution such as a subsequent delivery. *)
Theorem Unsubscribe_suppresses_target b id ty target w :
  HandlerTypes (bus w b) !! id = Some ty →
  find_if id (Slots (dispatcher_of w b ty)) = Some target →
  Active target < length (Flags w) →
  let w1 := log (Unsubscribed b id) (UnsubscribeImpl b id w) in
  (∀ fuel k, run (S fuel) (CallUnsubscribe b id k) w = run fuel k w1) ∧
  Trace w1 = Trace w ++ [Unsubscribed b id] ∧
  load (Flags w1) (Active target) = false ∧
  (∀ fuel k fuel' ev rest nc fuel'' p,
     let w2 := (run fuel k w1).2 in
     let w3 := (Dispatch_loop (run fuel') ev rest nc w2).2 in
     let w4 := (run fuel'' p w3).2 in
     hits (Active target) (Trace w2) = hits (Active target) (Trace w) ∧
     hits (Active target) (Trace w3) = hits (Active target) (Trace w) ∧
     hits (Active target) (Trace w4) = hits (Active target) (Trace w)).
Proof.
  intros Hty Hfind Hlt w1.
  assert (load (Flags w1) (Active target) = false) as Hf
    by by apply (UnsubscribeImpl_deactivates b id ty).
  assert (Trace w1 = Trace w ++ [Unsubscribed b id]) as Ht
    by (simpl; by rewrite UnsubscribeImpl_Trace).
  split; [done|]. split; [done|]. split; [done|].
  intros fuel k fuel' ev rest nc fuel'' p w2 w3 w4.
  set (a := Active target) in *. set (n := hits a (Trace w)).
  assert (dead a n w1) as H1.
  { split; [|split]; [|done|].
    - simpl. by rewrite UnsubscribeImpl_length.
    - rewrite Ht, hits_app. simpl. subst n. lia. }
  assert (dead a n w2) as H2
    by apply (run_keeps (dead a n) fuel (dead_stable a n) k w1 H1).
  assert (dead a n w3) as H3.
  { apply Dispatch_loop_keeps; [apply dead_stable| |done].
    apply run_keeps, dead_stable. }
  assert (dead a n w4) as H4
    by apply (run_keeps (dead a n) fuel'' (dead_stable a n) p w3 H3).
  destruct H2 as (_ & _ & ?), H3 as (_ & _ & ?), H4 as (_ & _ & ?). done.
Qed.

(** ** Handler identifiers *)

Lemma UnsubscribeImpl_NextId b id w b' :
  NextId (bus (UnsubscribeImpl b id w) b') = NextId (bus w b').
Proof.
  unfold UnsubscribeImpl.
  destruct (HandlerTypes (bus w b) !! id) as [ty|]; [|done]. simpl.
  destruct (Dispatchers (bus w b) !! ty) as [d|].
  - destruct (Remove _ _ _) as [[? d'] fl]. rewrite bus_set_flags.
    rewrite set_bus_set_bus.
    destruct (decide (b = b')) as [<-|Hne].
    + by rewrite bus_set_bus_eq.
    + by rewrite bus_set_bus_ne.
  - destruct (decide (b = b')) as [<-|Hne].
    + by rewrite bus_set_bus_eq.
    + by rewrite bus_set_bus_ne.
Qed.

Lemma register_NextId b ty pr h os w :
  NextId (bus (SubscribeImpl_register b ty pr h os w).2 b)
  = ((NextId (bus w b) + 1) mod SIZE_MOD)%N.
Proof.
  rewrite register_bus, emplace_NextId. unfold with_dispatcher. simpl.
  by rewrite GetDispatcher_NextId.
Qed.

Lemma issued_by_app b (t : list (TraceEvent Payload)) e :
  issued_by b (t ++ [e])
  = issued_by b t ++ match issued_id b e with Some id => [id] | None => [] end.
Proof. unfold issued_by. rewrite omap_app. simpl. by destruct (issued_id b e). Qed.

Lemma ids_inv_stable : stable ids_inv.
Proof.
  split.
  - done.
  - intros b ty pr h os w Hw b'. cbv zeta. rewrite register_Trace, issued_by_app.
    destruct (Hw b') as [H1 H2]. simpl.
    destruct (decide (b = b')) as [<-|Hne].
    + rewrite bool_decide_eq_true_2 by done.
      rewrite register_NextId, length_app. simpl.
      set (n := length (issued_by b (Trace w))) in *.
      split.
      * rewrite H1. rewrite N.Div0.add_mod_idemp_l. f_equal. lia.
      * intros Hn. rewrite H2 by lia. rewrite H1.
        rewrite N.mod_small by lia.
        rewrite Nat.add_1_r, seq_S, map_app. simpl. do 2 f_equal. lia.
    + rewrite bool_decide_eq_false_2 by done. rewrite app_nil_r.
      by rewrite register_bus_ne.
  - intros b id w Hw b'. cbv zeta. simpl.
    rewrite UnsubscribeImpl_Trace, issued_by_app. simpl. rewrite app_nil_r.
    rewrite bus_log, UnsubscribeImpl_NextId. apply Hw.
  - intros b ty ev w Hw b'. cbv zeta. simpl.
    replace (NextId (bus (PushFrame (mkFrame b ty ev)
               (set_bus b (GetDispatcher ty (bus w b)).2 w)) b'))
      with (NextId (bus w b')); [apply Hw|].
    change (bus (PushFrame ?f ?w') b') with (bus w' b').
    destruct (decide (b = b')) as [<-|Hne].
    + by rewrite bus_set_bus_eq, GetDispatcher_NextId.
    + by rewrite bus_set_bus_ne.
  - done.
  - intros slot ev via w Hw Hload. cbv zeta. intros b. cbv zeta. simpl.
    rewrite issued_by_app. simpl. rewrite app_nil_r.
    destruct (IsOneShot slot); apply Hw.
  - intros b ty w Hw b'. cbv zeta.
    change (Trace (Cleanup b ty w)) with (Trace w).
    replace (NextId (bus (Cleanup b ty w) b')) with (NextId (bus w b'));
      [apply Hw|].
    unfold Cleanup. destruct (decide (b = b')) as [<-|Hne].
    + by rewrite bus_set_bus_eq.
    + by rewrite bus_set_bus_ne.
Qed.

Lemma seq_1_sorted n : StronglySorted N.lt (map N.of_nat (seq 1 n)).
Proof.
  generalize 1. induction n as [|n IH]; intros k; simpl; constructor; [apply IH|].
  apply Forall_forall. intros x Hx.
  apply list_elem_of_fmap in Hx as (y & -> & Hy).
  apply list_elem_of_In, in_seq in Hy. lia.
Qed.

(** C8, as amended.  From the start of the process, while a bus has
    issued fewer than 2^64 identifiers, the identifiers it has issued
    are exactly 1, 2, ..., n in this order: each is at least 1, each is
    strictly greater than all that the same bus issued before, none is
    issued twice.  Unsubscribing never gives an identifier back. *)
Theorem handler_ids_increase_per_bus fuel p w b :
  Systems w = ∅ → Trace w = [] →
  let ids := issued_by b (Trace (run fuel p w).2) in
  (N.of_nat (length ids) < SIZE_MOD)%N →
  ids = map N.of_nat (seq 1 (length ids)) ∧
  Forall (fun i => (1 ≤ i)%N) ids ∧
  StronglySorted N.lt ids ∧
  NoDup ids.
Proof.
  intros Hsys Htr ids Hn.
  assert (ids_inv w) as Hw.
  { intros b'. rewrite Htr. simpl. unfold bus. rewrite Hsys, lookup_empty. done. }
  destruct (run_keeps ids_inv fuel ids_inv_stable p w Hw b) as [_ H2].
  specialize (H2 Hn). fold ids in H2.
  split; [done|]. rewrite H2.
  split; [|split].
  - apply Forall_forall. intros x Hx.
    apply list_elem_of_fmap in Hx as (y & -> & Hy).
    apply list_elem_of_In, in_seq in Hy. lia.
  - apply seq_1_sorted.
  - apply (NoDup_fmap_2 N.of_nat), NoDup_ListNoDup, List.seq_NoDup.
Qed.

(** ** Subscribe, then unsubscribe *)

Lemma GetHandlerCount_Count b ty w :
  GetHandlerCount b ty w = Count (Flags w) (dispatcher_of w b ty).
Proof.
  unfold GetHandlerCount, dispatcher_of. by destruct (_ !! ty).
Qed.

Lemma Count_CleanupUnlocked flags d :
  Count flags (CleanupUnlocked flags d) = Count flags d.
Proof.
  unfold Count, CleanupUnlocked. simpl. f_equal.
  induction (Slots d) as [|s l IH]; simpl; [done|].
  destruct (load flags (Active s)) eqn:E; simpl; [|done]. by rewrite E, IH.
Qed.

Lemma Count_ext flags flags' d :
  (∀ s, s ∈ Slots d → load flags (Active s) = load flags' (Active s)) →
  Count flags d = Count flags' d.
Proof.
  unfold Count. induction (Slots d) as [|s l IH]; intros H; simpl; [done|].
  rewrite <- (H s) by apply list_elem_of_here.
  destruct (load flags (Active s)); simpl; rewrite IH; try done;
    intros s' Hs'; apply H; by apply list_elem_of_further.
Qed.

Lemma find_if_new id (l : list TSlot) x :
  Id x = id → find_if id l = None →
  find_if id (stable_sort (l ++ [x])) = Some x.
Proof.
  intros Hx Hl. destruct (find_if id (stable_sort (l ++ [x]))) as [s|] eqn:E.
  - apply find_if_Some in E as [Hin Hid].
    apply stable_sort_elem, elem_of_app in Hin as [Hin|Hin].
    + by destruct (proj1 (find_if_None id l) Hl s Hin).
    + apply list_elem_of_singleton in Hin. by subst.
  - exfalso. apply (proj1 (find_if_None _ _) E x); [|done].
    apply stable_sort_elem, elem_of_app. right. by apply list_elem_of_singleton.
Qed.

Lemma register_HandlerTypes_new b ty pr h os w :
  HandlerTypes (bus w b) !! NextId (bus w b) = None →
  HandlerTypes (bus (SubscribeImpl_register b ty pr h os w).2 b)
    !! NextId (bus w b) = Some ty.
Proof.
  intros Hfresh. rewrite register_bus. unfold emplace_handler_type.
  unfold with_dispatcher. simpl. rewrite GetDispatcher_HandlerTypes. simpl.
  rewrite Hfresh. simpl. by rewrite lookup_insert_eq.
Qed.

(** The world after [Subscribe] and [Unsubscribe] of a fresh identifier
    counts as many active handlers of the event type as before. *)
Lemma register_unsubscribe_count b ty pr h os w :
  HandlerTypes (bus w b) !! NextId (bus w b) = None →
  find_if (NextId (bus w b)) (Slots (dispatcher_of w b ty)) = None →
  Forall (fun s => Active s < length (Flags w)) (Slots (dispatcher_of w b ty)) →
  GetHandlerCount b ty
    (UnsubscribeImpl b (NextId (bus w b)) (SubscribeImpl_register b ty pr h os w).2)
  = GetHandlerCount b ty w.
Proof.
  intros Hmap Hfind Halloc.
  set (id := NextId (bus w b)) in *.
  set (w1 := (SubscribeImpl_register b ty pr h os w).2).
  set (slot := new_slot b ty pr h os w).
  assert (dispatcher_of w1 b ty = Subscribe slot (dispatcher_of w b ty)) as Hd1
    by apply register_dispatcher_of_eq.
  assert (Flags w1 = Flags w ++ [true]) as Hf1 by apply register_Flags.
  assert (HandlerTypes (bus w1 b) !! id = Some ty) as Hm1
    by by apply register_HandlerTypes_new.
  assert (find_if id (Slots (dispatcher_of w1 b ty)) = Some slot) as Hfind1.
  { rewrite Hd1. simpl. by apply find_if_new. }
  rewrite !GetHandlerCount_Count.
  assert (Flags (UnsubscribeImpl b id w1) = store_false (Flags w1) (Active slot))
    as Hf2.
  { unfold UnsubscribeImpl. rewrite Hm1. simpl.
    unfold dispatcher_of in Hfind1.
    destruct (Dispatchers (bus w1 b) !! ty) as [d|]; [|done].
    simpl in Hfind1. unfold Remove. by rewrite Hfind1. }
  assert (Count (Flags (UnsubscribeImpl b id w1))
            (dispatcher_of (UnsubscribeImpl b id w1) b ty)
          = Count (Flags (UnsubscribeImpl b id w1)) (dispatcher_of w1 b ty)) as ->.
  { destruct (UnsubscribeImpl_dispatcher_of b id w1 b ty) as [->| ->]; [done|].
    apply Count_CleanupUnlocked. }
  rewrite Hf2, Hd1, Hf1. unfold Count, Subscribe. cbn [Slots].
  rewrite stable_sort_count, List.filter_app, length_app. simpl.
  rewrite load_store_same. simpl. rewrite Nat.add_0_r. f_equal.
  clear - Halloc.
  induction Halloc as [|s l Hs Hl IH]; simpl; [done|].
  rewrite load_store_other by lia. rewrite load_alloc by done.
  by rewrite IH.
Qed.

Lemma current_frame_register b ty pr h os w b' ty' :
  current_frame b' ty' (DispatchStack (SubscribeImpl_register b ty pr h os w).2)
  = current_frame b' ty' (DispatchStack w).
Proof. by rewrite register_DispatchStack. Qed.

(** [Subscribe] outside a delivery of the event type: nothing is
    invoked. *)
Lemma run_CallSubscribe_idle fuel b ty pr os h k w :
  current_frame b ty (DispatchStack w) = None →
  run (S fuel) (CallSubscribe b ty pr os h k) w
  = run fuel (k (NextId (bus w b))) (SubscribeImpl_register b ty pr h os w).2.
Proof.
  intros Hidle. simpl.
  pose proof (register_id b ty pr h os w) as Hid.
  pose proof (current_frame_register b ty pr h os w b ty) as Hfr.
  destruct (SubscribeImpl_register _ _ _ _ _ _) as [id w1]. simpl in *.
  unfold NotifyCurrentDispatch. rewrite Hfr, Hidle. by subst.
Qed.

(** ** Scoped registration *)

Lemma Disconnect_twice (c : TScopedConnection) w :
  Disconnect (Disconnect c w).1 (Disconnect c w).2 = Disconnect c w.
Proof.
  unfold Disconnect. destruct (SystemPtr c) as [b|] eqn:E; simpl.
  - destruct (bool_decide (ConnId c ≠ 0%N)) eqn:E2; simpl; [done|].
    by rewrite E, E2.
  - by rewrite E.
Qed.


(** ** The entry of [HandlerTypes] outlives a one-shot slot *)

Lemma UnsubscribeImpl_HandlerTypes b id w b' :
  HandlerTypes (bus (UnsubscribeImpl b id w) b')
  = if decide (b = b') then delete id (HandlerTypes (bus w b))
    else HandlerTypes (bus w b').
Proof.
  unfold UnsubscribeImpl.
  destruct (HandlerTypes (bus w b) !! id) as [ty|] eqn:E.
  - simpl. destruct (Dispatchers (bus w b) !! ty) as [d|].
    + destruct (Remove _ _ _) as [[? d'] fl].
      rewrite bus_set_flags, set_bus_set_bus.
      destruct (decide (b = b')) as [<-|Hne].
      * by rewrite bus_set_bus_eq.
      * by rewrite bus_set_bus_ne.
    + destruct (decide (b = b')) as [<-|Hne].
      * by rewrite bus_set_bus_eq.
      * by rewrite bus_set_bus_ne.
  - destruct (decide (b = b')) as [<-|Hne]; [|done]. by rewrite delete_id.
Qed.

Lemma register_HandlerTypes_keep b ty pr h os w b' id ty' :
  HandlerTypes (bus w b') !! id = Some ty' →
  HandlerTypes (bus (SubscribeImpl_register b ty pr h os w).2 b') !! id = Some ty'.
Proof.
  intros H. destruct (decide (b = b')) as [<-|Hne].
  - rewrite register_bus. unfold emplace_handler_type, with_dispatcher. simpl.
    rewrite GetDispatcher_HandlerTypes. simpl.
    destruct (HandlerTypes (bus w b) !! NextId (bus w b)) eqn:E; simpl;
      [done|].
    rewrite lookup_insert_ne; [done|]. intros <-. congruence.
  - by rewrite register_bus_ne.
Qed.

Lemma unsubscribes_app b id (t : list (TraceEvent Payload)) e :
  unsubscribes b id (t ++ [e])
  = unsubscribes b id t + (if is_unsubscribe b id e then 1 else 0).
Proof. apply filter_length_app. Qed.

Lemma mapped_stable b id ty c : stable (mapped b id ty c).
Proof.
  split.
  - done.
  - intros b0 ty0 pr h os w [H1 H2]. unfold mapped.
    rewrite register_Trace, unsubscribes_app. simpl. rewrite Nat.add_0_r.
    split; [done|]. intros H. by apply register_HandlerTypes_keep, H2.
  - intros b0 id0 w [H1 H2]. unfold mapped. simpl.
    rewrite UnsubscribeImpl_Trace, unsubscribes_app. simpl.
    destruct (bool_decide (b0 = b) && bool_decide (id0 = id)) eqn:E.
    + split; [lia|]. intros; lia.
    + rewrite Nat.add_0_r. split; [done|]. intros H. specialize (H2 H).
      rewrite bus_log, UnsubscribeImpl_HandlerTypes.
      destruct (decide (b0 = b)) as [->|Hne]; [|done].
      rewrite lookup_delete_ne; [done|]. intros ->.
      by rewrite !bool_decide_eq_true_2 in E.
  - intros b0 ty0 ev w [H1 H2]. unfold mapped. simpl. split; [done|].
    intros H. specialize (H2 H).
    change (bus (PushFrame ?f ?w') b) with (bus w' b).
    destruct (decide (b0 = b)) as [<-|Hne].
    + by rewrite bus_set_bus_eq, GetDispatcher_HandlerTypes.
    + by rewrite bus_set_bus_ne.
  - done.
  - intros slot ev via w [H1 H2] Hload. cbv zeta. unfold mapped. simpl.
    rewrite unsubscribes_app. simpl. rewrite Nat.add_0_r.
    by destruct (IsOneShot slot).
  - intros b0 ty0 w [H1 H2]. unfold mapped.
    change (Trace (Cleanup b0 ty0 w)) with (Trace w). split; [done|].
    intros H. specialize (H2 H). unfold Cleanup.
    destruct (decide (b0 = b)) as [<-|Hne].
    + by rewrite bus_set_bus_eq.
    + by rewrite bus_set_bus_ne.
Qed.

(** C10.  A handler with identifier [id] is registered for [ty] on bus
    [b].  After any execution during which nobody called [Unsubscribe]
    with [id] and at whose end the slot is gone from the list (a
    one-shot slot that fired and was excised), [HandlerTypes] still holds
    the entry; and [Unsubscribe] with [id] then erases that entry and
    nothing else: dispatchers, flags, counter, every other entry and
    every handler count are as before. *)
Theorem Unsubscribe_after_oneshot_fired fuel p w b id ty :
  HandlerTypes (bus w b) !! id = Some ty →
  let w' := (run fuel p w).2 in
  unsubscribes b id (Trace w') = unsubscribes b id (Trace w) →
  find_if id (Slots (dispatcher_of w' b ty)) = None →
  HandlerTypes (bus w' b) !! id = Some ty ∧
  let w'' := UnsubscribeImpl b id w' in
  HandlerTypes (bus w'' b) = delete id (HandlerTypes (bus w' b)) ∧
  (∀ b', Dispatchers (bus w'' b') = Dispatchers (bus w' b')) ∧
  (∀ b', NextId (bus w'' b') = NextId (bus w' b')) ∧
  (∀ b', b' ≠ b → bus w'' b' = bus w' b') ∧
  Flags w'' = Flags w' ∧
  (∀ b' ty', GetHandlerCount b' ty' w'' = GetHandlerCount b' ty' w').
Proof.
  intros Hmap w' Hun Hgone.
  assert (mapped b id ty (unsubscribes b id (Trace w)) w) as Hw by by split.
  apply (run_keeps _ fuel (mapped_stable b id ty _) p) in Hw.
  destruct Hw as [_ Hm]. specialize (Hm Hun). fold w' in Hm.
  split; [done|]. intros w''.
  assert (w'' = set_bus b (mkSystem (Dispatchers (bus w' b))
                             (delete id (HandlerTypes (bus w' b)))
                             (NextId (bus w' b))) w') as ->
    by by apply (UnsubscribeImpl_stale b id ty).
  split; [by rewrite bus_set_bus_eq|].
  split; [|split; [|split; [|split]]].
  - intros b'. destruct (decide (b = b')) as [<-|Hne].
    + by rewrite bus_set_bus_eq.
    + by rewrite bus_set_bus_ne.
  - intros b'. destruct (decide (b = b')) as [<-|Hne].
    + by rewrite bus_set_bus_eq.
    + by rewrite bus_set_bus_ne.
  - intros b' Hne. by rewrite bus_set_bus_ne.
  - done.
  - intros b' ty'. by apply GetHandlerCount_set_bus.
Qed.

(** ** Move assignment of scoped registrations *)

(** C9.  Move assignment between two distinct connection objects:
    [this] first disconnects (when it holds a non-zero identifier, that
    identifier is unsubscribed from its bus), then takes the bus and the
    identifier of [other], and [other] is left with the null bus and
    identifier 0; no other object changes.  Assigning an object to
    itself changes nothing. *)
Theorem move_assign_transfers (this other : nat)
    (conns : list TScopedConnection) w (c o : TScopedConnection) b :
  conns !! this = Some c → conns !! other = Some o →
  (ConnId c ≠ 0%N → SystemPtr c = Some b) →
  (this ≠ other →
   (move_assign this other conns w).2
   = (if decide (ConnId c = 0%N) then w else UnsubscribeImpl b (ConnId c) w) ∧
   (move_assign this other conns w).1 !! this = Some o ∧
   (move_assign this other conns w).1 !! other = Some (mkConnection None 0%N) ∧
   (∀ i, i ≠ this → i ≠ other →
         (move_assign this other conns w).1 !! i = conns !! i)) ∧
  move_assign this this conns w = (conns, w).
Proof.
  intros Hc Ho Hwf. split.
  - intros Hne. unfold move_assign.
    rewrite bool_decide_eq_true_2 by done. rewrite Hc, Ho.
    pose proof (lookup_lt_Some _ _ _ Hc) as Hlt.
    pose proof (lookup_lt_Some _ _ _ Ho) as Hlt'.
    assert ((Disconnect c w).2
            = if decide (ConnId c = 0%N) then w
              else UnsubscribeImpl b (ConnId c) w) as Hd.
    { unfold Disconnect. destruct (decide (ConnId c = 0%N)) as [Hz|Hnz].
      - rewrite bool_decide_eq_false_2 by (intros H; by apply H).
        by destruct (SystemPtr c).
      - rewrite (Hwf Hnz). by rewrite bool_decide_eq_true_2. }
    destruct (Disconnect c w) as [c' w1]. simpl in *.
    split; [done|]. split; [|split].
    + rewrite list_lookup_insert_ne by done.
      by rewrite list_lookup_insert_eq.
    + rewrite list_lookup_insert_eq; [done|]. by rewrite length_insert.
    + intros i Hi Hi'. by rewrite !list_lookup_insert_ne.
  - unfold move_assign. by rewrite bool_decide_eq_false_2 by (intros H; by apply H).
Qed.

(** ** Well-formed worlds *)

Lemma log_inv_grow w w' e :
  length (Flags w) ≤ length (Flags w') →
  Trace w' = Trace w ++ [e] →
  match e with
  | Invoked a _ _ _ _ _ _ => a < length (Flags w')
  | _ => True
  end →
  log_inv w → log_inv w'.
Proof.
  intros Hlen Ht He Hw. unfold log_inv. rewrite Ht.
  apply Forall_app. split; [|by constructor].
  eapply Forall_impl; [exact Hw|]. intros [] ?; simpl in *; [lia|done..].
Qed.

Lemma log_inv_stable : stable log_inv.
Proof.
  split.
  - done.
  - intros b ty pr h os w Hw.
    apply (log_inv_grow w _ (Issued b (NextId (bus w b)))); [|apply register_Trace|done..].
    rewrite register_Flags, length_app. lia.
  - intros b id w Hw.
    apply (log_inv_grow w _ (Unsubscribed b id)); [| |done..].
    + simpl. by rewrite UnsubscribeImpl_length.
    + simpl. by rewrite UnsubscribeImpl_Trace.
  - done.
  - done.
  - intros slot ev via w Hw Hload. cbv zeta.
    pose proof (load_true_lt _ _ Hload) as Hlt.
    apply (log_inv_grow w _ (invoked slot ev via
             (if IsOneShot slot then claim slot w else w))).
    + destruct (IsOneShot slot); simpl; [|done]. by rewrite length_store.
    + by destruct (IsOneShot slot).
    + destruct (IsOneShot slot); simpl; [|done]. by rewrite length_store.
    + done.
  - done.
Qed.

Lemma log_inv_hits w a : log_inv w → length (Flags w) ≤ a → hits a (Trace w) = 0.
Proof.
  unfold log_inv, hits. intros Hw Hle.
  induction Hw as [|e t He _ IH]; simpl; [done|].
  destruct e as [a' ? ? ? ? ? ?| |]; simpl; try done.
  rewrite bool_decide_eq_false_2 by lia. done.
Qed.

Lemma fresh_inv_same w w' :
  (∀ b, issued_by b (Trace w') = issued_by b (Trace w)) →
  (∀ b, NextId (bus w' b) = NextId (bus w b)) →
  (∀ b ty s, s ∈ Slots (dispatcher_of w' b ty) → s ∈ Slots (dispatcher_of w b ty)) →
  (∀ b id ty, HandlerTypes (bus w' b) !! id = Some ty →
              HandlerTypes (bus w b) !! id = Some ty) →
  fresh_inv w → fresh_inv w'.
Proof.
  intros Hi Hn Hs Hm Hw b. cbv zeta. rewrite Hi, Hn. intros Hlt.
  destruct (Hw b Hlt) as (H1 & H2 & H3). split; [done|]. split.
  - intros ty s Hin. by apply (H2 ty), Hs.
  - intros id ty Hid. by apply (H3 id ty), Hm.
Qed.

Lemma elem_of_CleanupUnlocked flags d s :
  s ∈ Slots (CleanupUnlocked flags d) → s ∈ Slots d.
Proof. simpl. intros H. by apply elem_of_filter_bool in H as [H _]. Qed.

Lemma UnsubscribeImpl_slots b id w b' ty' s :
  s ∈ Slots (dispatcher_of (UnsubscribeImpl b id w) b' ty') →
  s ∈ Slots (dispatcher_of w b' ty').
Proof.
  destruct (UnsubscribeImpl_dispatcher_of b id w b' ty') as [->| ->]; [done|].
  apply elem_of_CleanupUnlocked.
Qed.

Lemma Cleanup_slots b ty w b' ty' s :
  s ∈ Slots (dispatcher_of (Cleanup b ty w) b' ty') →
  s ∈ Slots (dispatcher_of w b' ty').
Proof.
  rewrite Cleanup_dispatcher_of. destruct (decide _) as [[-> ->]|]; [|done].
  apply elem_of_CleanupUnlocked.
Qed.

Lemma Cleanup_bus_NextId b ty w b' : NextId (bus (Cleanup b ty w) b') = NextId (bus w b').
Proof.
  unfold Cleanup. destruct (decide (b = b')) as [<-|Hne].
  - by rewrite bus_set_bus_eq.
  - by rewrite bus_set_bus_ne.
Qed.

Lemma Cleanup_bus_HandlerTypes b ty w b' :
  HandlerTypes (bus (Cleanup b ty w) b') = HandlerTypes (bus w b').
Proof.
  unfold Cleanup. destruct (decide (b = b')) as [<-|Hne].
  - by rewrite bus_set_bus_eq.
  - by rewrite bus_set_bus_ne.
Qed.

Lemma enter_bus_NextId b ty w b' :
  NextId (bus (set_bus b (GetDispatcher ty (bus w b)).2 w) b') = NextId (bus w b').
Proof.
  destruct (decide (b = b')) as [<-|Hne].
  - by rewrite bus_set_bus_eq, GetDispatcher_NextId.
  - by rewrite bus_set_bus_ne.
Qed.

Lemma enter_bus_HandlerTypes b ty w b' :
  HandlerTypes (bus (set_bus b (GetDispatcher ty (bus w b)).2 w) b')
  = HandlerTypes (bus w b').
Proof.
  destruct (decide (b = b')) as [<-|Hne].
  - by rewrite bus_set_bus_eq, GetDispatcher_HandlerTypes.
  - by rewrite bus_set_bus_ne.
Qed.

Lemma register_slots b ty pr h os w b' ty' s :
  s ∈ Slots (dispatcher_of (SubscribeImpl_register b ty pr h os w).2 b' ty') →
  s ∈ Slots (dispatcher_of w b' ty') ∨
  (b' = b ∧ ty' = ty ∧ s = new_slot b ty pr h os w).
Proof.
  destruct (decide (b' = b ∧ ty' = ty)) as [[-> ->]|Hne].
  - rewrite register_dispatcher_of_eq. simpl. intros H.
    apply stable_sort_elem, elem_of_app in H as [H|H]; [by left|].
    apply list_elem_of_singleton in H. by right.
  - rewrite register_dispatcher_of_ne by done. by left.
Qed.

Lemma register_HandlerTypes_inv b ty pr h os w id ty' :
  HandlerTypes (bus (SubscribeImpl_register b ty pr h os w).2 b) !! id = Some ty' →
  HandlerTypes (bus w b) !! id = Some ty' ∨ id = NextId (bus w b).
Proof.
  rewrite register_bus. unfold emplace_handler_type, with_dispatcher. simpl.
  rewrite GetDispatcher_HandlerTypes. simpl.
  destruct (HandlerTypes (bus w b) !! NextId (bus w b)) eqn:E; simpl.
  - by left.
  - destruct (decide (id = NextId (bus w b))) as [->|Hne]; [by right|].
    rewrite lookup_insert_ne by done. by left.
Qed.

Lemma fresh_inv_stable : stable fresh_inv.
Proof.
  split.
  - done.
  - intros b ty pr h os w Hw b'. cbv zeta.
    rewrite register_Trace, issued_by_app. simpl.
    destruct (decide (b = b')) as [<-|Hne].
    + rewrite bool_decide_eq_true_2 by done. rewrite length_app. simpl.
      intros Hlt.
      destruct (Hw b) as (H1 & H2 & H3); [cbv zeta; lia|].
      rewrite register_NextId, H1.
      rewrite N.mod_small by lia. split; [lia|]. split.
      * intros ty' s Hin.
        apply register_slots in Hin as [Hin|(_ & _ & ->)].
        -- specialize (H2 ty' s Hin). lia.
        -- simpl. lia.
      * intros id ty' Hid.
        apply register_HandlerTypes_inv in Hid as [Hid| ->].
        -- specialize (H3 id ty' Hid). lia.
        -- lia.
    + rewrite bool_decide_eq_false_2 by done. rewrite app_nil_r.
      rewrite register_bus_ne by done. intros Hlt.
      destruct (Hw b' Hlt) as (H1 & H2 & H3). split; [done|]. split; [|done].
      intros ty' s Hin. apply (H2 ty').
      apply register_slots in Hin as [Hin|(-> & _)]; [done|]. by destruct Hne.
  - intros b id w Hw.
    apply (fresh_inv_same (UnsubscribeImpl b id w)).
    + intros b'. simpl. rewrite issued_by_app. simpl. by rewrite app_nil_r.
    + done.
    + done.
    + done.
    + apply (fresh_inv_same w); [| | | |done].
      * intros b'. by rewrite UnsubscribeImpl_Trace.
      * intros b'. apply UnsubscribeImpl_NextId.
      * intros b' ty' s. apply UnsubscribeImpl_slots.
      * intros b' id' ty'. rewrite UnsubscribeImpl_HandlerTypes.
        destruct (decide (b = b')) as [<-|]; [|done].
        intros H. by apply lookup_delete_Some in H as [_ H].
  - intros b ty ev w Hw. apply (fresh_inv_same w); [| | | |done].
    + done.
    + intros b'. apply (enter_bus_NextId b ty w b').
    + intros b' ty' s.
      change (dispatcher_of (PushFrame ?f ?w') b' ty') with (dispatcher_of w' b' ty').
      by rewrite enter_dispatcher_of.
    + intros b' id ty'.
      change (bus (PushFrame ?f ?w') b') with (bus w' b').
      by rewrite enter_bus_HandlerTypes.
  - done.
  - intros slot ev via w Hw Hload. cbv zeta.
    apply (fresh_inv_same w); [| | | |done].
    + intros b. simpl. rewrite issued_by_app. simpl. rewrite app_nil_r.
      by destruct (IsOneShot slot).
    + intros b. by destruct (IsOneShot slot).
    + intros b ty s. by destruct (IsOneShot slot).
    + intros b id ty. by destruct (IsOneShot slot).
  - intros b ty w Hw. apply (fresh_inv_same w); [| | | |done].
    + done.
    + intros b'. apply Cleanup_bus_NextId.
    + intros b' ty' s. apply Cleanup_slots.
    + intros b' id ty'. by rewrite Cleanup_bus_HandlerTypes.
Qed.

Lemma wf_stable : stable wf.
Proof.
  destruct slots_inv_stable as [A1 A2 A3 A4 A5 A6 A7].
  destruct log_inv_stable as [B1 B2 B3 B4 B5 B6 B7].
  destruct fresh_inv_stable as [C1 C2 C3 C4 C5 C6 C7].
  split.
  - intros u w (?&?&?). split; [|split]; auto.
  - intros b ty pr h os w (?&?&?). split; [|split]; auto.
  - intros b id w (?&?&?). split; [|split]; auto.
  - intros b ty ev w (?&?&?). split; [|split]; auto.
  - intros w (?&?&?). split; [|split]; auto.
  - intros slot ev via w (?&?&?) Hl. split; [|split]; auto.
  - intros b ty w (?&?&?). split; [|split]; auto.
Qed.

Lemma wf_fresh_id w b ty :
  wf w → (N.of_nat (length (issued_by b (Trace w))) + 1 < SIZE_MOD)%N →
  HandlerTypes (bus w b) !! NextId (bus w b) = None ∧
  find_if (NextId (bus w b)) (Slots (dispatcher_of w b ty)) = None.
Proof.
  intros (_ & _ & Hf) Hlt. destruct (Hf b Hlt) as (_ & H2 & H3). split.
  - destruct (HandlerTypes (bus w b) !! NextId (bus w b)) as [ty'|] eqn:E; [|done].
    specialize (H3 _ _ E). lia.
  - apply find_if_None. intros s Hin Hid. specialize (H2 ty s Hin). lia.
Qed.

(** ** Subscription during a delivery *)

Lemma single_hits_app a (t : list (TraceEvent Payload)) e :
  single_hits a (t ++ [e]) = single_hits a t + (if is_single_hit a e then 1 else 0).
Proof. apply filter_length_app. Qed.

Lemma single_hits_le_hits a (t : list (TraceEvent Payload)) :
  single_hits a t ≤ hits a t.
Proof.
  unfold single_hits, hits. induction t as [|e t IH]; simpl; [done|].
  destruct e as [a' ? ? ? ? [] ?| |]; simpl; try done;
    destruct (bool_decide (a' = a)); simpl; lia.
Qed.

Lemma single_inv_same a b id w w' :
  length (Flags w') = length (Flags w) →
  (∀ b' ty' s, s ∈ Slots (dispatcher_of w' b' ty') →
               s ∈ Slots (dispatcher_of w b' ty')) →
  issued_by b (Trace w') = issued_by b (Trace w) →
  NextId (bus w' b) = NextId (bus w b) →
  single_hits a (Trace w') = single_hits a (Trace w) →
  single_inv a b id w → single_inv a b id w'.
Proof.
  intros Hl Hs Hi Hn Hh (H1 & H2 & H3). unfold single_inv.
  rewrite Hl, Hi, Hn, Hh. split; [done|]. split; [|done].
  intros b' ty' s Hin. by apply (H2 b' ty' s), Hs.
Qed.

Lemma single_inv_register a b id b0 ty0 pr h os w :
  single_inv a b id w →
  single_inv a b id (SubscribeImpl_register b0 ty0 pr h os w).2.
Proof.
  intros (H1 & H2 & H3). unfold single_inv.
  rewrite register_Flags, register_Trace, issued_by_app, single_hits_app,
    length_app. simpl. rewrite Nat.add_0_r.
  split; [lia|]. split.
  - intros b' ty' s Hin Ha.
    apply register_slots in Hin as [Hin|(_ & _ & ->)]; [by apply (H2 b' ty' s)|].
    simpl in Ha. lia.
  - destruct (decide (b0 = b)) as [->|Hne].
    + rewrite bool_decide_eq_true_2 by done. rewrite length_app. simpl.
      intros Hlt. destruct H3 as (H3 & H4 & H5); [lia|].
      rewrite register_NextId, H3. rewrite N.mod_small by lia.
      split; [lia|]. split; [lia|done].
    + rewrite bool_decide_eq_false_2 by done. rewrite app_nil_r.
      by rewrite register_bus_ne.
Qed.

Lemma single_inv_stable a b id : stable_fine (single_inv a b id).
Proof.
  split.
  - done.
  - intros. by apply single_inv_register.
  - intros b0 id0 w Hw. apply (single_inv_same a b id w); [| | | | |done].
    + simpl. apply UnsubscribeImpl_length.
    + intros b' ty' s. apply UnsubscribeImpl_slots.
    + simpl. rewrite UnsubscribeImpl_Trace, issued_by_app. simpl.
      by rewrite app_nil_r.
    + apply UnsubscribeImpl_NextId.
    + simpl. rewrite UnsubscribeImpl_Trace, single_hits_app. simpl. lia.
  - intros b0 ty0 ev w Hw. apply (single_inv_same a b id w); [| | | | |done].
    + done.
    + intros b' ty' s.
      change (dispatcher_of (PushFrame ?f ?w') b' ty') with (dispatcher_of w' b' ty').
      by rewrite enter_dispatcher_of.
    + done.
    + apply (enter_bus_NextId b0 ty0 w b).
    + done.
  - done.
  - intros slot ev w Hw Hload. cbv zeta.
    apply (single_inv_same a b id w); [| | | | |done].
    + destruct (IsOneShot slot); [|done]. simpl. apply length_store.
    + intros b' ty' s. by destruct (IsOneShot slot).
    + simpl. rewrite issued_by_app. simpl. rewrite app_nil_r.
      by destruct (IsOneShot slot).
    + by destruct (IsOneShot slot).
    + simpl. rewrite single_hits_app. simpl. rewrite Nat.add_0_r.
      by destruct (IsOneShot slot).
  - intros b0 ty0 pr h os w fr slot Hw w1 Hfr Hfind Hload. cbv zeta.
    pose proof (single_inv_register a b id b0 ty0 pr h os w Hw) as Hw1.
    fold w1 in Hw1.
    apply find_if_Some in Hfind as [Hin Hid].
    set (w2 := if IsOneShot slot then claim slot w1 else w1).
    assert (length (Flags w2) = length (Flags w1)) as Hl2.
    { subst w2. destruct (IsOneShot slot); [|done]. simpl. apply length_store. }
    assert (∀ b', bus w2 b' = bus w1 b') as Hb2
      by (intros; subst w2; by destruct (IsOneShot slot)).
    assert (Trace w2 = Trace w1) as Ht2
      by (subst w2; by destruct (IsOneShot slot)).
    destruct Hw1 as (Hlt1 & Hown1 & Hn1). unfold single_inv.
    split; [simpl; lia|]. split.
    { intros b' ty' s Hs. apply (Hown1 b' ty' s).
      subst w2. by destruct (IsOneShot slot). }
    simpl. rewrite Ht2, issued_by_app, single_hits_app. simpl.
    rewrite app_nil_r.
    change (bus (log ?e w2) b) with (bus w2 b). rewrite Hb2.
    intros Hlt. destruct (Hn1 Hlt) as (Hn1a & Hn1b & Hn1c).
    split; [done|]. split; [done|].
    rewrite bool_decide_eq_false_2; [lia|].
    intros Ha. destruct (Hown1 b0 ty0 slot Hin Ha) as [-> Hid'].
    destruct Hw as (_ & _ & Hn).
    subst w1. rewrite register_Trace, issued_by_app in Hlt. simpl in Hlt.
    rewrite bool_decide_eq_true_2, length_app in Hlt by done. simpl in Hlt.
    destruct Hn as (_ & Hn & _); [lia|]. lia.
  - intros b0 ty0 w Hw. apply (single_inv_same a b id w); [| | | | |done].
    + done.
    + intros b' ty' s. apply Cleanup_slots.
    + done.
    + apply Cleanup_bus_NextId.
    + done.
Qed.

Lemma load_alloc_new flags : load (flags ++ [true]) (length flags) = true.
Proof.
  unfold load. rewrite lookup_app_r by lia. by rewrite Nat.sub_diag.
Qed.

(** The frame selected is the innermost one for the bus and the type. *)
Lemma current_frame_innermost b ty (stack : list (TDispatchFrame Payload)) fr :
  current_frame b ty stack = Some fr →
  ∃ inner outer, stack = inner ++ fr :: outer ∧
    Forall (fun f => frame_matches b ty f = false) inner ∧
    frame_matches b ty fr = true.
Proof.
  unfold current_frame. induction stack as [|f stack IH]; simpl; [done|].
  destruct (frame_matches b ty f) eqn:E.
  - intros [= ->]. exists [], stack. by repeat split.
  - intros H. destruct (IH H) as (inner & outer & -> & Hall & Hfr).
    exists (f :: inner), outer. repeat split; [|done]. by constructor.
Qed.

(** [Subscribe] during a delivery of the event type, with a fresh
    identifier: the new slot is found and run by [InvokeSingle]. *)
Lemma run_CallSubscribe_in_flight fuel b ty pr os h k w fr :
  current_frame b ty (DispatchStack w) = Some fr →
  find_if (NextId (bus w b)) (Slots (dispatcher_of w b ty)) = None →
  let slot := new_slot b ty pr h os w in
  let w1 := (SubscribeImpl_register b ty pr h os w).2 in
  let w2 := if os then claim slot w1 else w1 in
  let w3 := log (invoked slot (Event fr) ViaInvokeSingle w2) w2 in
  run (S fuel) (CallSubscribe b ty pr os h k) w
  = match run fuel (h (Event fr)) w3 with
    | (Returned, w4) =>
        run fuel (k (NextId (bus w b))) (if os then Cleanup b ty w4 else w4)
    | (Raised, w4) => (Raised, if os then Cleanup b ty w4 else w4)
    | (OutOfFuel, w4) => (OutOfFuel, w4)
    end.
Proof.
  intros Hfr Hfresh slot w1 w2 w3. simpl.
  pose proof (register_id b ty pr h os w) as Hid.
  pose proof (register_DispatchStack b ty pr h os w) as Hst.
  pose proof (register_dispatcher_of_eq b ty pr h os w) as Hd.
  pose proof (register_Flags b ty pr h os w) as Hf.
  fold w1 in Hst, Hd, Hf. fold slot in Hd.
  assert (SubscribeImpl_register b ty pr h os w = (NextId (bus w b), w1)) as ->.
  { rewrite <- Hid. subst w1. apply surjective_pairing. }
  unfold NotifyCurrentDispatch. rewrite Hst, Hfr.
  destruct (current_frame_Some _ _ _ _ Hfr) as [-> ->].
  unfold InvokeSingle. rewrite Hd. cbn [Slots Subscribe].
  rewrite (find_if_new _ _ slot) by done.
  change (IsOneShot slot) with os. change (Active slot) with (length (Flags w)).
  change (CallbackV slot) with h.
  rewrite Hf, load_alloc_new. simpl.
  subst w3 w2. destruct os; simpl.
  - by destruct (run fuel _ _) as [[] w4].
  - by destruct (run fuel _ _) as [[] w4].
Qed.


(** The world at the start of the process is well formed. *)
Lemma wf_initial (u : U) : wf (initial u : World).
Proof.
  assert (∀ b ty, dispatcher_of (initial u : World) b ty = mkDispatcher [])
    as Hd.
  { intros b ty. unfold dispatcher_of, bus. simpl.
    rewrite lookup_empty. simpl. by rewrite lookup_empty. }
  split; [|split].
  - intros b ty. rewrite Hd. simpl. split; constructor.
  - constructor.
  - intros b. cbv zeta. simpl. intros _. unfold bus. simpl.
    rewrite lookup_empty. simpl. split; [done|]. split.
    + intros ty s Hin. rewrite Hd in Hin. by apply not_elem_of_nil in Hin.
    + intros id ty. by rewrite lookup_empty.
Qed.

(** ** Exceptions during a delivery (current revision) *)

Lemma deeper_not_own_oneshot n e : deeper n e → is_own_oneshot n e = false.
Proof.
  destruct e as [? ? ? os ? [] depth| |]; simpl; try done.
  intros [H|[_ H]]; [|done]. rewrite bool_decide_eq_false_2 by lia.
  by destruct os.
Qed.

(** The loop of [Dispatch]: when it ends with [NeedCleanup] false it has
    claimed no one-shot slot; when a callback throws, the loop stops at
    that slot, and no slot after it in the snapshot is invoked. *)
Lemma Dispatch_loop_outcome exec ev snapshot nc w :
  scoped exec →
  let r := Dispatch_loop exec ev snapshot nc w in
  let d := length (DispatchStack w) in
  ∃ suf, Trace r.2 = Trace w ++ suf ∧
    (r.1.2 = false →
     nc = false ∧ Forall (fun e => is_own_oneshot d e = false) suf) ∧
    (r.1.1 = Raised →
     ∃ pre s rest, snapshot = pre ++ s :: rest ∧
       own_invocations d suf `sublist_of` map slot_key (pre ++ [s]) ∧
       last (own_invocations d suf) = Some (slot_key s)).
Proof.
  intros Hexec. revert nc w.
  induction snapshot as [|slot rest IH]; intros nc w; simpl.
  { exists []. rewrite app_nil_r. split; [done|]. split; [|done].
    intros ->. split; [done|constructor]. }
  set (d := length (DispatchStack w)).
  assert (∀ nc' w', Trace w' = Trace w → DispatchStack w' = DispatchStack w →
    (nc' = false → nc = false) →
    ∃ suf, Trace (Dispatch_loop exec ev rest nc' w').2 = Trace w ++ suf ∧
      ((Dispatch_loop exec ev rest nc' w').1.2 = false →
       nc = false ∧ Forall (fun e => is_own_oneshot d e = false) suf) ∧
      ((Dispatch_loop exec ev rest nc' w').1.1 = Raised →
       ∃ pre s rest', slot :: rest = pre ++ s :: rest' ∧
         own_invocations d suf `sublist_of` map slot_key (pre ++ [s]) ∧
         last (own_invocations d suf) = Some (slot_key s))) as Hskip.
  { intros nc' w' Ht Hs Hnc.
    destruct (IH nc' w') as (suf & H1 & H2 & H3). rewrite Ht, Hs in *.
    exists suf. split; [done|]. split.
    - intros H. destruct (H2 H) as [-> ?]. split; [by apply Hnc|done].
    - intros H. destruct (H3 H) as (pre & s & rest' & -> & Hsub & Hlast).
      exists (slot :: pre), s, rest'. split; [done|]. split; [|done].
      simpl. by apply sublist_cons. }
  assert (∀ (nc' : bool) w1,
    DispatchStack w1 = DispatchStack w → Trace w1 = Trace w →
    (nc' = false → nc = false ∧ IsOneShot slot = false) →
    let r := match exec (CallbackV slot ev) (log (invoked slot ev ViaDispatch w1) w1) with
             | (Returned, w2) => Dispatch_loop exec ev rest nc' w2
             | (st, w2) => (st, nc', w2)
             end in
    ∃ suf, Trace r.2 = Trace w ++ suf ∧
      (r.1.2 = false →
       nc = false ∧ Forall (fun e => is_own_oneshot d e = false) suf) ∧
      (r.1.1 = Raised →
       ∃ pre s rest', slot :: rest = pre ++ s :: rest' ∧
         own_invocations d suf `sublist_of` map slot_key (pre ++ [s]) ∧
         last (own_invocations d suf) = Some (slot_key s))) as Hcall.
  { intros nc' w1 Hs1 Ht1 Hnc.
    destruct (Hexec (CallbackV slot ev) (log (invoked slot ev ViaDispatch w1) w1))
      as [(suf & Hsuf & Hd) Hst].
    simpl in Hsuf, Hd, Hst. rewrite Hs1 in Hd, Hst. rewrite Ht1 in Hsuf.
    fold d in Hd.
    set (e0 := invoked slot ev ViaDispatch w1) in *.
    assert (own_invocations d (e0 :: suf) = [slot_key slot]) as Hown.
    { unfold own_invocations. simpl. rewrite Hs1. fold d.
      rewrite bool_decide_eq_true_2 by done.
      unfold slot_key. f_equal. apply (deeper_own_nil d suf Hd). }
    assert (nc' = false → Forall (fun e => is_own_oneshot d e = false) (e0 :: suf))
      as Hno.
    { intros H. destruct (Hnc H) as [_ Hos]. constructor.
      - simpl. by rewrite Hos.
      - eapply Forall_impl; [done|]. apply deeper_not_own_oneshot. }
    destruct (exec _ _) as [[] w2] eqn:E; cbn [fst snd] in *.
    - specialize (Hst ltac:(done)).
      destruct (IH nc' w2) as (suf2 & H1 & H2 & H3). rewrite Hst in *.
      fold d in H2, H3.
      exists ((e0 :: suf) ++ suf2). rewrite H1, Hsuf.
      split; [by rewrite <- !app_assoc|]. split.
      + intros H. destruct (H2 H) as [-> Hall]. destruct (Hnc eq_refl) as [-> _].
        split; [done|]. apply Forall_app. split; [by apply Hno|done].
      + intros H. destruct (H3 H) as (pre & s & rest' & -> & Hsub & Hlast).
        exists (slot :: pre), s, rest'. split; [done|].
        rewrite own_invocations_app, Hown. simpl. split.
        * by apply sublist_skip.
        * destruct (own_invocations d suf2); [done|]. done.
    - exists (e0 :: suf). rewrite Hsuf. split; [by rewrite <- !app_assoc|].
      split.
      + intros ->. destruct (Hnc eq_refl) as [-> _]. split; [done|]. by apply Hno.
      + intros _. exists [], slot, rest. split; [done|]. rewrite Hown. simpl.
        split; [|done]. apply sublist_skip, sublist_nil_l.
    - exists (e0 :: suf). rewrite Hsuf. split; [by rewrite <- !app_assoc|].
      split; [|done].
      intros ->. destruct (Hnc eq_refl) as [-> _]. split; [done|]. by apply Hno. }
  destruct (IsOneShot slot) eqn:Hos.
  - destruct (load (Flags w) (Active slot)); [|by apply Hskip].
    apply (Hcall true (claim slot w)); done.
  - destruct (load (Flags w) (Active slot)); simpl; [|by apply Hskip].
    by apply (Hcall nc w).
Qed.

Lemma oneshot_hits_elem a (t : list (TraceEvent Payload)) e :
  e ∈ t → is_oneshot_hit a e = true → 1 ≤ oneshot_hits a t.
Proof.
  intros Hin He. unfold oneshot_hits.
  assert (e ∈ List.filter (is_oneshot_hit a) t) as H.
  { apply list_elem_of_In, List.filter_In. split; [by apply list_elem_of_In|done]. }
  destruct (List.filter _ t); [by apply not_elem_of_nil in H|simpl; lia].
Qed.

Lemma Cleanup_slots_active b ty w s :
  s ∈ Slots (dispatcher_of (Cleanup b ty w) b ty) → load (Flags w) (Active s) = true.
Proof.
  rewrite Cleanup_dispatcher_of, decide_True by done. simpl.
  intros H. by apply elem_of_filter_bool in H as [_ H].
Qed.


(** ** Every slot still active after a delivery was invoked by it *)

Lemma alloc_stable n : stable (alloc n).
Proof.
  split; try done.
  - intros b ty pr h os w Hw. unfold alloc in *.
    rewrite register_Flags, length_app. lia.
  - intros b id w Hw. unfold alloc in *. simpl.
    by rewrite UnsubscribeImpl_length.
  - intros slot ev via w Hw Hl. cbv zeta. unfold alloc in *.
    destruct (IsOneShot slot); simpl; [|done]. by rewrite length_store.
Qed.

Lemma Dispatch_loop_reaches exec ev snapshot nc w :
  scoped exec → (∀ a n, keeps (dead a n) exec) → (∀ n, keeps (alloc n) exec) →
  Forall (fun s => Active s < length (Flags w)) snapshot →
  let r := Dispatch_loop exec ev snapshot nc w in
  let d := length (DispatchStack w) in
  r.1.1 = Returned →
  ∃ suf, Trace r.2 = Trace w ++ suf ∧
    ∀ s, s ∈ snapshot → load (Flags r.2) (Active s) = true →
         slot_key s ∈ own_invocations d suf.
Proof.
  intros Hexec Hdead Halloc. revert nc w.
  induction snapshot as [|slot rest IH]; intros nc w Hall; simpl.
  { intros _. exists []. rewrite app_nil_r. split; [done|].
    intros s Hs. by apply not_elem_of_nil in Hs. }
  apply Forall_cons in Hall as [Hslot Hrest].
  set (d := length (DispatchStack w)).
  assert (load (Flags w) (Active slot) = false →
    (Dispatch_loop exec ev rest nc w).1.1 = Returned →
    ∃ suf, Trace (Dispatch_loop exec ev rest nc w).2 = Trace w ++ suf ∧
      ∀ s, s ∈ slot :: rest →
           load (Flags (Dispatch_loop exec ev rest nc w).2) (Active s) = true →
           slot_key s ∈ own_invocations d suf) as Hskip.
  { intros Hl Hret. destruct (IH nc w Hrest Hret) as (suf & Ht & Hc).
    exists suf. split; [done|]. intros s Hs Hact.
    apply elem_of_cons in Hs as [->|Hs]; [|by apply Hc].
    assert (dead (Active slot) (hits (Active slot) (Trace w)) w) as Hd by done.
    apply (Dispatch_loop_keeps _ exec ev rest nc w (dead_stable _ _) (Hdead _ _))
      in Hd.
    destruct Hd as (_ & Hf & _). congruence. }
  assert (∀ (nc' : bool) w1,
    DispatchStack w1 = DispatchStack w → Trace w1 = Trace w →
    length (Flags w1) = length (Flags w) →
    let r := match exec (CallbackV slot ev) (log (invoked slot ev ViaDispatch w1) w1) with
             | (Returned, w2) => Dispatch_loop exec ev rest nc' w2
             | (st, w2) => (st, nc', w2)
             end in
    r.1.1 = Returned →
    ∃ suf, Trace r.2 = Trace w ++ suf ∧
      ∀ s, s ∈ slot :: rest → load (Flags r.2) (Active s) = true →
           slot_key s ∈ own_invocations d suf) as Hcall.
  { intros nc' w1 Hs1 Ht1 Hl1.
    set (e0 := invoked slot ev ViaDispatch w1).
    destruct (Hexec (CallbackV slot ev) (log e0 w1)) as [(suf & Hsuf & Hd) Hst].
    simpl in Hsuf, Hd, Hst. rewrite Hs1 in Hd, Hst. rewrite Ht1 in Hsuf.
    fold d in Hd.
    pose proof (Halloc (length (Flags w)) (CallbackV slot ev) (log e0 w1)) as Hal.
    unfold alloc in Hal. simpl in Hal. rewrite Hl1 in Hal.
    specialize (Hal (le_n _)).
    assert (own_invocations d (e0 :: suf) = [slot_key slot]) as Hown.
    { unfold own_invocations. simpl. rewrite Hs1. fold d.
      rewrite bool_decide_eq_true_2 by done.
      unfold slot_key. f_equal. apply (deeper_own_nil d suf Hd). }
    destruct (exec _ _) as [[] w2] eqn:E; cbn [fst snd] in *; [|done..].
    specialize (Hst ltac:(done)). intros Hret.
    assert (Forall (fun s => Active s < length (Flags w2)) rest) as Hrest2.
    { eapply Forall_impl; [exact Hrest|]. intros; simpl in *; lia. }
    destruct (IH nc' w2 Hrest2 Hret) as (suf2 & Ht2 & Hc). rewrite Hst in Hc.
    fold d in Hc.
    exists ((e0 :: suf) ++ suf2). rewrite Ht2, Hsuf.
    split; [by rewrite <- !app_assoc|].
    intros s Hs Hact. rewrite own_invocations_app, Hown.
    apply elem_of_cons in Hs as [->|Hs]; [apply list_elem_of_here|].
    apply list_elem_of_further. by apply Hc. }
  destruct (IsOneShot slot).
  - destruct (load (Flags w) (Active slot)) eqn:Hl; [|by apply Hskip].
    apply (Hcall true (claim slot w)); try done. simpl. apply length_store.
  - destruct (load (Flags w) (Active slot)) eqn:Hl; simpl; [|by apply Hskip].
    by apply (Hcall nc w).
Qed.

Lemma Dispatch_reaches fuel b ty ev w :
  slots_inv w →
  let r := TEventSystem_Dispatch (Dispatch (run fuel)) b ty ev w in
  let d := S (length (DispatchStack w)) in
  r.1 = Returned →
  ∃ suf, Trace r.2 = Trace w ++ suf ∧
    ∀ s, s ∈ Slots (dispatcher_of w b ty) →
         load (Flags r.2) (Active s) = true →
         slot_key s ∈ own_invocations d suf.
Proof.
  intros Hw r d. subst r. unfold TEventSystem_Dispatch, Dispatch.
  set (w1 := PushFrame (mkFrame b ty ev)
               (set_bus b (GetDispatcher ty (bus w b)).2 w)).
  assert (dispatcher_of w1 b ty = dispatcher_of w b ty) as Hd
    by apply (enter_dispatcher_of b ty w b ty).
  rewrite Hd.
  destruct (Hw b ty) as [Hall _].
  pose proof (Dispatch_loop_reaches (run fuel) ev (Slots (dispatcher_of w b ty))
                false w1 (run_scoped fuel)
                (fun a n => run_keeps _ fuel (dead_stable a n))
                (fun n => run_keeps _ fuel (alloc_stable n)) Hall) as H.
  cbv zeta in H. change (length (DispatchStack w1)) with d in H.
  change (Trace w1) with (Trace w) in H.
  destruct (Dispatch_loop _ _ _ _ _) as [[st nc'] w2]. cbn [fst snd] in *.
  destruct st; cbn [fst snd]; try done. intros _.
  destruct (H eq_refl) as (suf & Ht & Hc). exists suf.
  split; [by destruct nc'|].
  intros s Hs Hact. apply Hc; [done|]. by destruct nc'.
Qed.

(** * Further properties of the engine *)

(** ** The frame stack *)

(** X3.  A call into the bus that terminates, by return or by
    exception, leaves the thread's [DispatchStack] as it found it: the
    frame guard of [TEventSystem::Dispatch] pops on both exits.  The log
    is only extended. *)
Theorem run_restores_DispatchStack fuel p w :
  (∃ suf, Trace (run fuel p w).2 = Trace w ++ suf) ∧
  ((run fuel p w).1 = Returned ∨ (run fuel p w).1 = Raised →
   DispatchStack (run fuel p w).2 = DispatchStack w).
Proof.
  destruct (run_scoped fuel p w) as [(suf & Hsuf & _) Hst]. split.
  - by exists suf.
  - intros Hr. apply Hst. by destruct Hr as [-> | ->].
Qed.

(** ** Delivery when nobody listens *)

Lemma Dispatch_loop_inactive exec ev snapshot nc w :
  Forall (fun s => load (Flags w) (Active s) = false) snapshot →
  Dispatch_loop exec ev snapshot nc w = (Returned, nc, w).
Proof.
  induction 1 as [|s rest Hs _ IH]; simpl; [done|].
  rewrite Hs. simpl. by destruct (IsOneShot s).
Qed.

Lemma Count_0 flags d :
  Count flags d = 0 → Forall (fun s => load flags (Active s) = false) (Slots d).
Proof.
  unfold Count. induction (Slots d) as [|s l IH]; simpl; [by constructor|].
  destruct (load flags (Active s)) eqn:E; simpl; [done|].
  intros H. constructor; [done|]. by apply IH.
Qed.

Lemma PopFrame_PushFrame (fr : TDispatchFrame Payload) w : PopFrame (PushFrame fr w) = w.
Proof. by destruct w. Qed.

(** X5.  Publishing an event for which the bus has no active handler
    (no dispatcher for the type yet, an empty slot list, or only
    inactive slots) invokes nothing and returns normally; the only
    effect is that the bus now holds a dispatcher for the type. *)
Theorem Dispatch_without_handlers b ty ev w :
  GetHandlerCount b ty w = 0 →
  let w' := set_bus b (GetDispatcher ty (bus w b)).2 w in
  (∀ fuel, TEventSystem_Dispatch (Dispatch (run fuel)) b ty ev w = (Returned, w')) ∧
  (∀ fuel k, run (S fuel) (CallDispatch b ty ev k) w = run fuel k w') ∧
  Trace w' = Trace w ∧ Flags w' = Flags w ∧ UserState w' = UserState w ∧
  DispatchStack w' = DispatchStack w ∧
  is_Some (Dispatchers (bus w' b) !! ty) ∧
  (∀ b' ty', dispatcher_of w' b' ty' = dispatcher_of w b' ty').
Proof.
  intros H0 w'.
  assert (∀ fuel, TEventSystem_Dispatch (Dispatch (run fuel)) b ty ev w
                  = (Returned, w')) as Hd.
  { intros fuel. unfold TEventSystem_Dispatch, Dispatch. fold w'.
    rewrite GetHandlerCount_Count in H0. apply Count_0 in H0.
    rewrite (Dispatch_loop_inactive (run fuel) ev _ false (PushFrame _ w')).
    - by rewrite PopFrame_PushFrame.
    - change (dispatcher_of (PushFrame (mkFrame b ty ev) w') b ty)
        with (dispatcher_of w' b ty).
      unfold w'. by rewrite enter_dispatcher_of. }
  split; [done|]. split.
  { intros fuel k. simpl. by rewrite Hd. }
  repeat split; try done.
  - unfold w'. rewrite bus_set_bus_eq. apply GetDispatcher_is_Some.
  - intros b' ty'. apply enter_dispatcher_of.
Qed.

(** ** Where [Subscribe] puts a slot *)

Lemma stable_insert_front x (l : list TSlot) :
  Forall (fun s => prio_ge x s) l → stable_insert x l = x :: l.
Proof.
  destruct 1 as [|y l Hy _]; simpl; [done|].
  unfold prio_gt. rewrite bool_decide_eq_false_2; [done|].
  unfold prio_ge in Hy. lia.
Qed.

Lemma stable_sort_snoc x (l : list TSlot) :
  StronglySorted prio_ge l →
  ∃ l1 l2, l = l1 ++ l2 ∧ stable_sort (l ++ [x]) = l1 ++ x :: l2 ∧
    Forall (fun s => prio_ge s x) l1 ∧
    Forall (fun s => (priority_int (Priority s) < priority_int (Priority x))%Z) l2.
Proof.
  induction 1 as [|y l Hl IH Hy]; simpl.
  - exists [], []. by repeat split.
  - destruct IH as (l1 & l2 & -> & -> & H1 & H2).
    destruct l1 as [|z l1]; simpl.
    + destruct (prio_gt x y) eqn:E.
      * exists [], (y :: l2). rewrite stable_insert_front by done.
        apply prio_gt_spec in E.
        repeat split; [by constructor|]. constructor; [lia|done].
      * exists [y], l2. repeat split; [|done].
        constructor; [|done]. unfold prio_ge.
        apply bool_decide_eq_false in E. lia.
    + assert (prio_gt z y = false) as E.
      { apply Forall_cons in Hy as [Hz _]. unfold prio_gt.
        apply bool_decide_eq_false_2. unfold prio_ge in Hz. lia. }
      rewrite E. exists (y :: z :: l1), l2. repeat split; [|done].
      constructor; [|done].
      apply Forall_cons in H1 as [Hzx _], Hy as [Hyz _].
      unfold prio_ge in *. lia.
Qed.

(** X6.  [Subscribe] on a list that is in priority order puts the new
    slot behind every slot of its own or a higher priority and in front
    of every slot of a lower priority, and leaves the other slots in the
    order they had. *)
Theorem Subscribe_position slot d :
  StronglySorted prio_ge (Slots d) →
  ∃ l1 l2, Slots d = l1 ++ l2 ∧
    Slots (Subscribe slot d) = l1 ++ slot :: l2 ∧
    Forall (fun s => (priority_int (Priority slot) ≤ priority_int (Priority s))%Z) l1 ∧
    Forall (fun s => (priority_int (Priority s) < priority_int (Priority slot))%Z) l2 ∧
    StronglySorted prio_ge (Slots (Subscribe slot d)).
Proof.
  intros Hs. destruct (stable_sort_snoc slot (Slots d) Hs)
    as (l1 & l2 & E1 & E2 & H1 & H2).
  exists l1, l2. repeat split; try done. apply stable_sort_prio_sorted.
Qed.

(** ** Scoped registration: construction and moves *)

(** X7.  A default-constructed connection, a connection with the
    identifier 0 and a moved-from connection unsubscribe nothing when
    they are destroyed; the object built by the move constructor
    unsubscribes what the source would have, so the pair (new object,
    moved-from source) unsubscribes once. *)
Theorem move_construct_transfers (c : TScopedConnection) w b :
  destroy TScopedConnection_default w = w ∧
  destroy (TScopedConnection_new b 0%N) w = w ∧
  (∀ id, id ≠ 0%N →
         destroy (TScopedConnection_new b id) w = UnsubscribeImpl b id w) ∧
  destroy (move_construct c).2 w = w ∧
  destroy (move_construct c).1 w = destroy c w ∧
  destroy (move_construct c).2 (destroy (move_construct c).1 w) = destroy c w ∧
  (Disconnect (move_construct c).1 w).1 = (Disconnect c w).1 ∧
  destroy (Disconnect c w).1 (Disconnect c w).2 = destroy c w.
Proof.
  assert (destroy (move_construct c).1 w = destroy c w) as Hmove
    by by destruct c.
  repeat split; try done.
  - intros id Hid. unfold destroy, Disconnect. simpl.
    by rewrite bool_decide_eq_true_2.
  - by destruct c.
  - unfold destroy. by rewrite Disconnect_twice.
Qed.


(** ** Identifiers in use were issued *)

Lemma keys_inv_same w w' :
  (∀ b, issued_by b (Trace w') = issued_by b (Trace w)) →
  (∀ b ty s, s ∈ Slots (dispatcher_of w' b ty) → s ∈ Slots (dispatcher_of w b ty)) →
  (∀ b id ty, HandlerTypes (bus w' b) !! id = Some ty →
              HandlerTypes (bus w b) !! id = Some ty) →
  keys_inv w → keys_inv w'.
Proof.
  intros Ht Hs Hk Hw b. destruct (Hw b) as [H1 H2]. rewrite Ht. split.
  - intros id ty Hid. eapply H1. by apply Hk.
  - intros ty s Hin. eapply H2. by apply Hs.
Qed.

Lemma keys_inv_stable : stable keys_inv.
Proof.
  split.
  - done.
  - intros b ty pr h os w Hw b'.
    rewrite register_Trace, issued_by_app. simpl.
    destruct (Hw b') as [H1 H2].
    destruct (decide (b = b')) as [<-|Hne].
    + rewrite bool_decide_eq_true_2 by done. split.
      * intros id ty' Hid. apply elem_of_app.
        apply register_HandlerTypes_inv in Hid as [Hid| ->].
        -- left. by eapply H1.
        -- right. by apply list_elem_of_singleton.
      * intros ty' s Hin. apply elem_of_app.
        apply register_slots in Hin as [Hin|(_ & _ & ->)].
        -- left. by eapply H2.
        -- right. by apply list_elem_of_singleton.
    + rewrite bool_decide_eq_false_2 by done. rewrite app_nil_r.
      rewrite register_bus_ne by done. split; [done|].
      intros ty' s Hin. apply (H2 ty').
      apply register_slots in Hin as [Hin|(-> & _)]; [done|]. by destruct Hne.
  - intros b id w Hw.
    apply (keys_inv_same (UnsubscribeImpl b id w)).
    + intros b'. simpl. rewrite issued_by_app. simpl. by rewrite app_nil_r.
    + done.
    + done.
    + apply (keys_inv_same w); [| | |done].
      * intros b'. by rewrite UnsubscribeImpl_Trace.
      * intros b' ty' s. apply UnsubscribeImpl_slots.
      * intros b' id' ty'. rewrite UnsubscribeImpl_HandlerTypes.
        destruct (decide (b = b')) as [<-|]; [|done].
        intros H. by apply lookup_delete_Some in H as [_ H].
  - intros b ty ev w Hw. apply (keys_inv_same w); [| | |done].
    + done.
    + intros b' ty' s.
      change (dispatcher_of (PushFrame ?f ?w') b' ty') with (dispatcher_of w' b' ty').
      by rewrite enter_dispatcher_of.
    + intros b' id ty'.
      change (bus (PushFrame ?f ?w') b') with (bus w' b').
      by rewrite enter_bus_HandlerTypes.
  - done.
  - intros slot ev via w Hw Hload. cbv zeta.
    apply (keys_inv_same w); [| | |done].
    + intros b. simpl. rewrite issued_by_app. simpl. rewrite app_nil_r.
      by destruct (IsOneShot slot).
    + intros b ty s. by destruct (IsOneShot slot).
    + intros b id ty. by destruct (IsOneShot slot).
  - intros b ty w Hw. apply (keys_inv_same w); [| | |done].
    + done.
    + intros b' ty' s. apply Cleanup_slots.
    + intros b' id ty'. by rewrite Cleanup_bus_HandlerTypes.
Qed.

Lemma dispatcher_of_initial (u : U) b ty :
  dispatcher_of (initial u : World) b ty = mkDispatcher [].
Proof.
  unfold dispatcher_of, bus. simpl. rewrite lookup_empty. simpl.
  by rewrite lookup_empty.
Qed.

Lemma keys_inv_initial (u : U) : keys_inv (initial u : World).
Proof.
  intros b. split.
  - intros id ty. unfold bus. simpl. rewrite lookup_empty. simpl.
    by rewrite lookup_empty.
  - intros ty s. rewrite dispatcher_of_initial. simpl.
    intros H. by apply not_elem_of_nil in H.
Qed.

Lemma ids_inv_initial (u : U) : ids_inv (initial u : World).
Proof. intros b. simpl. unfold bus. simpl. by rewrite lookup_empty. Qed.

(** X8.  In every world reached from the start of the process,
    [Unsubscribe] with an identifier that the bus has not issued changes
    nothing: no entry of [HandlerTypes] and no slot carries it.  This
    holds for the identifier 0 while the bus has issued fewer than 2^64
    identifiers. *)
Theorem Unsubscribe_unissued_noop fuel p (u : U) b id :
  let w := (run fuel p (initial u)).2 in
  (id ∉ issued_by b (Trace w)) ∨
    (id = 0%N ∧ (N.of_nat (length (issued_by b (Trace w))) < SIZE_MOD)%N) →
  HandlerTypes (bus w b) !! id = None ∧
  (∀ ty, find_if id (Slots (dispatcher_of w b ty)) = None) ∧
  UnsubscribeImpl b id w = w ∧
  (∀ fuel' k, run (S fuel') (CallUnsubscribe b id k) w
              = run fuel' k (log (Unsubscribed b id) w)).
Proof.
  intros w Hid.
  assert (keys_inv w) as Hk
    by apply (run_keeps keys_inv fuel keys_inv_stable), keys_inv_initial.
  assert (ids_inv w) as Hi
    by apply (run_keeps ids_inv fuel ids_inv_stable), ids_inv_initial.
  assert (id ∉ issued_by b (Trace w)) as Hn.
  { destruct Hid as [H|[-> Hlt]]; [done|].
    destruct (Hi b) as [_ H2]. rewrite (H2 Hlt). intros Hin.
    apply list_elem_of_fmap in Hin as (y & Hy & Hin).
    apply list_elem_of_In, in_seq in Hin. lia. }
  destruct (Hk b) as [H1 H2].
  assert (HandlerTypes (bus w b) !! id = None) as Hnone.
  { destruct (HandlerTypes (bus w b) !! id) as [ty|] eqn:E; [|done].
    destruct Hn. by eapply H1. }
  split; [done|]. split.
  { intros ty. apply find_if_None. intros s Hin <-. destruct Hn. by eapply H2. }
  assert (UnsubscribeImpl b id w = w) as Hu by by apply UnsubscribeImpl_unknown.
  split; [done|]. intros fuel' k. simpl. by rewrite Hu.
Qed.

(** ** Flags are not shared *)

Lemma NoDup_map_filter_bool {A B} (g : A → B) (f : A → bool) (l : list A) :
  NoDup (map g l) → NoDup (map g (List.filter f l)).
Proof.
  induction l as [|x l IH]; simpl; [done|].
  intros H. apply NoDup_cons in H as [Hx Hl].
  destruct (f x); simpl; [|by apply IH].
  apply NoDup_cons. split; [|by apply IH].
  intros Hin. apply Hx.
  apply list_elem_of_fmap in Hin as (y & -> & Hy).
  apply list_elem_of_fmap. exists y. split; [done|].
  apply list_elem_of_In, List.filter_In in Hy as [Hy _].
  by apply list_elem_of_In.
Qed.

Lemma NoDup_fmap_elem {A B} (g : A → B) (l : list A) x y :
  NoDup (map g l) → x ∈ l → y ∈ l → g x = g y → x = y.
Proof.
  induction l as [|z l IH]; simpl; intros Hnd Hx Hy E.
  { by apply not_elem_of_nil in Hx. }
  apply NoDup_cons in Hnd as [Hz Hnd].
  apply elem_of_cons in Hx as [->|Hx]; apply elem_of_cons in Hy as [->|Hy].
  - done.
  - destruct Hz. rewrite E. apply list_elem_of_fmap. by exists y.
  - destruct Hz. rewrite <- E. apply list_elem_of_fmap. by exists x.
  - by apply IH.
Qed.

Lemma owned_filter w w' :
  length (Flags w') = length (Flags w) →
  (∀ b ty, dispatcher_of w' b ty = dispatcher_of w b ty ∨
           ∃ f, Slots (dispatcher_of w' b ty)
                = List.filter f (Slots (dispatcher_of w b ty))) →
  owned w → owned w'.
Proof.
  intros Hlen Hd Hw.
  assert (∀ b ty s, s ∈ Slots (dispatcher_of w' b ty) →
                    s ∈ Slots (dispatcher_of w b ty)) as Hsub.
  { intros b ty s. destruct (Hd b ty) as [->|[f ->]]; [done|].
    intros H. by apply elem_of_filter_bool in H as [H _]. }
  intros b ty. destruct (Hw b ty) as (H1 & H2 & H3). rewrite Hlen.
  split; [|split].
  - destruct (Hd b ty) as [->|[f ->]]; [done|]. by apply Forall_filter_bool.
  - destruct (Hd b ty) as [->|[f ->]]; [done|]. by apply NoDup_map_filter_bool.
  - intros b' ty' s s' Hs Hs'. apply H3; by apply Hsub.
Qed.

Lemma stable_insert_Permutation x (l : list TSlot) : stable_insert x l ≡ₚ x :: l.
Proof.
  induction l as [|y l IH]; simpl; [done|].
  destruct (prio_gt y x); [|done]. rewrite IH. apply Permutation_swap.
Qed.

Lemma stable_sort_Permutation (l : list TSlot) : stable_sort l ≡ₚ l.
Proof.
  induction l as [|x l IH]; simpl; [done|].
  by rewrite stable_insert_Permutation, IH.
Qed.

Lemma owned_stable : stable owned.
Proof.
  split.
  - done.
  - intros b ty pr h os w Hw b' ty'. rewrite register_Flags, length_app. simpl.
    assert (∀ b1 ty1 s, s ∈ Slots (dispatcher_of w b1 ty1) →
                        Active s < length (Flags w)) as Hlt.
    { intros b1 ty1 s Hin. destruct (Hw b1 ty1) as (H1 & _).
      by eapply Forall_forall in H1. }
    split; [|split].
    + apply Forall_forall. intros s Hin.
      apply register_slots in Hin as [Hin|(_ & _ & ->)].
      * apply Hlt in Hin. lia.
      * simpl. lia.
    + destruct (decide (b' = b ∧ ty' = ty)) as [[-> ->]|Hne].
      * rewrite register_dispatcher_of_eq. simpl.
        rewrite stable_sort_Permutation, map_app. simpl.
        apply NoDup_app. destruct (Hw b ty) as (_ & H2 & _).
        split; [done|]. split; [|apply NoDup_singleton].
        intros a Ha Ha'. apply list_elem_of_singleton in Ha'. subst a.
        apply list_elem_of_fmap in Ha as (s & Hs & Hin).
        apply Hlt in Hin. lia.
      * rewrite register_dispatcher_of_ne by done. by destruct (Hw b' ty') as (_ & H2 & _).
    + intros b'' ty'' s s' Hs Hs' Heq.
      apply register_slots in Hs as [Hs|(-> & -> & ->)];
        apply register_slots in Hs' as [Hs'|(-> & -> & ->)].
      * destruct (Hw b' ty') as (_ & _ & H3). by eapply H3.
      * apply Hlt in Hs. simpl in Heq. lia.
      * apply Hlt in Hs'. simpl in Heq. lia.
      * done.
  - intros b id w Hw.
    apply (owned_filter (UnsubscribeImpl b id w)).
    + done.
    + intros b' ty'. by left.
    + apply (owned_filter w); [by rewrite UnsubscribeImpl_length| |done].
      intros b' ty'.
      destruct (UnsubscribeImpl_dispatcher_of b id w b' ty') as [->| ->];
        [by left|]. right. by eexists.
  - intros b ty ev w Hw. apply (owned_filter w); [done| |done].
    intros b' ty'. left.
    apply (enter_dispatcher_of b ty w b' ty').
  - done.
  - intros slot ev via w Hw Hload. cbv zeta.
    apply (owned_filter w); [|by left; destruct (IsOneShot slot)|done].
    destruct (IsOneShot slot); [|done]. simpl. apply length_store.
  - intros b ty w Hw. apply (owned_filter w); [done| |done].
    intros b' ty'. rewrite Cleanup_dispatcher_of.
    destruct (decide _) as [[-> ->]|]; [|by left].
    right. by eexists.
Qed.

Lemma owned_initial (u : U) : owned (initial u : World).
Proof.
  intros b ty. rewrite dispatcher_of_initial. simpl.
  split; [constructor|]. split; [constructor|].
  intros b' ty' s s' H. by apply not_elem_of_nil in H.
Qed.

(** ** The exact effect of [Subscribe] and [Unsubscribe] on the counts *)

Lemma dispatcher_of_set_flags flags w b ty :
  dispatcher_of (set_flags flags w) b ty = dispatcher_of w b ty.
Proof. done. Qed.

Lemma UnsubscribeImpl_cases b id w :
  let w' := UnsubscribeImpl b id w in
  (Flags w' = Flags w ∧
   (∀ b' ty', dispatcher_of w' b' ty' = dispatcher_of w b' ty') ∧
   (∀ ty, HandlerTypes (bus w b) !! id = Some ty →
          find_if id (Slots (dispatcher_of w b ty)) = None)) ∨
  (∃ ty tgt, HandlerTypes (bus w b) !! id = Some ty ∧
     find_if id (Slots (dispatcher_of w b ty)) = Some tgt ∧
     Flags w' = store_false (Flags w) (Active tgt) ∧
     dispatcher_of w' b ty = CleanupUnlocked (Flags w') (dispatcher_of w b ty) ∧
     ∀ b' ty', ¬ (b' = b ∧ ty' = ty) →
               dispatcher_of w' b' ty' = dispatcher_of w b' ty').
Proof.
  intros w'. unfold w', UnsubscribeImpl.
  destruct (HandlerTypes (bus w b) !! id) as [ty|] eqn:Hty.
  2:{ left. by repeat split. }
  cbv zeta. cbn [Dispatchers HandlerTypes NextId].
  destruct (Dispatchers (bus w b) !! ty) as [d|] eqn:Hd.
  2:{ left. split; [done|]. split.
      - intros b' ty'. rewrite dispatcher_of_set_bus.
        destruct (decide (b = b')) as [<-|]; [|done]. done.
      - intros ty0 [= <-]. unfold dispatcher_of. by rewrite Hd. }
  assert (dispatcher_of w b ty = d) as Hdof by (unfold dispatcher_of; by rewrite Hd).
  unfold Remove. destruct (find_if id (Slots d)) as [tgt|] eqn:Hfind.
  - right. exists ty, tgt. rewrite Hdof. split; [done|]. split; [done|].
    cbn [Flags set_flags]. split; [done|]. split.
    + rewrite dispatcher_of_set_flags, set_bus_set_bus, dispatcher_of_set_bus.
      rewrite decide_True by done. simpl. by rewrite lookup_insert_eq.
    + intros b' ty' Hne.
      rewrite dispatcher_of_set_flags, set_bus_set_bus, dispatcher_of_set_bus.
      destruct (decide (b = b')) as [<-|]; [|done]. simpl.
      rewrite lookup_insert_ne; [done|]. intros ->. by apply Hne.
  - left. cbn [Flags set_flags]. split; [done|]. split.
    + intros b' ty'.
      rewrite dispatcher_of_set_flags, set_bus_set_bus, dispatcher_of_set_bus.
      destruct (decide (b = b')) as [<-|]; [|done]. simpl.
      destruct (decide (ty = ty')) as [<-|].
      * by rewrite lookup_insert_eq.
      * by rewrite lookup_insert_ne.
    + intros ty0 [= <-]. by rewrite Hdof.
Qed.

Lemma Count_store_false flags (l : list TSlot) (tgt : TSlot) :
  NoDup (map Active l) → tgt ∈ l → load flags (Active tgt) = true →
  S (length (List.filter (fun s => load (store_false flags (Active tgt)) (Active s)) l))
  = length (List.filter (fun s => load flags (Active s)) l).
Proof.
  induction l as [|x l IH]; simpl; intros Hnd Hin Hl.
  { by apply not_elem_of_nil in Hin. }
  apply NoDup_cons in Hnd as [Hx Hnd].
  destruct (decide (Active x = Active tgt)) as [E|E].
  - rewrite E, load_store_same, Hl. simpl. f_equal.
    f_equal. apply List.filter_ext_in. intros s Hs.
    apply load_store_other. intros E'. apply Hx. rewrite E, E'.
    apply list_elem_of_fmap. exists s. split; [done|]. by apply list_elem_of_In.
  - rewrite load_store_other by done.
    apply elem_of_cons in Hin as [->|Hin]; [done|].
    destruct (load flags (Active x)); simpl; [f_equal|]; by apply IH.
Qed.

(** X9.  A subscription made while no delivery of that event type is
    in flight on the bus invokes nothing: the call takes the next
    identifier, adds one to the count of active handlers for the type
    and leaves every other count as it was. *)
Theorem Subscribe_idle_adds_one b ty pr os h w :
  slots_inv w →
  current_frame b ty (DispatchStack w) = None →
  let id := NextId (bus w b) in
  let w1 := (SubscribeImpl_register b ty pr h os w).2 in
  (∀ fuel k, run (S fuel) (CallSubscribe b ty pr os h k) w = run fuel (k id) w1) ∧
  GetHandlerCount b ty w1 = S (GetHandlerCount b ty w) ∧
  (∀ b' ty', ¬ (b' = b ∧ ty' = ty) →
             GetHandlerCount b' ty' w1 = GetHandlerCount b' ty' w) ∧
  Trace w1 = Trace w ++ [Issued b id] ∧
  UserState w1 = UserState w ∧ DispatchStack w1 = DispatchStack w.
Proof.
  intros Hw Hidle id w1.
  assert (∀ b' ty' , Count (Flags w ++ [true]) (dispatcher_of w b' ty')
                     = Count (Flags w) (dispatcher_of w b' ty')) as Hc.
  { intros b' ty'. apply Count_ext. intros s Hin. apply load_alloc.
    destruct (Hw b' ty') as [H1 _]. by eapply Forall_forall in H1. }
  split; [|split; [|split; [|split; [|split]]]].
  - intros fuel k. by apply run_CallSubscribe_idle.
  - rewrite !GetHandlerCount_Count. unfold w1.
    rewrite register_Flags, register_dispatcher_of_eq, <- Hc.
    unfold Count, Subscribe. cbn [Slots].
    rewrite stable_sort_count, filter_length_app. simpl.
    rewrite load_alloc_new. lia.
  - intros b' ty' Hne. rewrite !GetHandlerCount_Count. unfold w1.
    by rewrite register_Flags, register_dispatcher_of_ne.
  - apply register_Trace.
  - unfold w1, SubscribeImpl_register, fetch_add. by destruct (GetDispatcher _ _).
  - apply register_DispatchStack.
Qed.

(** X10.  [Unsubscribe] with the identifier of an active handler whose
    closure owns nothing that acts on a bus when it is destroyed (see
    [Callback]) takes exactly that handler out: the count of active
    handlers for its event type drops by one, every other count is
    unchanged, the slot is gone from the list and every other active
    slot stays. *)
Theorem Unsubscribe_removes_one b id ty target w :
  owned w →
  HandlerTypes (bus w b) !! id = Some ty →
  find_if id (Slots (dispatcher_of w b ty)) = Some target →
  load (Flags w) (Active target) = true →
  let w' := UnsubscribeImpl b id w in
  S (GetHandlerCount b ty w') = GetHandlerCount b ty w ∧
  (∀ b' ty', ¬ (b' = b ∧ ty' = ty) →
             GetHandlerCount b' ty' w' = GetHandlerCount b' ty' w) ∧
  (target ∉ Slots (dispatcher_of w' b ty)) ∧
  (∀ s, s ∈ Slots (dispatcher_of w b ty) → s ≠ target →
        load (Flags w) (Active s) = true → s ∈ Slots (dispatcher_of w' b ty)) ∧
  HandlerTypes (bus w' b) !! id = None.
Proof.
  intros Hw Hty Hfind Hload w'.
  destruct (UnsubscribeImpl_cases b id w)
    as [(_ & _ & Hnone)|(ty0 & tgt & Hty0 & Hfind0 & Hfl & Hd & Hother)].
  { specialize (Hnone ty Hty). congruence. }
  fold w' in Hfl, Hd, Hother.
  assert (ty0 = ty) as -> by congruence.
  assert (tgt = target) as -> by congruence.
  apply find_if_Some in Hfind as [Hin _].
  destruct (Hw b ty) as (_ & Hnd & Hcross).
  split; [|split; [|split; [|split]]].
  - rewrite !GetHandlerCount_Count, Hd, Count_CleanupUnlocked, Hfl.
    by apply Count_store_false.
  - intros b' ty' Hne. rewrite !GetHandlerCount_Count, Hother by done.
    apply Count_ext. intros s Hs. rewrite Hfl. apply load_store_other.
    intros E. apply Hne. by eapply Hcross.
  - rewrite Hd. intros H. apply elem_of_filter_bool in H as [_ H].
    rewrite Hfl, load_store_same in H. done.
  - intros s Hs Hne Hl. rewrite Hd. apply elem_of_filter_bool. split; [done|].
    rewrite Hfl, load_store_other; [done|]. intros E. apply Hne.
    by apply (NoDup_fmap_elem Active (Slots (dispatcher_of w b ty))).
  - apply UnsubscribeImpl_erases.
Qed.


(** ** Claimed and removed slots do not stay in the lists *)

Lemma grown_stable L n : stable (fun w => alloc n w ∧ grown L n w).
Proof.
  destruct (alloc_stable n) as [A1 A2 A3 A4 A5 A6 A7].
  assert (∀ w w', (∀ b ty s, s ∈ Slots (dispatcher_of w' b ty) →
                            s ∈ Slots (dispatcher_of w b ty)) →
                  grown L n w → grown L n w') as Hsub.
  { intros w w' H Hw b ty s Hin. apply (Hw b ty s). by apply H. }
  split.
  - intros u w [??]. split; [by apply A1|done].
  - intros b ty pr h os w [Ha Hg]. split; [by apply A2|].
    intros b' ty' s Hin.
    apply register_slots in Hin as [Hin|(_ & _ & ->)].
    + by apply Hg.
    + right. simpl. apply Ha.
  - intros b id w [Ha Hg]. split; [by apply A3|].
    apply (Hsub w); [|done]. intros b' ty' s. apply UnsubscribeImpl_slots.
  - intros b ty ev w [Ha Hg]. split; [by apply A4|].
    apply (Hsub w); [|done]. intros b' ty' s.
    change (dispatcher_of (PushFrame ?f ?w') b' ty') with (dispatcher_of w' b' ty').
    by rewrite enter_dispatcher_of.
  - intros w [??]. split; [by apply A5|done].
  - intros slot ev via w [Ha Hg] Hl. split; [by apply A6|].
    cbv zeta. apply (Hsub w); [|done]. intros b ty s.
    by destruct (IsOneShot slot).
  - intros b ty w [Ha Hg]. split; [by apply A7|].
    apply (Hsub w); [|done]. intros b' ty' s. apply Cleanup_slots.
Qed.

Lemma settles_refl st w : settles w (st, w).
Proof. by intros _ b ty s. Qed.

Lemma settles_trans w w1 st (r : Status * World) :
  st ≠ OutOfFuel → settles w (st, w1) → settles w1 r → settles w r.
Proof.
  intros Hst H1 H2 Hr b ty s Hin Hl.
  destruct (H2 Hr b ty s Hin Hl) as [Hin1 Hl1]. by apply (H1 Hst).
Qed.

Lemma settles_status w st st' w' :
  st ≠ OutOfFuel → settles w (st, w') → settles w (st', w').
Proof. intros Hst H _. by apply H. Qed.

Lemma owned_lt w b ty s :
  owned w → s ∈ Slots (dispatcher_of w b ty) → Active s < length (Flags w).
Proof.
  intros Hw Hin. destruct (Hw b ty) as (H1 & _). by eapply Forall_forall in H1.
Qed.

Lemma owned_cross w b ty b' ty' s s' :
  owned w → s ∈ Slots (dispatcher_of w b ty) → s' ∈ Slots (dispatcher_of w b' ty') →
  Active s = Active s' → b' = b ∧ ty' = ty.
Proof. intros Hw. destruct (Hw b ty) as (_ & _ & H3). apply H3. Qed.

Lemma Dispatch_loop_settles exec ev snapshot nc w :
  keeps owned exec → (∀ p w, owned w → settles w (exec p w)) → owned w →
  let r := Dispatch_loop exec ev snapshot nc w in
  (nc = true → r.1.2 = true) ∧
  (r.1.1 ≠ OutOfFuel →
   ∀ b ty s, s ∈ Slots (dispatcher_of r.2 b ty) →
             load (Flags r.2) (Active s) = false →
     (s ∈ Slots (dispatcher_of w b ty) ∧ load (Flags w) (Active s) = false) ∨
     (r.1.2 = true ∧ Active s ∈ map Active snapshot)).
Proof.
  intros Hown Hset. revert nc w.
  induction snapshot as [|slot rest IH]; intros nc w Hw; simpl.
  { split; [done|]. intros _ b ty s Hin Hl. by left. }
  pose proof (st_invoke owned owned_stable slot ev ViaDispatch w Hw) as Hinv.
  assert (∀ (nc' : bool) w2 st,
            let r := Dispatch_loop exec ev rest nc' w2 in
            owned w2 → st ≠ OutOfFuel →
            (nc = true → nc' = true) →
            (∀ b ty s, s ∈ Slots (dispatcher_of w2 b ty) →
                       load (Flags w2) (Active s) = false →
               (s ∈ Slots (dispatcher_of w b ty) ∧ load (Flags w) (Active s) = false) ∨
               (nc' = true ∧ Active s = Active slot)) →
            (nc = true → r.1.2 = true) ∧
            (r.1.1 ≠ OutOfFuel →
             ∀ b ty s, s ∈ Slots (dispatcher_of r.2 b ty) →
                       load (Flags r.2) (Active s) = false →
               (s ∈ Slots (dispatcher_of w b ty) ∧ load (Flags w) (Active s) = false) ∨
               (r.1.2 = true ∧ Active s ∈ Active slot :: map Active rest)))
    as Hnext.
  { intros nc' w2 st r Hw2 Hst Hnc H2.
    destruct (IH nc' w2 Hw2) as [I1 I2]. fold r in I1, I2. split; [by auto|].
    intros Hr b ty s Hin Hl.
    destruct (I2 Hr b ty s Hin Hl) as [[Hin2 Hl2]|[Hr2 Hin2]].
    - destruct (H2 b ty s Hin2 Hl2) as [?|[-> E]]; [by left|].
      right. split; [by apply I1|]. rewrite E. by left.
    - right. split; [done|]. by right. }
  assert (∀ w1 st w2,
            Flags w1 = (if IsOneShot slot then store_false (Flags w) (Active slot)
                        else Flags w) →
            (∀ b ty, dispatcher_of w1 b ty = dispatcher_of w b ty) →
            settles w1 (st, w2) → st ≠ OutOfFuel →
            ∀ b ty s, s ∈ Slots (dispatcher_of w2 b ty) →
                      load (Flags w2) (Active s) = false →
              (s ∈ Slots (dispatcher_of w b ty) ∧ load (Flags w) (Active s) = false) ∨
              (IsOneShot slot = true ∧ Active s = Active slot)) as Hcb.
  { intros w1 st w2 Hfl Hd H12 Hst b ty s Hin Hl.
    destruct (H12 Hst b ty s Hin Hl) as [Hin1 Hl1].
    rewrite Hd in Hin1. rewrite Hfl in Hl1.
    destruct (IsOneShot slot); [|by left].
    destruct (decide (Active slot = Active s)) as [E|E]; [by right|].
    left. by rewrite load_store_other in Hl1. }
  assert (let r := Dispatch_loop exec ev rest nc w in
          (nc = true → r.1.2 = true) ∧
          (r.1.1 ≠ OutOfFuel →
           ∀ b ty s, s ∈ Slots (dispatcher_of r.2 b ty) →
                     load (Flags r.2) (Active s) = false →
             (s ∈ Slots (dispatcher_of w b ty) ∧ load (Flags w) (Active s) = false) ∨
             (r.1.2 = true ∧ Active s ∈ Active slot :: map Active rest)))
    as Hskip.
  { apply (Hnext nc w Returned); [done..|]. intros b ty s ??. by left. }
  destruct (IsOneShot slot) eqn:Hos.
  - destruct (load (Flags w) (Active slot)) eqn:Hl; [|done].
    specialize (Hinv eq_refl). cbv zeta in Hinv.
    pose proof (Hset (CallbackV slot ev) _ Hinv) as Hs.
    pose proof (Hown (CallbackV slot ev) _ Hinv) as Hw2.
    destruct (exec _ _) as [st w2]. cbn [fst snd] in *.
    match type of Hs with
    | settles ?w1 _ => specialize (Hcb w1 st w2 eq_refl (fun _ _ => eq_refl) Hs)
    end.
    destruct st; cbn [fst snd].
    + apply (Hnext true w2 Returned); [done..|].
      intros b ty s Hin Hl2.
      destruct (Hcb ltac:(done) b ty s Hin Hl2) as [?|[_ ?]]; [by left|by right].
    + split; [done|]. intros _ b ty s Hin Hl2.
      destruct (Hcb ltac:(done) b ty s Hin Hl2) as [?|[_ E]]; [by left|].
      right. split; [done|]. rewrite E. by left.
    + split; [done|]. by intros [].
  - destruct (load (Flags w) (Active slot)) eqn:Hl; simpl; [|done].
    specialize (Hinv eq_refl). cbv zeta in Hinv.
    pose proof (Hset (CallbackV slot ev) _ Hinv) as Hs.
    pose proof (Hown (CallbackV slot ev) _ Hinv) as Hw2.
    destruct (exec _ _) as [st w2]. cbn [fst snd] in *.
    match type of Hs with
    | settles ?w1 _ => specialize (Hcb w1 st w2 eq_refl (fun _ _ => eq_refl) Hs)
    end.
    destruct st; cbn [fst snd].
    + apply (Hnext nc w2 Returned); [done..|].
      intros b ty s Hin Hl2.
      destruct (Hcb ltac:(done) b ty s Hin Hl2) as [?|[? _]]; [by left|done].
    + split; [done|]. intros _ b ty s Hin Hl2.
      destruct (Hcb ltac:(done) b ty s Hin Hl2) as [?|[? _]]; [by left|done].
    + split; [done|]. by intros [].
Qed.

Lemma Dispatch_settles exec b ty ev w :
  keeps owned exec →
  (∀ L n, keeps (fun w => alloc n w ∧ grown L n w) exec) →
  (∀ p w, owned w → settles w (exec p w)) → owned w →
  settles w (Dispatch exec b ty ev w).
Proof.
  intros Hown Hgrown Hset Hw. unfold Dispatch.
  destruct (Dispatch_loop_settles exec ev (Slots (dispatcher_of w b ty)) false w
              Hown Hset Hw) as [_ Hloop].
  pose proof (Dispatch_loop_keeps _ exec ev (Slots (dispatcher_of w b ty)) false w
                (grown_stable (fun b ty => Slots (dispatcher_of w b ty))
                              (length (Flags w)))
                (Hgrown _ _)) as [_ Hg].
  { split; [unfold alloc; lia|]. intros b' ty' s Hin. by left. }
  destruct (Dispatch_loop _ _ _ _ _) as [[st nc'] w']. cbn [fst snd] in *.
  assert (st ≠ OutOfFuel →
          settles w (st, if nc' then Cleanup b ty w' else w')) as Hres.
  { intros Hst _ b' ty' s Hin Hl. cbn [fst snd] in *.
    destruct nc'.
    - change (Flags (Cleanup b ty w')) with (Flags w') in Hl.
      destruct (decide (b' = b ∧ ty' = ty)) as [[-> ->]|Hne].
      { apply Cleanup_slots_active in Hin. congruence. }
      rewrite Cleanup_dispatcher_of, decide_False in Hin by done.
      destruct (Hloop Hst b' ty' s Hin Hl) as [?|[_ Hsnap]]; [done|].
      apply list_elem_of_fmap in Hsnap as (s0 & E & Hin0).
      destruct (Hg b' ty' s Hin) as [Hold|Hnew].
      + destruct Hne. symmetry in E. by eapply (owned_cross w b ty b' ty' s0 s).
      + pose proof (owned_lt w b ty s0 Hw Hin0). lia.
    - destruct (Hloop Hst b' ty' s Hin Hl) as [?|[? _]]; done. }
  destruct st; [by apply Hres..|]. by intros [].
Qed.

Lemma TEventSystem_Dispatch_settles exec b ty ev w :
  keeps owned exec →
  (∀ L n, keeps (fun w => alloc n w ∧ grown L n w) exec) →
  (∀ p w, owned w → settles w (exec p w)) → owned w →
  settles w (TEventSystem_Dispatch (Dispatch exec) b ty ev w).
Proof.
  intros Hown Hgrown Hset Hw. unfold TEventSystem_Dispatch.
  pose proof (st_enter owned owned_stable b ty ev w Hw) as Hwp.
  pose proof (Dispatch_settles exec b ty ev _ Hown Hgrown Hset Hwp) as Hd.
  destruct (Dispatch _ _ _ _ _) as [st w2].
  assert (st ≠ OutOfFuel → settles w (st, PopFrame w2)) as Hres.
  { intros Hst _ b' ty' s Hin Hl.
    destruct (Hd Hst b' ty' s Hin Hl) as [Hin1 Hl1]. split; [|done].
    change (dispatcher_of (PushFrame ?f ?w') b' ty')
      with (dispatcher_of w' b' ty') in Hin1.
    by rewrite enter_dispatcher_of in Hin1. }
  destruct st; [by apply Hres..|]. by intros [].
Qed.

Lemma InvokeSingle_settles exec b ty id ev w :
  (∀ p w, owned w → settles w (exec p w)) → owned w →
  settles w (InvokeSingle exec b ty id ev w).
Proof.
  intros Hset Hw. unfold InvokeSingle.
  destruct (find_if id (Slots (dispatcher_of w b ty))) as [slot|] eqn:Hfind;
    [|apply settles_refl].
  apply find_if_Some in Hfind as [Hslot _].
  pose proof (st_invoke owned owned_stable slot ev ViaInvokeSingle w Hw) as Hinv.
  destruct (IsOneShot slot) eqn:Hos.
  - destruct (load (Flags w) (Active slot)) eqn:Hl; [|apply settles_refl].
    specialize (Hinv eq_refl). cbv zeta in Hinv.
    pose proof (Hset (CallbackV slot ev) _ Hinv) as Hs.
    destruct (exec _ _) as [st w2].
    assert (st ≠ OutOfFuel → settles w (st, Cleanup b ty w2)) as Hres.
    { intros Hst _ b' ty' s Hin Hl2. cbn [fst snd] in *.
      change (Flags (Cleanup b ty w2)) with (Flags w2) in Hl2.
      destruct (decide (b' = b ∧ ty' = ty)) as [[-> ->]|Hne].
      { apply Cleanup_slots_active in Hin. congruence. }
      rewrite Cleanup_dispatcher_of, decide_False in Hin by done.
      destruct (Hs Hst b' ty' s Hin Hl2) as [Hin1 Hl1].
      split; [done|]. simpl in Hl1.
      destruct (decide (Active slot = Active s)) as [E|E].
      - destruct Hne. by eapply (owned_cross w b ty b' ty' slot s).
      - by rewrite load_store_other in Hl1. }
    destruct st; [by apply Hres..|]. by intros [].
  - destruct (load (Flags w) (Active slot)) eqn:Hl; simpl; [|apply settles_refl].
    specialize (Hinv eq_refl). cbv zeta in Hinv.
    pose proof (Hset (CallbackV slot ev) _ Hinv) as Hs.
    destruct (exec _ _) as [st w2].
    assert (settles w (st, w2)) as Hres.
    { intros Hst b' ty' s Hin Hl2. by apply (Hs Hst). }
    destruct st; [done..|]. by intros [].
Qed.

Lemma register_settles b ty pr h os w :
  owned w → settles w (Returned, (SubscribeImpl_register b ty pr h os w).2).
Proof.
  intros Hw _ b' ty' s Hin Hl. cbn [fst snd] in *.
  rewrite register_Flags in Hl.
  apply register_slots in Hin as [Hin|(_ & _ & ->)].
  - split; [done|]. rewrite load_alloc in Hl; [done|]. by eapply owned_lt.
  - simpl in Hl. by rewrite load_alloc_new in Hl.
Qed.

Lemma UnsubscribeImpl_settles b id w :
  owned w → settles w (Returned, UnsubscribeImpl b id w).
Proof.
  intros Hw _ b' ty' s Hin Hl. cbn [fst snd] in *.
  destruct (UnsubscribeImpl_cases b id w)
    as [(Hfl & Hd & _)|(ty & tgt & _ & Hfind & Hfl & Hd & Hother)].
  - rewrite Hd in Hin. by rewrite Hfl in Hl.
  - apply find_if_Some in Hfind as [Htgt _].
    destruct (decide (b' = b ∧ ty' = ty)) as [[-> ->]|Hne].
    + rewrite Hd in Hin. apply elem_of_filter_bool in Hin as [_ Hin]. congruence.
    + rewrite Hother in Hin by done. split; [done|]. rewrite Hfl in Hl.
      destruct (decide (Active tgt = Active s)) as [E|E].
      * destruct Hne. by eapply (owned_cross w b ty b' ty' tgt s).
      * by rewrite load_store_other in Hl.
Qed.

Lemma step_settles exec p w :
  keeps owned exec →
  (∀ L n, keeps (fun w => alloc n w ∧ grown L n w) exec) →
  (∀ p w, owned w → settles w (exec p w)) → owned w →
  settles w (step (Dispatch exec) (InvokeSingle exec) exec p w).
Proof.
  intros Hown Hgrown Hset Hw.
  destruct p as [| |k|u k|body k|b ty pr os h k|b id k|b ty ev k|b ty k]; simpl.
  - apply settles_refl.
  - apply settles_refl.
  - by apply Hset.
  - apply (settles_trans w (set_user u w) Returned); [done| |].
    + by intros _ b ty s.
    + apply Hset. by apply (st_user owned owned_stable).
  - pose proof (Hset body w Hw) as H1. pose proof (Hown body w Hw) as Hw1.
    destruct (exec body w) as [[] w1]; cbn [fst snd] in *.
    + apply (settles_trans w w1 Returned); [done..|]. by apply Hset.
    + apply (settles_trans w w1 Raised); [done..|]. by apply Hset.
    + by intros [].
  - pose proof (register_settles b ty pr h os w Hw) as H1.
    pose proof (st_register owned owned_stable b ty pr h os w Hw) as Hw1.
    destruct (SubscribeImpl_register _ _ _ _ _ _) as [id w1]. cbn [fst snd] in *.
    apply (settles_trans w w1 Returned); [done..|].
    assert (settles w1 (NotifyCurrentDispatch (InvokeSingle exec) b ty id w1)
            ∧ owned (NotifyCurrentDispatch (InvokeSingle exec) b ty id w1).2)
      as [H2 Hw2].
    { unfold NotifyCurrentDispatch.
      destruct (current_frame _ _ _) as [fr|]; [|split; [apply settles_refl|done]].
      split; [by apply InvokeSingle_settles|].
      unfold InvokeSingle.
      destruct (find_if _ _) as [slot|]; [|done].
      pose proof (st_invoke owned owned_stable slot (Event fr) ViaInvokeSingle
                    w1 Hw1) as Hinv.
      destruct (IsOneShot slot).
      - destruct (load (Flags w1) (Active slot)); [|done].
        specialize (Hinv eq_refl). cbv zeta in Hinv.
        apply (Hown (CallbackV slot (Event fr))) in Hinv.
        destruct (exec _ _) as [[] w2]; cbn [fst snd] in *; [| |done];
          by apply (st_cleanup owned owned_stable).
      - destruct (load (Flags w1) (Active slot)); simpl; [|done].
        specialize (Hinv eq_refl). cbv zeta in Hinv.
        apply (Hown (CallbackV slot (Event fr))) in Hinv.
        by destruct (exec _ _) as [[] w2]. }
    destruct (NotifyCurrentDispatch _ _ _ _ _) as [[] w2]; cbn [fst snd] in *.
    + apply (settles_trans w1 w2 Returned); [done..|]. by apply Hset.
    + done.
    + by intros [].
  - apply (settles_trans w (log (Unsubscribed b id) (UnsubscribeImpl b id w))
             Returned); [done| |].
    + pose proof (UnsubscribeImpl_settles b id w Hw) as H.
      intros Hst b' ty' s Hin Hl. by apply (H Hst).
    + apply Hset. by apply (st_unsubscribe owned owned_stable).
  - pose proof (TEventSystem_Dispatch_settles exec b ty ev w Hown Hgrown Hset Hw)
      as H1.
    pose proof (TEventSystem_Dispatch_keeps_fine owned exec b ty ev w
                  (stable_is_fine _ owned_stable) Hown Hw) as Hw1.
    destruct (TEventSystem_Dispatch _ _ _ _ _) as [[] w1]; cbn [fst snd] in *.
    + apply (settles_trans w w1 Returned); [done..|]. by apply Hset.
    + done.
    + by intros [].
  - by apply Hset.
Qed.

Lemma run_settles fuel p w : owned w → settles w (run fuel p w).
Proof.
  revert p w. induction fuel as [|fuel IH]; intros p w Hw; simpl.
  { by intros []. }
  apply step_settles; [|intros L n|done..].
  - apply (run_keeps owned fuel owned_stable).
  - apply (run_keeps _ fuel (grown_stable L n)).
Qed.

Lemma filter_all {A} (f : A → bool) (l : list A) :
  (∀ x, x ∈ l → f x = true) → List.filter f l = l.
Proof.
  induction l as [|x l IH]; simpl; intros H; [done|].
  rewrite H by left. f_equal. apply IH. intros y Hy. apply H. by right.
Qed.

(** X11.  When a call into the bus has terminated, by return or by
    exception, every inactive slot that is still in a slot list was in
    that list and inactive before the call: what the call claimed or
    removed, it has excised.  From a world in which every listed slot is
    active the call leads to such a world again, and there the count of
    active handlers is the length of the slot list. *)
Theorem run_excises_inactive_slots fuel p w :
  owned w →
  (run fuel p w).1 = Returned ∨ (run fuel p w).1 = Raised →
  let w' := (run fuel p w).2 in
  (∀ b ty s, s ∈ Slots (dispatcher_of w' b ty) →
             load (Flags w') (Active s) = false →
             s ∈ Slots (dispatcher_of w b ty) ∧ load (Flags w) (Active s) = false) ∧
  (clean w →
   clean w' ∧
   ∀ b ty, GetHandlerCount b ty w' = length (Slots (dispatcher_of w' b ty))).
Proof.
  intros Hw Hst w'.
  assert ((run fuel p w).1 ≠ OutOfFuel) as Hne by (by destruct Hst as [-> | ->]).
  pose proof (run_settles fuel p w Hw Hne) as Hs. fold w' in Hs.
  split; [done|]. intros Hc.
  assert (clean w') as Hc'.
  { intros b ty s Hin.
    destruct (load (Flags w') (Active s)) eqn:E; [done|].
    destruct (Hs b ty s Hin E) as [Hin0 Hl0]. rewrite (Hc b ty s Hin0) in Hl0. done. }
  split; [done|]. intros b ty.
  rewrite GetHandlerCount_Count. unfold Count. f_equal.
  apply filter_all. intros s Hin. by apply (Hc' b ty).
Qed.


(** ** Quiet callbacks: the common path of a delivery *)

Lemma set_user_same w : set_user (UserState w) w = w.
Proof. by destruct w. Qed.

Lemma run_quiet q : quiet q → ∀ fuel w,
  steps q (UserState w) ≤ fuel →
  run fuel q w = (Returned, set_user (effect q (UserState w)) w) ∧
  run_legacy fuel q w = (Returned, set_user (effect q (UserState w)) w).
Proof.
  induction 1 as [|k Hk IH|u k Hk IH]; intros [|fuel] w Hf; simpl in *; try lia.
  - by rewrite set_user_same.
  - apply IH. lia.
  - destruct (IH fuel (set_user u w)) as [-> ->]; [simpl; lia|]. done.
Qed.

Lemma run_quiet_cases q : quiet q → ∀ fuel w,
  run_legacy fuel q w = run fuel q w ∧
  ((run fuel q w).1 = OutOfFuel ∨
   run fuel q w = (Returned, set_user (effect q (UserState w)) w)).
Proof.
  induction 1 as [|k Hk IH|u k Hk IH]; intros [|fuel] w; simpl;
    try (split; [done|by left]).
  - split; [done|]. right. by rewrite set_user_same.
  - apply IH.
  - apply (IH fuel (set_user u w)).
Qed.

Lemma delivered_fields ev (l : list TSlot) w :
  Systems (delivered ev l w) = Systems w ∧
  DispatchStack (delivered ev l w) = DispatchStack w ∧
  Trace (delivered ev l w)
  = Trace w ++ map (delivery_entry ev (length (DispatchStack w))) l ∧
  UserState (delivered ev l w)
  = fold_left (fun u s => effect (CallbackV s ev) u) l (UserState w) ∧
  length (Flags (delivered ev l w)) = length (Flags w) ∧
  (∀ a, a ∉ map Active (List.filter IsOneShot l) →
        load (Flags (delivered ev l w)) a = load (Flags w) a) ∧
  (∀ s, s ∈ l → IsOneShot s = true → load (Flags (delivered ev l w)) (Active s) = false).
Proof.
  revert w. induction l as [|x l IH]; intros w; simpl.
  { rewrite app_nil_r. repeat split; try done. intros s H. by apply not_elem_of_nil in H. }
  destruct (IH (after_callback ev w x)) as (H1 & H2 & H3 & H4 & H5 & H6 & H7).
  unfold delivered in *. simpl.
  assert (Flags (after_callback ev w x)
          = if IsOneShot x then store_false (Flags w) (Active x) else Flags w)
    as Hfl by (unfold after_callback; by destruct (IsOneShot x)).
  assert (DispatchStack (after_callback ev w x) = DispatchStack w) as Hst
    by (unfold after_callback; by destruct (IsOneShot x)).
  split; [|split; [|split; [|split; [|split; [|split]]]]].
  - rewrite H1. unfold after_callback. by destruct (IsOneShot x).
  - by rewrite H2.
  - assert (Trace (after_callback ev w x)
            = Trace w ++ [delivery_entry ev (length (DispatchStack w)) x]) as Htr.
    { unfold after_callback, invoked, delivery_entry.
      destruct (IsOneShot x) eqn:E; simpl; by rewrite ?E. }
    by rewrite H3, Hst, Htr, <- app_assoc.
  - rewrite H4. f_equal.
  - rewrite H5, Hfl. destruct (IsOneShot x); [apply length_store|done].
  - intros a Ha. rewrite H6, Hfl.
    + destruct (IsOneShot x) eqn:E; [|done]. apply load_store_other.
      intros <-. apply Ha. simpl. left.
    + intros Hin. apply Ha. destruct (IsOneShot x); [by right|done].
  - intros s Hs Hos. apply elem_of_cons in Hs as [->|Hs]; [|by apply H7].
    destruct (decide (Active x ∈ map Active (List.filter IsOneShot l))) as [Hin|Hin].
    + apply list_elem_of_fmap in Hin as (y & -> & Hy).
      apply elem_of_filter_bool in Hy as [Hy Hyos]. by apply H7.
    + rewrite H6 by done. rewrite Hfl, Hos. apply load_store_same.
Qed.

Lemma after_callback_active ev w x (l : list TSlot) :
  Active x ∉ map Active l →
  Forall (fun s => load (Flags w) (Active s) = true) l →
  Forall (fun s => load (Flags (after_callback ev w x)) (Active s) = true) l.
Proof.
  intros Hx Hl. apply Forall_forall. intros s Hs.
  eapply Forall_forall in Hl; [|done].
  unfold after_callback. destruct (IsOneShot x); [|done]. simpl.
  rewrite load_store_other; [done|]. intros E. apply Hx. rewrite E.
  apply list_elem_of_fmap. by exists s.
Qed.

Lemma Dispatch_loop_quiet ev (l : list TSlot) :
  Forall (fun s => quiet (CallbackV s ev)) l →
  NoDup (map Active l) →
  ∀ w, Forall (fun s => load (Flags w) (Active s) = true) l →
  ∃ n, ∀ fuel (nc : bool), n ≤ fuel →
    Dispatch_loop (run fuel) ev l nc w
    = (Returned, nc || existsb IsOneShot l, delivered ev l w) ∧
    dispatch_loop (run_legacy fuel) ev l nc w
    = (Returned, nc || existsb IsOneShot l, delivered ev l w).
Proof.
  induction 1 as [|x l Hq _ IH]; intros Hnd w Hact.
  { exists 0. intros fuel nc _. simpl. by rewrite orb_false_r. }
  apply NoDup_cons in Hnd as [Hx Hnd].
  apply Forall_cons in Hact as [Hlx Hact].
  destruct (IH Hnd (after_callback ev w x)) as [n Hn].
  { by apply after_callback_active. }
  exists (max (steps (CallbackV x ev) (UserState w)) n).
  intros fuel nc Hf. simpl. rewrite Hlx. simpl.
  destruct (Hn fuel true ltac:(lia)) as [Ht Ht'].
  destruct (Hn fuel nc ltac:(lia)) as [Hc Hc'].
  unfold delivered in *. simpl. unfold after_callback at 2 4.
  unfold after_callback in Ht, Ht', Hc, Hc'.
  destruct (IsOneShot x) eqn:Hos; simpl.
  - destruct (run_quiet _ Hq fuel
                (log (invoked x ev ViaDispatch (claim x w)) (claim x w)))
      as [-> _]; [simpl; lia|].
    destruct (run_quiet _ Hq fuel (log (invoked x ev ViaDispatch w) w))
      as [_ ->]; [simpl; lia|].
    rewrite orb_true_r. simpl in Ht, Ht'. split; [exact Ht|exact Ht'].
  - destruct (run_quiet _ Hq fuel (log (invoked x ev ViaDispatch w) w))
      as [-> ->]; [simpl; lia|].
    split; [exact Hc|exact Hc'].
Qed.


Lemma dispatcher_of_Systems w w' b ty :
  Systems w' = Systems w → dispatcher_of w' b ty = dispatcher_of w b ty.
Proof. intros H. unfold dispatcher_of, bus. by rewrite H. Qed.

Lemma existsb_false_filter (l : list TSlot) :
  existsb IsOneShot l = false → List.filter (fun s => negb (IsOneShot s)) l = l.
Proof.
  intros H. apply filter_all. intros s Hs.
  destruct (IsOneShot s) eqn:E; [|done].
  assert (existsb IsOneShot l = true); [|congruence].
  apply existsb_exists. exists s. split; [by apply list_elem_of_In|done].
Qed.

(** X12.  A delivery to a slot list whose slots are all active and whose
    callbacks, for this event, only read and write the state captured by
    their closures: given enough fuel it returns, it has invoked every
    slot of the list exactly once and in list order, the captured state
    is the result of running the callbacks in that order, the one-shot
    slots are inactive and excised and the others stay, and no other
    slot list has changed.  The earlier revision of the dispatcher gives
    the same result. *)
Theorem Dispatch_delivers_to_quiet_handlers b ty ev w :
  let l := Slots (dispatcher_of w b ty) in
  Forall (fun s => quiet (CallbackV s ev)) l →
  Forall (fun s => load (Flags w) (Active s) = true) l →
  NoDup (map Active l) →
  ∃ n, ∀ fuel, n ≤ fuel →
    let r := TEventSystem_Dispatch (Dispatch (run fuel)) b ty ev w in
    r.1 = Returned ∧
    TEventSystem_Dispatch (dispatch (run_legacy fuel)) b ty ev w = r ∧
    Trace r.2
    = Trace w ++ map (delivery_entry ev (S (length (DispatchStack w)))) l ∧
    UserState r.2
    = fold_left (fun u s => effect (CallbackV s ev) u) l (UserState w) ∧
    DispatchStack r.2 = DispatchStack w ∧
    Slots (dispatcher_of r.2 b ty) = List.filter (fun s => negb (IsOneShot s)) l ∧
    (∀ b' ty', ¬ (b' = b ∧ ty' = ty) →
               dispatcher_of r.2 b' ty' = dispatcher_of w b' ty') ∧
    (∀ s, s ∈ l → load (Flags r.2) (Active s) = negb (IsOneShot s)) ∧
    GetHandlerCount b ty r.2
    = length (List.filter (fun s => negb (IsOneShot s)) l).
Proof.
  intros l Hq Hact Hnd.
  set (w1 := set_bus b (GetDispatcher ty (bus w b)).2 w).
  set (wp := PushFrame (mkFrame b ty ev) w1).
  assert (∀ b' ty', dispatcher_of wp b' ty' = dispatcher_of w b' ty') as Hdp.
  { intros b' ty'. apply (enter_dispatcher_of b ty w b' ty'). }
  destruct (Dispatch_loop_quiet ev l Hq Hnd wp Hact) as [n Hn].
  exists n. intros fuel Hf r.
  destruct (Hn fuel false Hf) as [Hcur Hleg]. simpl in Hcur, Hleg.
  set (w' := delivered ev l wp) in *.
  destruct (delivered_fields ev l wp)
    as (F1 & F2 & F3 & F4 & F5 & F6 & F7). fold w' in F1, F2, F3, F4, F5, F6, F7.
  assert (r = (Returned,
               PopFrame (if existsb IsOneShot l then Cleanup b ty w' else w')))
    as Hr.
  { unfold r, TEventSystem_Dispatch, Dispatch. fold w1. fold wp.
    rewrite Hdp. fold l. by rewrite Hcur. }
  assert (∀ s, s ∈ l → load (Flags w') (Active s) = negb (IsOneShot s)) as Hfl.
  { intros s Hs. destruct (IsOneShot s) eqn:E; simpl; [by apply F7|].
    rewrite F6.
    - eapply Forall_forall in Hact; [|done]. done.
    - intros Hin. apply list_elem_of_fmap in Hin as (y & Ey & Hy).
      apply elem_of_filter_bool in Hy as [Hy Hyos].
      assert (s = y); [|congruence].
      apply (NoDup_fmap_elem Active l); done. }
  assert (∀ b' ty', dispatcher_of w' b' ty' = dispatcher_of w b' ty') as Hd'.
  { intros b' ty'. rewrite (dispatcher_of_Systems wp w') by done. apply Hdp. }
  rewrite Hr. cbn [fst snd].
  split; [done|]. split.
  { unfold TEventSystem_Dispatch, dispatch. fold w1. fold wp.
    rewrite Hdp. fold l. by rewrite Hleg. }
  assert (Slots (dispatcher_of
            (PopFrame (if existsb IsOneShot l then Cleanup b ty w' else w')) b ty)
          = List.filter (fun s => negb (IsOneShot s)) l) as Hlist.
  { change (dispatcher_of (PopFrame ?x) b ty) with (dispatcher_of x b ty).
    destruct (existsb IsOneShot l) eqn:Hex.
    - rewrite Cleanup_dispatcher_of, decide_True by done. simpl.
      rewrite Hd'. apply List.filter_ext_in. intros s Hs.
      apply Hfl. by apply list_elem_of_In.
    - rewrite Hd'. symmetry. by apply existsb_false_filter. }
  assert (∀ a, load (Flags (PopFrame
                 (if existsb IsOneShot l then Cleanup b ty w' else w'))) a
               = load (Flags w') a) as Hflags.
  { intros a. by destruct (existsb IsOneShot l). }
  split; [|split; [|split; [|split; [|split; [|split]]]]].
  - destruct (existsb IsOneShot l); exact F3.
  - destruct (existsb IsOneShot l); exact F4.
  - destruct (existsb IsOneShot l); simpl; by rewrite F2.
  - exact Hlist.
  - intros b' ty' Hne.
    change (dispatcher_of (PopFrame ?x) b' ty') with (dispatcher_of x b' ty').
    destruct (existsb IsOneShot l); [|done].
    by rewrite Cleanup_dispatcher_of, decide_False.
  - intros s Hs. rewrite Hflags. by apply Hfl.
  - rewrite GetHandlerCount_Count. unfold Count. rewrite Hlist. f_equal.
    apply filter_all. intros s Hs. apply elem_of_filter_bool in Hs as [Hs Hos].
    rewrite Hflags, Hfl by done. done.
Qed.


(** ** The two revisions of the dispatcher on quiet handlers *)

Lemma run_quiet_full q : quiet q → ∀ fuel w,
  (∃ u', (run fuel q w).2 = set_user u' w) ∧
  (steps q (UserState w) ≤ fuel ∨ (run fuel q w).1 = OutOfFuel).
Proof.
  induction 1 as [|k Hk IH|u k Hk IH]; intros [|fuel] w; simpl;
    try (split; [exists (UserState w); by rewrite set_user_same|by right]).
  - split; [exists (UserState w); by rewrite set_user_same|left; lia].
  - destruct (IH (UserState w) fuel w) as [H1 [H2|H2]]; (split; [done|]);
      [left; lia|by right].
  - destruct (IH fuel (set_user u w)) as [[u' H1] [H2|H2]];
      (split; [by exists u'|]); [left; simpl in H2; lia|by right].
Qed.

Lemma quiet_world_sub w w' :
  (∀ b ty s, s ∈ Slots (dispatcher_of w' b ty) → s ∈ Slots (dispatcher_of w b ty)) →
  quiet_world w → quiet_world w'.
Proof. intros H Hw b ty s ev Hin. eapply Hw. by apply H. Qed.

Lemma loops_agree fuel ev (l : list TSlot) :
  Forall (fun s => quiet (CallbackV s ev)) l → ∀ (nc : bool) w,
  let r := Dispatch_loop (run fuel) ev l nc w in
  (∀ b ty, dispatcher_of r.2 b ty = dispatcher_of w b ty) ∧
  (r.1.1 ≠ OutOfFuel →
   r.1.1 = Returned ∧ dispatch_loop (run_legacy fuel) ev l nc w = r).
Proof.
  induction 1 as [|x l Hq _ IH]; intros nc w; simpl; [done|].
  destruct (IsOneShot x) eqn:Hos;
    destruct (load (Flags w) (Active x)) eqn:Hl; simpl; try apply IH.
  - set (X := log (invoked x ev ViaDispatch (claim x w)) (claim x w)).
    set (Y := log (invoked x ev ViaDispatch w) w).
    destruct (run_quiet_full _ Hq fuel X) as [[u' Hw2] [Hs|Hoof]].
    + destruct (run_quiet _ Hq fuel X Hs) as [-> _].
      destruct (run_quiet _ Hq fuel Y Hs) as [_ ->].
      change (claim x (set_user (effect (CallbackV x ev) (UserState Y)) Y))
        with (set_user (effect (CallbackV x ev) (UserState X)) X).
      destruct (IH true (set_user (effect (CallbackV x ev) (UserState X)) X))
        as [I1 I2].
      split; [|done]. intros b ty. by rewrite I1.
    + destruct (run fuel (CallbackV x ev) X) as [st w2]. simpl in *. subst.
      split; [done|]. by intros [].
  - set (Y := log (invoked x ev ViaDispatch w) w).
    destruct (run_quiet_full _ Hq fuel Y) as [[u' Hw2] [Hs|Hoof]].
    + destruct (run_quiet _ Hq fuel Y Hs) as [-> ->].
      destruct (IH nc (set_user (effect (CallbackV x ev) (UserState Y)) Y))
        as [I1 I2].
      split; [|done]. intros b ty. by rewrite I1.
    + destruct (run fuel (CallbackV x ev) Y) as [st w2]. simpl in *. subst.
      split; [done|]. by intros [].
Qed.

Lemma TEventSystem_Dispatch_agree fuel b ty ev w :
  quiet_world w →
  let r := TEventSystem_Dispatch (Dispatch (run fuel)) b ty ev w in
  quiet_world r.2 ∧
  (r.1 ≠ OutOfFuel →
   r.1 = Returned ∧ TEventSystem_Dispatch (dispatch (run_legacy fuel)) b ty ev w = r).
Proof.
  intros Hw. unfold TEventSystem_Dispatch, Dispatch, dispatch.
  set (wp := PushFrame (mkFrame b ty ev) (set_bus b (GetDispatcher ty (bus w b)).2 w)).
  assert (∀ b' ty', dispatcher_of wp b' ty' = dispatcher_of w b' ty') as Hdp.
  { intros b' ty'. apply (enter_dispatcher_of b ty w b' ty'). }
  assert (Forall (fun s => quiet (CallbackV s ev)) (Slots (dispatcher_of wp b ty)))
    as Hq.
  { apply Forall_forall. intros s Hs. rewrite Hdp in Hs. by eapply Hw. }
  destruct (loops_agree fuel ev _ Hq false wp) as [H1 H2].
  destruct (Dispatch_loop _ _ _ _ _) as [[st nc'] w']. cbn [fst snd] in *.
  assert (quiet_world w') as Hw'.
  { apply (quiet_world_sub w); [|done]. intros b' ty' s. by rewrite H1, Hdp. }
  assert (quiet_world (PopFrame (if nc' then Cleanup b ty w' else w'))) as Hres.
  { apply (quiet_world_sub w'); [|done]. intros b' ty' s.
    change (dispatcher_of (PopFrame ?x) b' ty') with (dispatcher_of x b' ty').
    destruct nc'; [apply Cleanup_slots|done]. }
  destruct st; cbn [fst snd].
  - split; [done|]. intros _. split; [done|].
    destruct (H2 ltac:(done)) as [_ ->]. done.
  - destruct (H2 ltac:(done)) as [[=] _].
  - split; [done|]. by intros [].
Qed.

Lemma InvokeSingle_agree fuel b ty id ev w :
  quiet_world w →
  let r := InvokeSingle (run fuel) b ty id ev w in
  quiet_world r.2 ∧
  (r.1 ≠ OutOfFuel →
   r.1 = Returned ∧ invokeSingle (run_legacy fuel) b ty id ev w = r).
Proof.
  intros Hw. unfold InvokeSingle, invokeSingle.
  destruct (find_if id (Slots (dispatcher_of w b ty))) as [x|] eqn:Hfind; [|done].
  apply find_if_Some in Hfind as [Hx _].
  pose proof (Hw b ty x ev Hx) as Hq.
  destruct (IsOneShot x) eqn:Hos;
    destruct (load (Flags w) (Active x)) eqn:Hl; simpl; try done.
  - set (X := log (invoked x ev ViaInvokeSingle (claim x w)) (claim x w)).
    set (Y := log (invoked x ev ViaInvokeSingle w) w).
    destruct (run_quiet_full _ Hq fuel X) as [[u' Hw2] [Hs|Hoof]].
    + destruct (run_quiet _ Hq fuel X Hs) as [-> _].
      destruct (run_quiet _ Hq fuel Y Hs) as [_ ->].
      change (claim x (set_user (effect (CallbackV x ev) (UserState Y)) Y))
        with (set_user (effect (CallbackV x ev) (UserState X)) X).
      split; [|done].
      apply (quiet_world_sub w); [|done]. intros b' ty' s Hin.
      by apply Cleanup_slots in Hin.
    + destruct (run fuel (CallbackV x ev) X) as [st w2]. simpl in *. subst.
      split; [done|]. by intros [].
  - set (Y := log (invoked x ev ViaInvokeSingle w) w).
    destruct (run_quiet_full _ Hq fuel Y) as [[u' Hw2] [Hs|Hoof]].
    + by destruct (run_quiet _ Hq fuel Y Hs) as [-> ->].
    + destruct (run fuel (CallbackV x ev) Y) as [st w2]. simpl in *. subst.
      split; [done|]. by intros [].
Qed.

Lemma step_agree fuel :
  (∀ p w, calm p → quiet_world w →
     quiet_world (run fuel p w).2 ∧
     ((run fuel p w).1 ≠ OutOfFuel → run_legacy fuel p w = run fuel p w)) →
  ∀ p w, calm p → quiet_world w →
     quiet_world (run (S fuel) p w).2 ∧
     ((run (S fuel) p w).1 ≠ OutOfFuel →
      run_legacy (S fuel) p w = run (S fuel) p w).
Proof.
  intros IH p w Hp Hw.
  destruct Hp as [| |k Hk|u k Hk|body k Hb Hk|b ty pr os h k Hh Hk|b id k Hk
                  |b ty ev k Hk|b ty k Hk]; simpl.
  - done.
  - done.
  - by apply IH.
  - by apply IH.
  - destruct (IH body w Hb Hw) as [Hw1 He].
    destruct (run fuel body w) as [st w1] eqn:E. cbn [fst snd] in *.
    destruct st.
    + rewrite He by done. by apply IH.
    + rewrite He by done. by apply IH.
    + split; [done|]. by intros [].
  - assert (quiet_world (SubscribeImpl_register b ty pr h os w).2) as Hw1.
    { intros b' ty' s ev Hin.
      apply register_slots in Hin as [Hin|(_ & _ & ->)]; [by eapply Hw|].
      apply Hh. }
    destruct (SubscribeImpl_register _ _ _ _ _ _) as [id w1]. cbn [fst snd] in *.
    unfold NotifyCurrentDispatch.
    destruct (current_frame _ _ _) as [fr|]; [|by apply IH].
    destruct (InvokeSingle_agree fuel (System fr) (EventTypeIndex fr) id
                (Event fr) w1 Hw1) as [Hw2 He].
    destruct (InvokeSingle _ _ _ _ _ _) as [st w2]. cbn [fst snd] in *.
    destruct st.
    + destruct (He ltac:(done)) as [_ ->]. by apply IH.
    + destruct (He ltac:(done)) as [[=] _].
    + split; [done|]. by intros [].
  - apply IH; [done|].
    apply (quiet_world_sub w); [|done]. intros b' ty' s.
    apply UnsubscribeImpl_slots.
  - destruct (TEventSystem_Dispatch_agree fuel b ty ev w Hw) as [Hw1 He].
    destruct (TEventSystem_Dispatch _ _ _ _ _) as [st w1]. cbn [fst snd] in *.
    destruct st.
    + destruct (He ltac:(done)) as [_ ->]. by apply IH.
    + destruct (He ltac:(done)) as [[=] _].
    + split; [done|]. by intros [].
  - by apply IH.
Qed.

Lemma quiet_world_initial (u : U) : quiet_world (initial u : World).
Proof.
  intros b ty s ev. rewrite dispatcher_of_initial. simpl.
  intros H. by apply not_elem_of_nil in H.
Qed.

(** X13.  On programs all of whose handlers are quiet (they neither
    throw nor call the bus), run in a world whose registered callbacks
    are quiet, the earlier revision of the dispatcher and the current
    one do the same: the same outcome and the same world, whenever the
    execution terminates.  The registered callbacks stay quiet. *)
Theorem revisions_agree_on_quiet_handlers fuel p w :
  calm p → quiet_world w →
  quiet_world (run fuel p w).2 ∧
  ((run fuel p w).1 = Returned ∨ (run fuel p w).1 = Raised →
   run_legacy fuel p w = run fuel p w).
Proof.
  revert p w.
  assert (∀ p w, calm p → quiet_world w →
            quiet_world (run fuel p w).2 ∧
            ((run fuel p w).1 ≠ OutOfFuel → run_legacy fuel p w = run fuel p w))
    as H.
  { induction fuel as [|fuel IH]; [|by apply step_agree].
    intros p w _ Hw. simpl. split; [done|]. by intros []. }
  intros p w Hp Hw. destruct (H p w Hp Hw) as [H1 H2]. split; [done|].
  intros Hst. apply H2. by destruct Hst as [-> | ->].
Qed.


(** ** Worlds reached from the start of the process *)

Lemma StronglySorted_weaken {A} (R R' : A → A → Prop) (l : list A) :
  (∀ x y, R x y → R' x y) → StronglySorted R l → StronglySorted R' l.
Proof.
  intros HR. induction 1 as [|x l Hl IH Hx]; constructor; [done|].
  eapply Forall_impl; [done|]. intros y. apply HR.
Qed.

Lemma slot_before_prio_ge s s' : slot_before s s' → prio_ge s s'.
Proof.
  unfold slot_before, delivered_before, slot_key, prio_ge. simpl.
  intros [H|[-> _]]; lia.
Qed.

(** X4.  In every world reached from the start of the process, every
    slot list is in delivery order: by priority, High first, and within
    a priority in the order of subscription (the order in which the
    flags were allocated).  Its flags are allocated and no flag occurs
    twice, in one list or in two. *)
Theorem reachable_slot_lists_sorted fuel p (u : U) b ty :
  let w := (run fuel p (initial u)).2 in
  let l := Slots (dispatcher_of w b ty) in
  StronglySorted slot_before l ∧
  StronglySorted prio_ge l ∧
  Forall (fun s => Active s < length (Flags w)) l ∧
  NoDup (map Active l) ∧
  (∀ b' ty' s s', s ∈ l → s' ∈ Slots (dispatcher_of w b' ty') →
                  Active s = Active s' → b' = b ∧ ty' = ty).
Proof.
  intros w l.
  assert (slots_inv w) as Hs.
  { apply (run_keeps slots_inv fuel slots_inv_stable), wf_initial. }
  assert (owned w) as Ho
    by apply (run_keeps owned fuel owned_stable), owned_initial.
  destruct (Hs b ty) as [H1 H2]. destruct (Ho b ty) as (_ & H3 & H4).
  split; [done|]. split; [|done].
  eapply StronglySorted_weaken; [|done]. apply slot_before_prio_ge.
Qed.

(** X14.  Subscribe, then look up: in a world reached from the start
    of the process, while the bus has identifiers left, the identifier
    that a subscription returns is carried by no handler registered
    before, and afterwards it leads to the new slot and to no other:
    [HandlerTypes] maps it to the event type of the subscription and
    the search by identifier in the list of that type finds the new
    slot, whose flag is set. *)
Theorem Subscribe_then_find fuel p (u : U) b ty pr os h :
  let w := (run fuel p (initial u)).2 in
  (N.of_nat (length (issued_by b (Trace w))) + 1 < SIZE_MOD)%N →
  let id := (SubscribeImpl_register b ty pr h os w).1 in
  let w1 := (SubscribeImpl_register b ty pr h os w).2 in
  id = (1 + N.of_nat (length (issued_by b (Trace w))))%N ∧
  HandlerTypes (bus w b) !! id = None ∧
  (∀ ty', find_if id (Slots (dispatcher_of w b ty')) = None) ∧
  HandlerTypes (bus w1 b) !! id = Some ty ∧
  find_if id (Slots (dispatcher_of w1 b ty)) = Some (new_slot b ty pr h os w) ∧
  load (Flags w1) (Active (new_slot b ty pr h os w)) = true ∧
  (∀ ty', ty' ≠ ty → find_if id (Slots (dispatcher_of w1 b ty')) = None).
Proof.
  intros w Hlt id w1.
  assert (wf w) as Hwf by apply (run_keeps wf fuel wf_stable), wf_initial.
  assert (id = NextId (bus w b)) as Hid by apply register_id.
  destruct Hwf as (Hs & Hl & Hf).
  destruct (Hf b Hlt) as (Hnext & _).
  assert (∀ ty', HandlerTypes (bus w b) !! NextId (bus w b) = None ∧
                 find_if (NextId (bus w b)) (Slots (dispatcher_of w b ty')) = None)
    as Hfresh.
  { intros ty'. by apply wf_fresh_id. }
  rewrite Hid.
  split; [done|]. split; [apply (Hfresh ty)|]. split; [intros ty'; apply Hfresh|].
  split; [apply register_HandlerTypes_new, (Hfresh ty)|]. split; [|split].
  - unfold w1. rewrite register_dispatcher_of_eq. simpl.
    apply find_if_new; [done|apply Hfresh].
  - unfold w1. rewrite register_Flags. simpl. apply load_alloc_new.
  - intros ty' Hne. unfold w1. rewrite register_dispatcher_of_ne; [apply Hfresh|].
    intros [_ ?]. done.
Qed.


Lemma clean_initial (u : U) : clean (initial u : World).
Proof.
  intros b ty s. rewrite dispatcher_of_initial. simpl.
  intros H. by apply not_elem_of_nil in H.
Qed.


(** ** One-shot slots do not survive a delivery that returns *)

Lemma Dispatch_loop_consumes exec ev snapshot nc w :
  (∀ a n, keeps (dead a n) exec) → (∀ n, keeps (alloc n) exec) →
  Forall (fun s => Active s < length (Flags w)) snapshot →
  let r := Dispatch_loop exec ev snapshot nc w in
  r.1.1 = Returned →
  ∀ s, s ∈ snapshot → IsOneShot s = true → load (Flags r.2) (Active s) = false.
Proof.
  intros Hdead Halloc. revert nc w.
  induction snapshot as [|slot rest IH]; intros nc w Hall; simpl.
  { intros _ s Hs. by apply not_elem_of_nil in Hs. }
  apply Forall_cons in Hall as [Hslot Hrest].
  assert (∀ (nc' : bool) w2,
            length (Flags w) ≤ length (Flags w2) →
            (IsOneShot slot = true → load (Flags w2) (Active slot) = false) →
            (Dispatch_loop exec ev rest nc' w2).1.1 = Returned →
            ∀ s, s ∈ slot :: rest → IsOneShot s = true →
                 load (Flags (Dispatch_loop exec ev rest nc' w2).2) (Active s) = false)
    as Hnext.
  { intros nc' w2 Hlen Hfalse Hret s Hs Hos.
    apply elem_of_cons in Hs as [->|Hs].
    - assert (dead (Active slot) (hits (Active slot) (Trace w2)) w2) as Hd.
      { split; [lia|]. split; [by apply Hfalse|done]. }
      apply (Dispatch_loop_keeps _ exec ev rest nc' w2 (dead_stable _ _) (Hdead _ _))
        in Hd.
      by destruct Hd as (_ & Hf & _).
    - apply (IH nc' w2); [|done..].
      eapply Forall_impl; [exact Hrest|]. intros; simpl in *; lia. }
  assert (∀ (nc' : bool) w1,
            length (Flags w1) = length (Flags w) →
            (IsOneShot slot = true → load (Flags w1) (Active slot) = false) →
            let r := match exec (CallbackV slot ev)
                             (log (invoked slot ev ViaDispatch w1) w1) with
                     | (Returned, w2) => Dispatch_loop exec ev rest nc' w2
                     | (st, w2) => (st, nc', w2)
                     end in
            r.1.1 = Returned →
            ∀ s, s ∈ slot :: rest → IsOneShot s = true →
                 load (Flags r.2) (Active s) = false) as Hcall.
  { intros nc' w1 Hlen Hfalse.
    set (w1' := log (invoked slot ev ViaDispatch w1) w1).
    pose proof (Halloc (length (Flags w)) (CallbackV slot ev) w1') as Hal.
    unfold alloc in Hal. simpl in Hal. rewrite Hlen in Hal. specialize (Hal (le_n _)).
    assert (IsOneShot slot = true →
            load (Flags (exec (CallbackV slot ev) w1').2) (Active slot) = false)
      as Hf2.
    { intros Hos.
      assert (dead (Active slot) (hits (Active slot) (Trace w1')) w1') as Hd.
      { split; [simpl; lia|]. split; [by apply Hfalse|done]. }
      apply (Hdead _ _ (CallbackV slot ev)) in Hd. by destruct Hd as (_ & Hf & _). }
    destruct (exec _ _) as [[] w2]; cbn [fst snd] in *; [|done..].
    by apply Hnext. }
  destruct (IsOneShot slot) eqn:Hos.
  - destruct (load (Flags w) (Active slot)) eqn:Hl.
    + apply (Hcall true (claim slot w)); [apply length_store|].
      intros _. apply load_store_same.
    + by apply Hnext.
  - destruct (load (Flags w) (Active slot)) eqn:Hl; simpl.
    + by apply (Hcall nc w).
    + by apply Hnext.
Qed.

(** X15.  A delivery that returns leaves none of the one-shot handlers
    it started with: every one-shot slot of the snapshot is inactive
    when the call returns (invoked by this delivery, or claimed or
    unsubscribed in the meantime), and if it was active when the
    delivery started it is in no slot list any more. *)
Theorem Dispatch_consumes_oneshots fuel b ty ev w :
  owned w →
  let r := TEventSystem_Dispatch (Dispatch (run fuel)) b ty ev w in
  r.1 = Returned →
  ∀ s, s ∈ Slots (dispatcher_of w b ty) → IsOneShot s = true →
    load (Flags r.2) (Active s) = false ∧
    (load (Flags w) (Active s) = true →
     ∀ b' ty', s ∉ Slots (dispatcher_of r.2 b' ty')).
Proof.
  intros Hw r Hret s Hs Hos.
  assert (load (Flags r.2) (Active s) = false) as Hf.
  { revert Hret. unfold r, TEventSystem_Dispatch, Dispatch.
    set (wp := PushFrame (mkFrame b ty ev)
                 (set_bus b (GetDispatcher ty (bus w b)).2 w)).
    assert (dispatcher_of wp b ty = dispatcher_of w b ty) as Hdp
      by apply (enter_dispatcher_of b ty w b ty).
    pose proof (Dispatch_loop_consumes (run fuel) ev (Slots (dispatcher_of wp b ty))
                  false wp
                  (fun a n => run_keeps _ fuel (dead_stable a n))
                  (fun n => run_keeps _ fuel (alloc_stable n))) as Hloop.
    rewrite Hdp in *.
    assert (Forall (fun s => Active s < length (Flags wp))
              (Slots (dispatcher_of w b ty))) as Hall by by destruct (Hw b ty).
    specialize (Hloop Hall). cbv zeta in Hloop.
    destruct (Dispatch_loop _ _ _ _ _) as [[st nc'] w']. cbn [fst snd] in *.
    destruct st; cbn [fst snd]; try done. intros _.
    specialize (Hloop eq_refl s Hs Hos). by destruct nc'. }
  split; [done|]. intros Hact b' ty' Hin.
  assert (r.1 ≠ OutOfFuel) as Hne by (rewrite Hret; done).
  pose proof (TEventSystem_Dispatch_settles (run fuel) b ty ev w
                (run_keeps owned fuel owned_stable)
                (fun L n => run_keeps _ fuel (grown_stable L n))
                (run_settles fuel) Hw Hne b' ty' s Hin Hf) as [_ Hl].
  congruence.
Qed.


(** ** A one-shot handler subscribed during a delivery *)

(** X16.  [SubscribeOnce] called while a delivery of the same event
    type is in flight on the bus: the new handler is claimed, invoked on
    the event of the innermost such delivery and, when its callback has
    returned or thrown, excised.  When the call ends the slot is
    inactive and in no slot list, so no later delivery reaches it; an
    exception of the callback leaves [SubscribeOnce] as an exception. *)
Theorem SubscribeOnce_during_dispatch_consumed fuel b ty pr h k w fr :
  wf w → owned w →
  current_frame b ty (DispatchStack w) = Some fr →
  (N.of_nat (length (issued_by b (Trace w))) + 1 < SIZE_MOD)%N →
  let id := NextId (bus w b) in
  let slot := new_slot b ty pr h true w in
  let w1 := (SubscribeImpl_register b ty pr h true w).2 in
  let w3 := log (invoked slot (Event fr) ViaInvokeSingle (claim slot w1))
                (claim slot w1) in
  let r := run fuel (h (Event fr)) w3 in
  r.1 = Returned ∨ r.1 = Raised →
  let w5 := Cleanup b ty r.2 in
  run (S fuel) (CallSubscribe b ty pr true h k) w
  = match r.1 with Returned => run fuel (k id) w5 | _ => (Raised, w5) end ∧
  load (Flags w5) (Active slot) = false ∧
  (∀ b' ty', slot ∉ Slots (dispatcher_of w5 b' ty')) ∧
  GetHandlerCount b ty w5 = GetHandlerCount b ty r.2.
Proof.
  intros Hwf Hown Hfr Hlt id slot w1 w3 r Hst w5.
  destruct (wf_fresh_id w b ty Hwf Hlt) as [_ Hfind].
  assert (run (S fuel) (CallSubscribe b ty pr true h k) w
          = match r with
            | (Returned, w4) => run fuel (k id) (Cleanup b ty w4)
            | (Raised, w4) => (Raised, Cleanup b ty w4)
            | (OutOfFuel, w4) => (OutOfFuel, w4)
            end) as Heq
    by exact (run_CallSubscribe_in_flight fuel b ty pr true h k w fr Hfr Hfind).
  assert (owned w3) as Hown3.
  { pose proof (st_register owned owned_stable b ty pr h true w Hown) as H1.
    fold w1 in H1.
    assert (load (Flags w1) (Active slot) = true) as Hl.
    { unfold w1. rewrite register_Flags. simpl. apply load_alloc_new. }
    exact (st_invoke owned owned_stable slot (Event fr) ViaInvokeSingle w1 H1 Hl). }
  assert (dead (Active slot) (hits (Active slot) (Trace w3)) w3) as Hd.
  { split; [|split; [|done]].
    - simpl. rewrite length_store. unfold w1. rewrite register_Flags, length_app.
      simpl. lia.
    - simpl. apply load_store_same. }
  apply (run_keeps _ fuel (dead_stable _ _) (h (Event fr))) in Hd.
  fold r in Hd. destruct Hd as (_ & Hf & _).
  assert (r.1 ≠ OutOfFuel) as Hne by (by destruct Hst as [-> | ->]).
  pose proof (run_settles fuel (h (Event fr)) w3 Hown3 Hne) as Hs. fold r in Hs.
  split; [|split; [done|split]].
  - rewrite Heq. unfold w5. clearbody r.
    destruct r as [[] w4]; cbn [fst snd] in *; done.
  - intros b' ty' Hin.
    destruct (decide (b' = b ∧ ty' = ty)) as [[-> ->]|Hne'].
    { apply Cleanup_slots_active in Hin. congruence. }
    unfold w5 in Hin. rewrite Cleanup_dispatcher_of, decide_False in Hin by done.
    destruct (Hs b' ty' slot Hin Hf) as [Hin3 _].
    change (dispatcher_of w3 b' ty') with (dispatcher_of w1 b' ty') in Hin3.
    unfold w1 in Hin3. rewrite register_dispatcher_of_ne in Hin3 by done.
    pose proof (owned_lt w b' ty' slot Hown Hin3) as Hlt'. simpl in Hlt'. lia.
  - rewrite !GetHandlerCount_Count. unfold w5.
    change (Flags (Cleanup b ty r.2)) with (Flags r.2).
    rewrite Cleanup_dispatcher_of, decide_True by done.
    apply Count_CleanupUnlocked.
Qed.


(** ** Invariants of the earlier revision *)

Lemma dispatch_loop_keeps P exec ev snapshot nc w :
  stable_legacy P → keeps P exec → P w →
  P (dispatch_loop exec ev snapshot nc w).2.
Proof.
  intros HP Hexec. revert nc w.
  induction snapshot as [|slot rest IH]; intros nc w Hw; simpl; [done|].
  destruct (load (Flags w) (Active slot)) eqn:Hl; simpl; [|by apply IH].
  pose proof (sl_invoke P HP slot ev ViaDispatch w Hw Hl) as Hinv.
  apply (Hexec (CallbackV slot ev)) in Hinv.
  destruct (exec _ _) as [[] w2]; simpl in *; [|done..].
  destruct (IsOneShot slot); apply IH; [by apply sl_claim|done].
Qed.

Lemma dispatch_keeps P exec b ty ev w :
  stable_legacy P → keeps P exec → P w → P (dispatch exec b ty ev w).2.
Proof.
  intros HP Hexec Hw. unfold dispatch.
  pose proof (dispatch_loop_keeps P exec ev (Slots (dispatcher_of w b ty)) false w
                HP Hexec Hw) as H.
  destruct (dispatch_loop _ _ _ _ _) as [[[] nc] w']; simpl in *; try done.
  destruct nc; [|done]. by apply (st_cleanup P (sl_stable P HP)).
Qed.

Lemma invokeSingle_keeps P exec b ty id ev w :
  stable_legacy P → keeps P exec → P w → P (invokeSingle exec b ty id ev w).2.
Proof.
  intros HP Hexec Hw. unfold invokeSingle.
  destruct (find_if _ _) as [slot|]; [|done].
  destruct (load (Flags w) (Active slot)) eqn:Hl; simpl; [|done].
  pose proof (sl_invoke P HP slot ev ViaInvokeSingle w Hw Hl) as Hinv.
  apply (Hexec (CallbackV slot ev)) in Hinv.
  destruct (exec _ _) as [[] w2]; simpl in *; [|done..].
  destruct (IsOneShot slot); [|done].
  by apply (st_cleanup P (sl_stable P HP)), sl_claim.
Qed.

Lemma step_keeps_legacy P exec p w :
  stable_legacy P → keeps P exec → P w →
  P (step (dispatch exec) (invokeSingle exec) exec p w).2.
Proof.
  intros HP Hexec Hw. pose proof (sl_stable P HP) as HS.
  destruct p as [| |k|u k|body k|b ty pr os h k|b id k|b ty ev k|b ty k];
    simpl; try done.
  - by apply Hexec.
  - by apply Hexec, (st_user P HS).
  - pose proof (Hexec body w Hw) as H1.
    destruct (exec body w) as [[] w1]; simpl in *; try done; by apply Hexec.
  - pose proof (st_register P HS b ty pr h os w Hw) as H1.
    destruct (SubscribeImpl_register _ _ _ _ _ _) as [id w1]. cbn [fst snd] in *.
    unfold NotifyCurrentDispatch.
    destruct (current_frame _ _ _) as [fr|]; [|by apply Hexec].
    pose proof (invokeSingle_keeps P exec (System fr) (EventTypeIndex fr) id
                  (Event fr) w1 HP Hexec H1) as H2.
    destruct (invokeSingle _ _ _ _ _ _) as [[] w2]; simpl in *; try done.
    by apply Hexec.
  - by apply Hexec, (st_unsubscribe P HS).
  - unfold TEventSystem_Dispatch.
    pose proof (st_enter P HS b ty ev w Hw) as H1.
    apply (dispatch_keeps P exec b ty ev) in H1; [|done..].
    destruct (dispatch _ _ _ _ _) as [[] w2]; simpl in *; try done.
    + by apply Hexec, (st_leave P HS).
    + by apply (st_leave P HS).
  - by apply Hexec.
Qed.

Lemma run_legacy_keeps P fuel : stable_legacy P → keeps P (run_legacy fuel).
Proof.
  intros HP. induction fuel as [|fuel IH]; intros p w Hw; simpl; [done|].
  by apply step_keeps_legacy.
Qed.

Lemma slots_inv_stable_legacy : stable_legacy slots_inv.
Proof.
  split; [apply slots_inv_stable| |].
  - intros slot ev via w Hw _. by apply (slots_inv_filter w); [|left|].
  - intros slot w Hw. apply (slots_inv_filter w); [apply length_store|by left|done].
Qed.

Lemma owned_stable_legacy : stable_legacy owned.
Proof.
  split; [apply owned_stable| |].
  - intros slot ev via w Hw _. by apply (owned_filter w); [|left|].
  - intros slot w Hw. apply (owned_filter w); [apply length_store|by left|done].
Qed.

Lemma ids_inv_stable_legacy : stable_legacy ids_inv.
Proof.
  split; [apply ids_inv_stable| |].
  - intros slot ev via w Hw _ b. cbv zeta. simpl.
    rewrite issued_by_app. simpl. rewrite app_nil_r. apply Hw.
  - intros slot w Hw b. apply Hw.
Qed.

Lemma dead_stable_legacy a n : stable_legacy (dead a n).
Proof.
  split; [apply dead_stable| |].
  - intros slot ev via w (Hlt & Hf & Hn) Hload.
    assert (Active slot ≠ a) as Hne by (intros E; rewrite E in Hload; congruence).
    unfold dead. simpl. rewrite hits_app. simpl.
    rewrite bool_decide_eq_false_2 by done. split; [done|]. split; [done|lia].
  - intros slot w (Hlt & Hf & Hn). unfold dead. simpl. rewrite length_store.
    split; [done|]. split; [by apply load_store_false|done].
Qed.

(** X17.  The earlier revision keeps the order of the slot lists: in
    every world it reaches from the start of the process, whatever the
    handlers do, every slot list is in delivery order (by priority, High
    first, then by subscription order), its flags are allocated and no
    flag occurs twice, in one list or in two. *)
Theorem legacy_reachable_slot_lists_sorted fuel p (u : U) b ty :
  let w := (run_legacy fuel p (initial u)).2 in
  let l := Slots (dispatcher_of w b ty) in
  StronglySorted slot_before l ∧
  StronglySorted prio_ge l ∧
  Forall (fun s => Active s < length (Flags w)) l ∧
  NoDup (map Active l) ∧
  (∀ b' ty' s s', s ∈ l → s' ∈ Slots (dispatcher_of w b' ty') →
                  Active s = Active s' → b' = b ∧ ty' = ty).
Proof.
  intros w l.
  assert (slots_inv w) as Hs.
  { apply (run_legacy_keeps slots_inv fuel slots_inv_stable_legacy), wf_initial. }
  assert (owned w) as Ho
    by apply (run_legacy_keeps owned fuel owned_stable_legacy), owned_initial.
  destruct (Hs b ty) as [H1 H2]. destruct (Ho b ty) as (_ & H3 & H4).
  split; [done|]. split; [|done].
  eapply StronglySorted_weaken; [|done]. apply slot_before_prio_ge.
Qed.

(** X18.  The earlier revision issues identifiers as the current one
    does: from the start of the process, while a bus has issued fewer
    than 2^64 identifiers, the identifiers it has issued are 1, 2, ...,
    n in this order, each greater than those before and none twice. *)
Theorem legacy_handler_ids_increase fuel p (u : U) b :
  let ids := issued_by b (Trace (run_legacy fuel p (initial u)).2) in
  (N.of_nat (length ids) < SIZE_MOD)%N →
  ids = map N.of_nat (seq 1 (length ids)) ∧
  Forall (fun i => (1 ≤ i)%N) ids ∧
  StronglySorted N.lt ids ∧
  NoDup ids.
Proof.
  intros ids Hn.
  destruct (run_legacy_keeps ids_inv fuel ids_inv_stable_legacy p (initial u)
              (ids_inv_initial u) b) as [_ H2].
  specialize (H2 Hn). fold ids in H2.
  split; [done|]. rewrite H2.
  split; [|split].
  - apply Forall_forall. intros x Hx.
    apply list_elem_of_fmap in Hx as (y & -> & Hy).
    apply list_elem_of_In, in_seq in Hy. lia.
  - apply seq_1_sorted.
  - apply (NoDup_fmap_2 N.of_nat), NoDup_ListNoDup, List.seq_NoDup.
Qed.

(** X19.  In the earlier revision too, a handler that has been
    unsubscribed is not invoked again: after [unsubscribe] with its
    identifier its flag is false, and whatever is executed afterwards,
    deliveries in flight included, the number of its invocations does
    not change. *)
Theorem legacy_Unsubscribe_suppresses_target b id ty target w :
  HandlerTypes (bus w b) !! id = Some ty →
  find_if id (Slots (dispatcher_of w b ty)) = Some target →
  Active target < length (Flags w) →
  let w1 := log (Unsubscribed b id) (UnsubscribeImpl b id w) in
  (∀ fuel k, run_legacy (S fuel) (CallUnsubscribe b id k) w = run_legacy fuel k w1) ∧
  load (Flags w1) (Active target) = false ∧
  (∀ fuel k fuel' ev rest nc fuel'' p,
     let w2 := (run_legacy fuel k w1).2 in
     let w3 := (dispatch_loop (run_legacy fuel') ev rest nc w2).2 in
     let w4 := (run_legacy fuel'' p w3).2 in
     hits (Active target) (Trace w2) = hits (Active target) (Trace w) ∧
     hits (Active target) (Trace w3) = hits (Active target) (Trace w) ∧
     hits (Active target) (Trace w4) = hits (Active target) (Trace w)).
Proof.
  intros Hty Hfind Hlt w1.
  assert (load (Flags w1) (Active target) = false) as Hf
    by by apply (UnsubscribeImpl_deactivates b id ty).
  assert (dead (Active target) (hits (Active target) (Trace w)) w1) as Hd.
  { split; [|split; [done|]].
    - simpl. by rewrite UnsubscribeImpl_length.
    - simpl. rewrite hits_app, UnsubscribeImpl_Trace. simpl. lia. }
  split; [done|]. split; [done|].
  intros fuel k fuel' ev rest nc fuel'' p w2 w3 w4.
  assert (dead (Active target) (hits (Active target) (Trace w)) w2) as H2
    by by apply (run_legacy_keeps _ fuel (dead_stable_legacy _ _)).
  assert (dead (Active target) (hits (Active target) (Trace w)) w3) as H3.
  { apply dispatch_loop_keeps; [apply dead_stable_legacy| |done].
    apply run_legacy_keeps, dead_stable_legacy. }
  assert (dead (Active target) (hits (Active target) (Trace w)) w4) as H4
    by by apply (run_legacy_keeps _ fuel'' (dead_stable_legacy _ _)).
  destruct H2 as (_ & _ & ?), H3 as (_ & _ & ?), H4 as (_ & _ & ?). done.
Qed.

(** X20.  The earlier revision pairs [pushFrame] and [popFrame] as the
    current one does: an execution that terminates, by return or by
    exception, leaves the thread's frame stack as it found it. *)
Theorem run_legacy_restores_DispatchStack fuel p w :
  (run_legacy fuel p w).1 = Returned ∨ (run_legacy fuel p w).1 = Raised →
  DispatchStack (run_legacy fuel p w).2 = DispatchStack w.
Proof.
  assert (∀ p w, (run_legacy fuel p w).1 ≠ OutOfFuel →
                 DispatchStack (run_legacy fuel p w).2 = DispatchStack w) as H.
  2:{ intros Hst. apply H. by destruct Hst as [-> | ->]. }
  clear p w. induction fuel as [|fuel IH]; intros p w; simpl; [by intros []|].
  assert (∀ ev snapshot (nc : bool) w,
            (dispatch_loop (run_legacy fuel) ev snapshot nc w).1.1 ≠ OutOfFuel →
            DispatchStack (dispatch_loop (run_legacy fuel) ev snapshot nc w).2
            = DispatchStack w) as Hloop.
  { intros ev snapshot. induction snapshot as [|slot rest IHl]; intros nc w0; simpl;
      [done|].
    destruct (load (Flags w0) (Active slot)); simpl; [|apply IHl].
    pose proof (IH (CallbackV slot ev) (log (invoked slot ev ViaDispatch w0) w0))
      as Hcb.
    destruct (run_legacy fuel _ _) as [[] w2]; cbn [fst snd] in *.
    - specialize (Hcb ltac:(done)).
      destruct (IsOneShot slot); intros Hr; rewrite IHl by done; done.
    - intros _. by apply Hcb.
    - by intros []. }
  assert (∀ b ty ev w,
            (TEventSystem_Dispatch (dispatch (run_legacy fuel)) b ty ev w).1
              ≠ OutOfFuel →
            DispatchStack (TEventSystem_Dispatch (dispatch (run_legacy fuel))
                             b ty ev w).2 = DispatchStack w) as Hdisp.
  { intros b ty ev w0. unfold TEventSystem_Dispatch, dispatch.
    set (wp := PushFrame _ _).
    pose proof (Hloop ev (Slots (dispatcher_of wp b ty)) false wp) as Hl.
    destruct (dispatch_loop _ _ _ _ _) as [[st nc'] w']. cbn [fst snd] in *.
    destruct st; cbn [fst snd].
    - intros _. specialize (Hl ltac:(done)).
      destruct nc'; simpl; by rewrite Hl.
    - intros _. specialize (Hl ltac:(done)). simpl. by rewrite Hl.
    - by intros []. }
  assert (∀ b ty id ev w,
            (invokeSingle (run_legacy fuel) b ty id ev w).1 ≠ OutOfFuel →
            DispatchStack (invokeSingle (run_legacy fuel) b ty id ev w).2
            = DispatchStack w) as Hsingle.
  { intros b ty id ev w0. unfold invokeSingle.
    destruct (find_if _ _) as [slot|]; [|done].
    destruct (load (Flags w0) (Active slot)); simpl; [|done].
    pose proof (IH (CallbackV slot ev) (log (invoked slot ev ViaInvokeSingle w0) w0))
      as Hcb.
    destruct (run_legacy fuel _ _) as [[] w2]; cbn [fst snd] in *.
    - intros _. specialize (Hcb ltac:(done)). by destruct (IsOneShot slot).
    - intros _. by apply Hcb.
    - by intros []. }
  destruct p as [| |k|u k|body k|b ty pr os h k|b id k|b ty ev k|b ty k]; simpl.
  - done.
  - done.
  - apply IH.
  - intros Hr. by rewrite IH.
  - pose proof (IH body w) as H1.
    destruct (run_legacy fuel body w) as [[] w1]; cbn [fst snd] in *.
    + intros Hr. rewrite IH by done. by apply H1.
    + intros Hr. rewrite IH by done. by apply H1.
    + by intros [].
  - pose proof (register_DispatchStack b ty pr h os w) as H1.
    destruct (SubscribeImpl_register _ _ _ _ _ _) as [id w1]. cbn [fst snd] in *.
    unfold NotifyCurrentDispatch.
    destruct (current_frame _ _ _) as [fr|].
    + pose proof (Hsingle (System fr) (EventTypeIndex fr) id (Event fr) w1) as H2.
      destruct (invokeSingle _ _ _ _ _ _) as [[] w2]; cbn [fst snd] in *.
      * intros Hr. rewrite IH by done. rewrite H2 by done. done.
      * intros _. rewrite H2 by done. done.
      * by intros [].
    + intros Hr. by rewrite IH.
  - intros Hr. rewrite IH by done. simpl. apply UnsubscribeImpl_DispatchStack.
  - pose proof (Hdisp b ty ev w) as H1.
    destruct (TEventSystem_Dispatch _ _ _ _ _) as [[] w1]; cbn [fst snd] in *.
    + intros Hr. rewrite IH by done. by apply H1.
    + intros _. by apply H1.
    + by intros [].
  - apply IH.
Qed.


(** ** The order of a delivery *)

Lemma hits_app_list a (t1 t2 : list (TraceEvent Payload)) :
  hits a (t1 ++ t2) = hits a t1 + hits a t2.
Proof. unfold hits. by rewrite List.filter_app, length_app. Qed.

Lemma own_invocation_hit n e (pr : EPriority) a :
  own_invocation n e = Some (pr, a) → is_hit a e = true.
Proof.
  destruct e as [flag id prio os ev via depth| |]; simpl; try done.
  destruct via; [|done]. destruct (bool_decide (depth = n)); [|done].
  intros [= _ ->]. by apply bool_decide_eq_true_2.
Qed.

Lemma own_invocations_hits n suf (pr : EPriority) a :
  (pr, a) ∈ own_invocations n suf → 0 < hits a suf.
Proof.
  unfold own_invocations, hits. intros Hin.
  apply list_elem_of_omap in Hin as (e & He & Hown).
  apply own_invocation_hit in Hown.
  assert (e ∈ List.filter (is_hit a) suf) as Hf.
  { apply list_elem_of_In, List.filter_In. split; [by apply list_elem_of_In|done]. }
  destruct (List.filter (is_hit a) suf); [by apply not_elem_of_nil in Hf|simpl; lia].
Qed.

Lemma sublist_filter_keys (k : list (EPriority * nat)) (l : list TSlot)
    (f : nat → bool) :
  k `sublist_of` map slot_key l → Forall (fun x => f x.2 = true) k →
  k `sublist_of` map slot_key (List.filter (fun s => f (Active s)) l).
Proof.
  revert k. induction l as [|s l IH]; intros k Hsub Hall; simpl in *.
  { apply sublist_nil_r in Hsub. by subst. }
  apply sublist_cons_r in Hsub as [Hsub|(k' & -> & Hsub)].
  - destruct (f (Active s)); [apply sublist_cons|]; by apply IH.
  - apply Forall_cons in Hall as [Hs Hall]. simpl in Hs. rewrite Hs. simpl.
    apply sublist_skip. by apply IH.
Qed.

Lemma own_invocations_delivery ev n (l : list TSlot) :
  own_invocations n (map (delivery_entry ev n) l) = map slot_key l.
Proof.
  induction l as [|s l IH]; [done|].
  change (own_invocations n (map (delivery_entry ev n) (s :: l)))
    with (match own_invocation n (delivery_entry ev n s) with
          | Some x => x :: own_invocations n (map (delivery_entry ev n) l)
          | None => own_invocations n (map (delivery_entry ev n) l)
          end).
  rewrite IH. simpl. by rewrite bool_decide_eq_true_2.
Qed.

Lemma Dispatch_loop_quiet_active ev (l : list TSlot) :
  NoDup (map Active l) → ∀ w,
  Forall (fun s => quiet (CallbackV s ev))
         (List.filter (fun s => load (Flags w) (Active s)) l) →
  ∃ n, ∀ fuel (nc : bool), n ≤ fuel →
    ∃ nc' : bool,
      Dispatch_loop (run fuel) ev l nc w
      = (Returned, nc',
         delivered ev (List.filter (fun s => load (Flags w) (Active s)) l) w).
Proof.
  induction l as [|x l IH]; intros Hnd w Hq.
  { exists 0. intros fuel nc _. by exists nc. }
  apply NoDup_cons in Hnd as [Hx Hnd]. simpl in Hq.
  destruct (load (Flags w) (Active x)) eqn:Hl.
  - apply Forall_cons in Hq as [Hqx Hq].
    assert (List.filter (fun s => load (Flags (after_callback ev w x)) (Active s)) l
            = List.filter (fun s => load (Flags w) (Active s)) l) as Hfilter.
    { apply List.filter_ext_in. intros s Hs.
      unfold after_callback. destruct (IsOneShot x); [|done]. simpl.
      apply load_store_other. intros E. apply Hx. rewrite E.
      apply list_elem_of_fmap. exists s. split; [done|]. by apply list_elem_of_In. }
    destruct (IH Hnd (after_callback ev w x)) as [n Hn].
    { by rewrite Hfilter. }
    exists (max (steps (CallbackV x ev) (UserState w)) n).
    intros fuel nc Hf. simpl. rewrite Hl. simpl.
    unfold delivered in *. simpl. rewrite Hfilter in Hn.
    unfold after_callback at 2. unfold after_callback in Hn.
    destruct (IsOneShot x) eqn:Hos; simpl.
    + destruct (run_quiet _ Hqx fuel
                  (log (invoked x ev ViaDispatch (claim x w)) (claim x w)))
        as [-> _]; [simpl; lia|].
      apply (Hn fuel true). lia.
    + destruct (run_quiet _ Hqx fuel (log (invoked x ev ViaDispatch w) w))
        as [-> _]; [simpl; lia|].
      apply (Hn fuel nc). lia.
  - destruct (IH Hnd w Hq) as [n Hn]. exists n. intros fuel nc Hf.
    simpl. rewrite Hl. simpl.
    destruct (IsOneShot x); by apply Hn.
Qed.

Lemma TEventSystem_Dispatch_quiet_active b ty ev w :
  let la := List.filter (fun s => load (Flags w) (Active s))
                        (Slots (dispatcher_of w b ty)) in
  NoDup (map Active (Slots (dispatcher_of w b ty))) →
  Forall (fun s => quiet (CallbackV s ev)) la →
  ∃ n, ∀ fuel, n ≤ fuel →
    let r := TEventSystem_Dispatch (Dispatch (run fuel)) b ty ev w in
    r.1 = Returned ∧
    Trace r.2
    = Trace w ++ map (delivery_entry ev (S (length (DispatchStack w)))) la.
Proof.
  intros la Hnd Hq.
  set (wp := PushFrame (mkFrame b ty ev)
               (set_bus b (GetDispatcher ty (bus w b)).2 w)).
  assert (dispatcher_of wp b ty = dispatcher_of w b ty) as Hdp
    by apply (enter_dispatcher_of b ty w b ty).
  destruct (Dispatch_loop_quiet_active ev (Slots (dispatcher_of w b ty)) Hnd wp Hq)
    as [n Hn].
  exists n. intros fuel Hf r.
  destruct (Hn fuel false Hf) as [nc' Hloop].
  change (Flags wp) with (Flags w) in Hloop. fold la in Hloop.
  destruct (delivered_fields ev la wp) as (_ & _ & F3 & _).
  unfold r, TEventSystem_Dispatch, Dispatch. fold wp. rewrite Hdp, Hloop.
  cbn [fst snd]. split; [done|]. by destruct nc'.
Qed.

(** C4, as amended.  One call of [TEventSystem::Dispatch] from a world
    whose slot lists are in delivery order and share no flag (every
    world the engine reaches is such).  The snapshot is in delivery
    order: priority first (High, Normal, Low), subscription order within
    a priority.  Whatever the handlers do, the callbacks that this
    delivery invokes from its own loop are slots of the snapshot that
    were active when the delivery started, taken in the order of the
    snapshot, and when the delivery returns every slot of the snapshot
    that is still active has been invoked by it.  When the handlers that
    are active at the start only read and write the state captured by
    their closures, the delivery returns, given enough fuel, and it has
    invoked exactly these handlers, each once, in delivery order.  A
    handler subscribed during the delivery is not invoked by the loop:
    it runs at its subscription, whatever its priority. *)
Theorem Dispatch_priority_order fuel b ty ev w :
  slots_inv w → owned w →
  let l := Slots (dispatcher_of w b ty) in
  let la := List.filter (fun s => load (Flags w) (Active s)) l in
  let d := S (length (DispatchStack w)) in
  StronglySorted delivered_before (map slot_key l) ∧
  StronglySorted delivered_before (map slot_key la) ∧
  (let r := TEventSystem_Dispatch (Dispatch (run fuel)) b ty ev w in
   ∃ suf, Trace r.2 = Trace w ++ suf ∧
          own_invocations d suf `sublist_of` map slot_key la ∧
          StronglySorted delivered_before (own_invocations d suf) ∧
          (r.1 = Returned →
           ∀ s, s ∈ l → load (Flags r.2) (Active s) = true →
                slot_key s ∈ own_invocations d suf)) ∧
  (Forall (fun s => quiet (CallbackV s ev)) la →
   ∃ n, ∀ fuel', n ≤ fuel' →
     let r := TEventSystem_Dispatch (Dispatch (run fuel')) b ty ev w in
     r.1 = Returned ∧
     Trace r.2 = Trace w ++ map (delivery_entry ev d) la ∧
     own_invocations d (map (delivery_entry ev d) la) = map slot_key la).
Proof.
  intros Hw Ho l la d.
  destruct (Hw b ty) as [Hlt Hs]. destruct (Ho b ty) as (_ & Hnd & _).
  apply slot_before_keys in Hs as Hs'.
  assert (StronglySorted delivered_before (map slot_key la)) as Hsa.
  { apply slot_before_keys. by apply StronglySorted_filter_bool. }
  split; [done|]. split; [done|]. split.
  - intros r.
    destruct (TEventSystem_Dispatch_scoped (run fuel) b ty ev w (run_scoped fuel))
      as [(suf & Hsuf & _ & Hsub) _].
    fold r in Hsuf. fold d in Hsub. fold l in Hsub.
    assert (own_invocations d suf `sublist_of` map slot_key la) as Hsub'.
    { apply (sublist_filter_keys _ l (load (Flags w))); [done|].
      apply Forall_forall. intros [pr a] Hin. simpl.
      destruct (load (Flags w) a) eqn:Hl; [done|].
      pose proof (own_invocations_hits d suf pr a Hin) as Hpos.
      assert (a < length (Flags w)) as Ha.
      { pose proof (elem_of_sublist _ _ _ Hin Hsub) as Hin'.
        apply list_elem_of_fmap in Hin' as (s & E & Hin'). inversion E; subst.
        by eapply Forall_forall in Hlt. }
      assert (dead a (hits a (Trace w)) w) as Hd by done.
      apply (TEventSystem_Dispatch_keeps_fine _ (run fuel) b ty ev w
               (stable_is_fine _ (dead_stable _ _))
               (run_keeps _ fuel (dead_stable _ _))) in Hd.
      destruct Hd as (_ & _ & Hh). fold r in Hh.
      rewrite Hsuf, hits_app_list in Hh. lia. }
    exists suf. split; [done|]. split; [done|]. split.
    + by eapply StronglySorted_sublist.
    + intros Hret. destruct (Dispatch_reaches fuel b ty ev w Hw Hret)
        as (suf' & Hsuf' & Hc).
      fold r in Hsuf'. rewrite Hsuf in Hsuf'.
      apply app_inv_head in Hsuf'. by subst.
  - intros Hq.
    destruct (TEventSystem_Dispatch_quiet_active b ty ev w Hnd Hq) as [n Hn].
    exists n. intros fuel' Hf r. destruct (Hn fuel' Hf) as [H1 H2].
    split; [done|]. split; [done|]. apply own_invocations_delivery.
Qed.

End Properties.

(** * Scenarios: evaluation of the engine on closed programs *)

(** C1 fails on the earlier revision ([Dispatcher::dispatch]).  The
    one-shot handler of [reentrant_oneshot] is invoked twice: its flag
    is still set while its callback runs, so the nested delivery reaches
    it again.  The current revision invokes it once on the same input. *)
Lemma dispatch_oneshot_reentrant_twice :
  oneshot_hits 0 (Trace (run_legacy 10 reentrant_oneshot start).2) = 2 ∧
  (run_legacy 10 reentrant_oneshot start).1 = Returned ∧
  oneshot_hits 0 (Trace (run 10 reentrant_oneshot start).2) = 1.
Proof. vm_compute. done. Qed.

Lemma Dispatch_oneshot_at_most_once_witness :
  Trace start = [] ∧
  oneshot_hits 0 (Trace (run 10 reentrant_oneshot start).2) ≤ 1.
Proof.
  split; [reflexivity|].
  apply (Dispatch_oneshot_at_most_once 10 reentrant_oneshot start 0).
  reflexivity.
Defined.

(** C2 fails on the earlier revision ([Dispatcher::dispatch]).  The
    first delivery throws and so does the second: the one-shot handler
    whose callback threw is still active and in the list, fires again
    (two invocations), and the Low handler is never reached.  The
    current revision, on the same input: the first delivery throws, the
    second returns, the one-shot handler has fired once and the Low
    handler once. *)
Lemma dispatch_oneshot_refires_after_throw :
  (let r := run_legacy 10 throwing_oneshot start in
   r.1 = Returned ∧ UserState r.2 = 11 ∧
   hits 0 (Trace r.2) = 2 ∧ hits 1 (Trace r.2) = 0 ∧
   GetHandlerCount 0 7 r.2 = 2) ∧
  (let r := run 10 throwing_oneshot start in
   r.1 = Returned ∧ UserState r.2 = 10 ∧
   hits 0 (Trace r.2) = 1 ∧ hits 1 (Trace r.2) = 1 ∧
   GetHandlerCount 0 7 r.2 = 1).
Proof. vm_compute. done. Qed.

(** The delivery order of the six handlers: H1, H2, N1, N2, L1, L2. *)
Example six_handlers_order :
  own_invocations 1
    (Trace (TEventSystem_Dispatch (Dispatch (run 3)) 0 7 0 six_subscribed).2)
  = [(High, 1); (High, 3); (Normal, 2); (Normal, 5); (Low, 0); (Low, 4)].
Proof. vm_compute. reflexivity. Qed.

Lemma Unsubscribe_suppresses_target_witness :
  let target := mkSlot 1%N Low (fun _ : nat => @Ret nat nat) false 0 in
  HandlerTypes (bus in_high_handler 0) !! 1%N = Some 7 ∧
  find_if 1%N (Slots (dispatcher_of in_high_handler 0 7)) = Some target ∧
  Active target < length (Flags in_high_handler) ∧
  load (Flags (UnsubscribeImpl 0 1%N in_high_handler)) 0 = false.
Proof.
  intros target.
  assert (HandlerTypes (bus in_high_handler 0) !! 1%N = Some 7) as H1
    by (vm_compute; reflexivity).
  assert (find_if 1%N (Slots (dispatcher_of in_high_handler 0 7)) = Some target)
    as H2 by (vm_compute; reflexivity).
  assert (Active target < length (Flags in_high_handler)) as H3
    by (vm_compute; lia).
  split; [exact H1|]. split; [exact H2|]. split; [exact H3|].
  exact (proj1 (proj2 (proj2
    (Unsubscribe_suppresses_target 0 1%N 7 target in_high_handler H1 H2 H3)))).
Defined.

(** C6, the claim as stated fails.  Inside the callback of a one-shot
    handler the slot is already claimed (its flag is false) and still in
    the list; [Remove] with its identifier finds it and returns true. *)
Lemma Remove_inactive_returns_true :
  let w := (run 3 oneshot_observer start).2 in
  let d := dispatcher_of w 0 7 in
  (∃ slot, find_if 1%N (Slots d) = Some slot ∧
           load (Flags w) (Active slot) = false) ∧
  (Remove 1%N (Flags w) d).1.1 = true.
Proof. vm_compute. split; [eexists; split; reflexivity | reflexivity]. Qed.


(** C8, the claim as stated fails: the counter belongs to the bus.  The
    first subscription on bus 0 and the first on bus 1 both get the
    identifier 1; the second identifier issued in the process is not
    greater than the first. *)
Lemma two_buses_issue_the_same_id :
  (run 3 two_buses start).1 = Returned ∧
  Trace (run 3 two_buses start).2 = [Issued 0 1%N; Issued 1 1%N].
Proof. vm_compute. done. Qed.

(** At the last value of [std::size_t] the counter wraps to 0. *)
Example fetch_add_wraps :
  fetch_add (mkSystem (U:=nat) (Payload:=nat) ∅ ∅ (SIZE_MOD - 1)%N)
  = ((SIZE_MOD - 1)%N, mkSystem ∅ ∅ 0%N).
Proof. reflexivity. Qed.

Lemma handler_ids_increase_per_bus_witness :
  Systems start = ∅ ∧ Trace start = [] ∧
  (N.of_nat (length (issued_by 0%nat
                       (Trace (run 7 (six_handlers Ret) start).2)))
   < SIZE_MOD)%N ∧
  StronglySorted N.lt (issued_by 0 (Trace (run 7 (six_handlers Ret) start).2)).
Proof.
  assert ((N.of_nat (length (issued_by 0%nat
             (Trace (run 7 (six_handlers Ret) start).2))) < SIZE_MOD)%N) as H
    by (vm_compute; reflexivity).
  split; [reflexivity|]. split; [reflexivity|]. split; [exact H|].
  exact (proj1 (proj2 (proj2
    (handler_ids_increase_per_bus 7 (six_handlers Ret) start 0
       eq_refl eq_refl H)))).
Defined.

Lemma move_assign_transfers_witness :
  let conns := [mkConnection (Some 0) 1%N; mkConnection (Some 0) 2%N] in
  conns !! 0 = Some (mkConnection (Some 0) 1%N) ∧
  conns !! 1 = Some (mkConnection (Some 0) 2%N) ∧
  (1%N ≠ 0%N → Some 0 = Some 0) ∧
  move_assign 0 0 conns six_subscribed = (conns, six_subscribed).
Proof.
  intros conns.
  split; [reflexivity|]. split; [reflexivity|]. split; [reflexivity|].
  exact (proj2 (move_assign_transfers 0 1 conns six_subscribed
                  (mkConnection (Some 0) 1%N) (mkConnection (Some 0) 2%N) 0
                  eq_refl eq_refl (fun _ => eq_refl))).
Defined.

Lemma Unsubscribe_after_oneshot_fired_witness :
  let w := oneshot_subscribed in
  let w' := (run 3 (CallDispatch 0 7 0 Ret) w).2 in
  HandlerTypes (bus w 0) !! 1%N = Some 7 ∧
  unsubscribes 0 1%N (Trace w') = unsubscribes 0 1%N (Trace w) ∧
  find_if 1%N (Slots (dispatcher_of w' 0 7)) = None ∧
  HandlerTypes (bus w' 0) !! 1%N = Some 7.
Proof.
  intros w w'.
  assert (HandlerTypes (bus w 0) !! 1%N = Some 7) as H1
    by (vm_compute; reflexivity).
  assert (unsubscribes 0 1%N (Trace w') = unsubscribes 0 1%N (Trace w)) as H2
    by (vm_compute; reflexivity).
  assert (find_if 1%N (Slots (dispatcher_of w' 0 7)) = None) as H3
    by (vm_compute; reflexivity).
  split; [exact H1|]. split; [exact H2|]. split; [exact H3|].
  exact (proj1 (Unsubscribe_after_oneshot_fired 3 (CallDispatch 0 7 0 Ret)
                  w 0 1%N 7 H1 H2 H3)).
Defined.



(** * Further scenarios *)


Lemma Dispatch_without_handlers_witness :
  let w := (run 3 oneshot_observer start).2 in
  GetHandlerCount 0 7 w = 0 ∧
  length (Slots (dispatcher_of w 0 7)) = 1 ∧
  ∀ fuel, TEventSystem_Dispatch (Dispatch (run fuel)) 0 7 5 w
          = (Returned, set_bus 0 (GetDispatcher 7 (bus w 0)).2 w).
Proof.
  intros w.
  assert (GetHandlerCount 0 7 w = 0) as H by (vm_compute; reflexivity).
  split; [exact H|]. split; [vm_compute; reflexivity|].
  exact (proj1 (Dispatch_without_handlers 0 7 5 w H)).
Defined.

Lemma Subscribe_position_witness :
  let hi := mkSlot 1%N High (fun _ : nat => @Ret nat nat) false 0 in
  let lo := mkSlot 2%N Low (fun _ : nat => @Ret nat nat) false 1 in
  let new := mkSlot 3%N Normal (fun _ : nat => @Ret nat nat) false 2 in
  StronglySorted prio_ge [hi; lo] ∧
  ∃ l1 l2, [hi; lo] = l1 ++ l2 ∧
           Slots (Subscribe new (mkDispatcher [hi; lo])) = l1 ++ new :: l2.
Proof.
  intros hi lo new.
  assert (StronglySorted prio_ge [hi; lo]) as H.
  { repeat constructor. unfold prio_ge. simpl. lia. }
  split; [exact H|].
  destruct (Subscribe_position new (mkDispatcher [hi; lo]) H)
    as (l1 & l2 & E1 & E2 & _).
  exists l1, l2. split; [exact E1|exact E2].
Defined.

Lemma Unsubscribe_unissued_noop_witness :
  (0%N = 0%N ∧
   (N.of_nat (length (issued_by 0%nat (Trace six_subscribed))) < SIZE_MOD)%N) ∧
  UnsubscribeImpl 0 0%N six_subscribed = six_subscribed.
Proof.
  assert (0%N = 0%N ∧
          (N.of_nat (length (issued_by 0%nat (Trace six_subscribed)))
           < SIZE_MOD)%N) as H by (split; [reflexivity|vm_compute; reflexivity]).
  split; [exact H|].
  exact (proj1 (proj2 (proj2
    (Unsubscribe_unissued_noop 7 (six_handlers Ret) 0 0 0%N (or_intror H))))).
Defined.

Lemma Subscribe_idle_adds_one_witness :
  let w1 := (SubscribeImpl_register 0 7 High (fun _ => Ret) false
               six_subscribed).2 in
  slots_inv six_subscribed ∧
  current_frame 0 7 (DispatchStack six_subscribed) = None ∧
  GetHandlerCount 0 7 w1 = S (GetHandlerCount 0 7 six_subscribed).
Proof.
  intros w1.
  assert (slots_inv six_subscribed) as H1.
  { apply (run_keeps slots_inv 7 slots_inv_stable), wf_initial. }
  assert (current_frame 0 7 (DispatchStack six_subscribed) = None) as H2
    by (vm_compute; reflexivity).
  split; [exact H1|]. split; [exact H2|].
  exact (proj1 (proj2
    (Subscribe_idle_adds_one 0 7 High false (fun _ => Ret) six_subscribed H1 H2))).
Defined.

Lemma Unsubscribe_removes_one_witness :
  let target := mkSlot 1%N Low (fun _ : nat => @Ret nat nat) false 0 in
  owned six_subscribed ∧
  HandlerTypes (bus six_subscribed 0) !! 1%N = Some 7 ∧
  find_if 1%N (Slots (dispatcher_of six_subscribed 0 7)) = Some target ∧
  load (Flags six_subscribed) (Active target) = true ∧
  S (GetHandlerCount 0 7 (UnsubscribeImpl 0 1%N six_subscribed))
  = GetHandlerCount 0 7 six_subscribed.
Proof.
  intros target.
  assert (owned six_subscribed) as H1.
  { apply (run_keeps owned 7 owned_stable), owned_initial. }
  assert (HandlerTypes (bus six_subscribed 0) !! 1%N = Some 7) as H2
    by (vm_compute; reflexivity).
  assert (find_if 1%N (Slots (dispatcher_of six_subscribed 0 7)) = Some target)
    as H3 by (vm_compute; reflexivity).
  assert (load (Flags six_subscribed) (Active target) = true) as H4
    by (vm_compute; reflexivity).
  split; [exact H1|]. split; [exact H2|]. split; [exact H3|]. split; [exact H4|].
  exact (proj1 (Unsubscribe_removes_one 0 1%N 7 target six_subscribed H1 H2 H3 H4)).
Defined.

Lemma run_excises_inactive_slots_witness :
  owned start ∧
  (run 10 throwing_oneshot start).1 = Returned ∧
  clean start ∧
  clean (run 10 throwing_oneshot start).2.
Proof.
  assert (owned start) as H1 by apply owned_initial.
  assert ((run 10 throwing_oneshot start).1 = Returned) as H2
    by (vm_compute; reflexivity).
  assert (clean start) as H3 by apply clean_initial.
  split; [exact H1|]. split; [exact H2|]. split; [exact H3|].
  exact (proj1 (proj2
    (run_excises_inactive_slots 10 throwing_oneshot start H1 (or_introl H2)) H3)).
Defined.

Lemma Dispatch_delivers_to_quiet_handlers_witness :
  let l := Slots (dispatcher_of six_subscribed 0 7) in
  Forall (fun s => quiet (CallbackV s 0)) l ∧
  Forall (fun s => load (Flags six_subscribed) (Active s) = true) l ∧
  NoDup (map Active l) ∧
  ∃ n, ∀ fuel, n ≤ fuel →
    (TEventSystem_Dispatch (Dispatch (run fuel)) 0 7 0 six_subscribed).1 = Returned.
Proof.
  intros l.
  assert (Forall (fun s => quiet (CallbackV s 0)) l) as H1.
  { vm_compute. repeat constructor. }
  assert (Forall (fun s => load (Flags six_subscribed) (Active s) = true) l) as H2.
  { vm_compute. repeat constructor. }
  assert (NoDup (map Active l)) as H3.
  { vm_compute. apply NoDup_ListNoDup.
    repeat (constructor; [simpl; intuition lia|]). constructor. }
  split; [exact H1|]. split; [exact H2|]. split; [exact H3|].
  destruct (Dispatch_delivers_to_quiet_handlers 0 7 0 six_subscribed H1 H2 H3)
    as [n Hn].
  exists n. intros fuel Hf. exact (proj1 (Hn fuel Hf)).
Defined.

Lemma revisions_agree_on_quiet_handlers_witness :
  let p := six_handlers (CallDispatch 0 7 0 Ret) in
  calm p ∧ quiet_world start ∧
  (run 10 p start).1 = Returned ∧
  run_legacy 10 p start = run 10 p start.
Proof.
  intros p.
  assert (calm p) as H1.
  { unfold p, six_handlers. repeat (constructor; intros). }
  assert (quiet_world start) as H2 by apply quiet_world_initial.
  assert ((run 10 p start).1 = Returned) as H3 by (vm_compute; reflexivity).
  split; [exact H1|]. split; [exact H2|]. split; [exact H3|].
  exact (proj2 (revisions_agree_on_quiet_handlers 10 p start H1 H2) (or_introl H3)).
Defined.

Lemma Subscribe_then_find_witness :
  (N.of_nat (length (issued_by 0%nat (Trace six_subscribed))) + 1 < SIZE_MOD)%N ∧
  (SubscribeImpl_register 0 7 High (fun _ => Ret) false six_subscribed).1 = 7%N.
Proof.
  assert ((N.of_nat (length (issued_by 0%nat (Trace six_subscribed))) + 1
           < SIZE_MOD)%N) as H by (vm_compute; reflexivity).
  split; [exact H|].
  exact (proj1 (Subscribe_then_find 7 (six_handlers Ret) 0 0 7 High false
                  (fun _ => Ret) H)).
Defined.


Lemma Dispatch_consumes_oneshots_witness :
  let r := TEventSystem_Dispatch (Dispatch (run 3)) 0 7 0 oneshot_subscribed in
  let s := mkSlot 1%N Normal (fun _ : nat => @Ret nat nat) true 0 in
  owned oneshot_subscribed ∧ r.1 = Returned ∧
  s ∈ Slots (dispatcher_of oneshot_subscribed 0 7) ∧
  load (Flags r.2) (Active s) = false.
Proof.
  intros r s.
  assert (owned oneshot_subscribed) as H1.
  { apply (run_keeps owned 2 owned_stable), owned_initial. }
  assert (r.1 = Returned) as H2 by (vm_compute; reflexivity).
  assert (s ∈ Slots (dispatcher_of oneshot_subscribed 0 7)) as H3.
  { vm_compute. apply list_elem_of_here. }
  split; [exact H1|]. split; [exact H2|]. split; [exact H3|].
  exact (proj1 (Dispatch_consumes_oneshots 3 0 7 0 oneshot_subscribed H1 H2 s H3
                  eq_refl)).
Defined.


Lemma SubscribeOnce_during_dispatch_consumed_witness :
  let w := in_high_handler in
  let slot := mkSlot 3%N Low (fun _ : nat => @Ret nat nat) true 2 in
  let w1 := (SubscribeImpl_register 0 7 Low (fun _ => Ret) true w).2 in
  let w3 := log (invoked slot 0 ViaInvokeSingle (claim slot w1)) (claim slot w1) in
  wf w ∧ owned w ∧
  current_frame 0 7 (DispatchStack w) = Some (mkFrame 0 7 0) ∧
  (N.of_nat (length (issued_by 0%nat (Trace w))) + 1 < SIZE_MOD)%N ∧
  (run 1 Ret w3).1 = Returned ∧
  load (Flags (Cleanup 0 7 (run 1 Ret w3).2)) 2 = false.
Proof.
  intros w slot w1 w3.
  assert (wf w) as H1 by apply (run_keeps wf 4 wf_stable), wf_initial.
  assert (owned w) as H2 by apply (run_keeps owned 4 owned_stable), owned_initial.
  assert (current_frame 0 7 (DispatchStack w) = Some (mkFrame 0 7 0)) as H3
    by (vm_compute; reflexivity).
  assert ((N.of_nat (length (issued_by 0%nat (Trace w))) + 1 < SIZE_MOD)%N) as H4
    by (vm_compute; reflexivity).
  assert ((run 1 Ret w3).1 = Returned) as H5 by reflexivity.
  split; [exact H1|]. split; [exact H2|]. split; [exact H3|]. split; [exact H4|].
  split; [exact H5|].
  exact (proj1 (proj2
    (SubscribeOnce_during_dispatch_consumed 1 0 7 Low (fun _ => Ret)
       (fun _ => Ret) w (mkFrame 0 7 0) H1 H2 H3 H4 (or_introl H5)))).
Defined.


Lemma legacy_handler_ids_increase_witness :
  (N.of_nat (length (issued_by 0%nat
                       (Trace (run_legacy 7 (six_handlers Ret) start).2)))
   < SIZE_MOD)%N ∧
  StronglySorted N.lt
    (issued_by 0 (Trace (run_legacy 7 (six_handlers Ret) start).2)).
Proof.
  assert ((N.of_nat (length (issued_by 0%nat
             (Trace (run_legacy 7 (six_handlers Ret) start).2)))
           < SIZE_MOD)%N) as H by (vm_compute; reflexivity).
  split; [exact H|].
  exact (proj1 (proj2 (proj2
    (legacy_handler_ids_increase 7 (six_handlers Ret) 0 0 H)))).
Defined.

Lemma legacy_Unsubscribe_suppresses_target_witness :
  let w := (run_legacy 4 unsubscribe_other start).2 in
  let target := mkSlot 1%N Low (fun _ : nat => @Ret nat nat) false 0 in
  HandlerTypes (bus w 0) !! 1%N = Some 7 ∧
  find_if 1%N (Slots (dispatcher_of w 0 7)) = Some target ∧
  Active target < length (Flags w) ∧
  load (Flags (UnsubscribeImpl 0 1%N w)) 0 = false.
Proof.
  intros w target.
  assert (HandlerTypes (bus w 0) !! 1%N = Some 7) as H1
    by (vm_compute; reflexivity).
  assert (find_if 1%N (Slots (dispatcher_of w 0 7)) = Some target)
    as H2 by (vm_compute; reflexivity).
  assert (Active target < length (Flags w)) as H3 by (vm_compute; lia).
  split; [exact H1|]. split; [exact H2|]. split; [exact H3|].
  exact (proj1 (proj2
    (legacy_Unsubscribe_suppresses_target 0 1%N 7 target w H1 H2 H3))).
Defined.

Lemma run_legacy_restores_DispatchStack_witness :
  (run_legacy 10 throwing_oneshot start).1 = Returned ∧
  DispatchStack (run_legacy 10 throwing_oneshot start).2 = DispatchStack start.
Proof.
  assert ((run_legacy 10 throwing_oneshot start).1 = Returned) as H
    by (vm_compute; reflexivity).
  split; [exact H|].
  exact (run_legacy_restores_DispatchStack 10 throwing_oneshot start (or_introl H)).
Defined.


(** * Scenarios for the amended claims *)

(** C4, the claim as stated fails.  In one publish the Low handler runs
    first; its callback subscribes a High handler, which is invoked at
    once on the event being delivered: within this publish a Low
    handler has run before a High one. *)
Lemma Low_runs_before_High_subscribed_in_flight :
  (run 10 low_subscribes_high start).1 = Returned ∧
  Trace (run 10 low_subscribes_high start).2
  = [Issued 0 1%N; Invoked 0 1%N Low false 0 ViaDispatch 1;
     Issued 0 2%N; Invoked 1 2%N High false 0 ViaInvokeSingle 1].
Proof. vm_compute. done. Qed.

Lemma Dispatch_priority_order_witness :
  let w := six_subscribed in
  let la := List.filter (fun s => load (Flags w) (Active s))
                        (Slots (dispatcher_of w 0 7)) in
  slots_inv w ∧ owned w ∧
  Forall (fun s => quiet (CallbackV s 0)) la ∧
  ∃ n, ∀ fuel, n ≤ fuel →
    let r := TEventSystem_Dispatch (Dispatch (run fuel)) 0 7 0 w in
    r.1 = Returned ∧
    Trace r.2 = Trace w ++ map (delivery_entry 0 1) la ∧
    own_invocations 1 (map (delivery_entry 0 1) la)
    = [(High, 1); (High, 3); (Normal, 2); (Normal, 5); (Low, 0); (Low, 4)].
Proof.
  intros w la.
  assert (slots_inv w) as H1.
  { apply (run_keeps slots_inv 7 slots_inv_stable), wf_initial. }
  assert (owned w) as H2.
  { apply (run_keeps owned 7 owned_stable), owned_initial. }
  assert (Forall (fun s => quiet (CallbackV s 0)) la) as H3.
  { vm_compute. repeat constructor. }
  split; [exact H1|]. split; [exact H2|]. split; [exact H3|].
  exact (proj2 (proj2 (proj2 (Dispatch_priority_order 0 0 7 0 w H1 H2))) H3).
Defined.

